(** * iceutils.sim.models: residual and Jacobian of the 1-D ice-stream
  stress balance

  Shallow embedding of [src/iceutils/sim/models.py] (classes [IceStream]
  and [LateralIceStream]) and the properties stated about it.

  Layout of the development:
  - [Arith]: the scalar operations the source applies to numbers
    (Python 3 true division, numpy [abs], [copysign], [**], [<]).  The
    code is embedded once, for any carrier with these operations, so that
    everything proved without arithmetic laws holds in every arithmetic.
  - arrays are lists, matrices are lists of rows; the arrays the instance
    owns ([F], [J], [K], [Hf]) live in a heap of objects addressed by
    location, because the source mutates and returns them by reference.
  - [xr]: exact arithmetic on the reals extended with [+inf], [-inf] and
    [nan], following the IEEE-754 rules numpy applies to special values.
    Rounding, overflow and the sign of zero are abstracted away: what is
    proved in it about signs, zeros and special values is what the formulas
    give before rounding.
  - [B64]: binary64 itself, on the primitive floats, for what rounding and
    overflow decide: whether two groupings of a sum agree, whether a
    quotient is finite.
  - [nd_run]: the library numdifftools, which [compute_numerical_jacobian]
    calls, as the evaluations it makes of the function it is given. *)

From Stdlib Require Import QArith Qreals Reals Lra Rpower R_Ifp.
From Stdlib Require PrimFloat.
From stdpp Require Import base option list gmap strings.

Set Default Proof Using "Type".

(** ** Scalars *)

(** The operations of a numpy float64 scalar that the source uses.
  [lit q] is the value denoted by the decimal literal [q]. *)
Class Arith (T : Type) := {
  lit : Q → T;
  add : T → T → T;
  sub : T → T → T;
  mul : T → T → T;
  div : T → T → T;
  pow : T → T → T;
  abs : T → T;
  copysign : T → T → T;
  ltb : T → T → bool;
}.

Declare Scope arith_scope.
Delimit Scope arith_scope with ar.
Infix "+" := add : arith_scope.
Infix "-" := sub : arith_scope.
Infix "*" := mul : arith_scope.
Infix "/" := div : arith_scope.
Infix "**" := pow (at level 30, right associativity) : arith_scope.

(** ** Arrays *)

Section arrays.
Context {T : Type} `{Arith T}.
Local Open Scope arith_scope.

(** Broadcasting of a binary operation: scalar with array, array with
    scalar, array with array of the same shape. *)
Definition sv (op : T → T → T) (s : T) (v : list T) : list T := op s <$> v.
Definition vs (op : T → T → T) (v : list T) (s : T) : list T := (λ x, op x s) <$> v.
Definition vv (op : T → T → T) (v w : list T) : list T := zip_with op v w.

Definition sm (op : T → T → T) (s : T) (M : list (list T)) : list (list T) := sv op s <$> M.
Definition ms (op : T → T → T) (M : list (list T)) (s : T) : list (list T) := (λ r, vs op r s) <$> M.
Definition mm (op : T → T → T) (M M' : list (list T)) : list (list T) := zip_with (vv op) M M'.

(** The entry of [vv op v w] at an index, from the entries of [v] and [w]. *)
Definition opt2 (op : T → T → T) (x y : option T) : option T :=
  match x, y with Some a, Some b => Some (op a b) | _, _ => None end.

(** [np.abs], [np.ones_like], [np.copysign(x, y)], [np.zeros], [np.eye]. *)
Definition np_abs (v : list T) : list T := abs <$> v.
Definition np_ones_like (v : list T) : list T := (λ _, lit 1) <$> v.
Definition np_copysign (x y : list T) : list T := zip_with copysign x y.
Definition np_zeros (k : nat) : list T := replicate k (lit 0).
Definition np_zeros2 (r c : nat) : list (list T) := replicate r (np_zeros c).
Definition np_eye (k : nat) : list (list T) :=
  (λ i, (λ j, if decide (i = j) then lit 1 else lit 0) <$> seq 0 k) <$> seq 0 k.

(** [np.dot]: inner product, matrix times vector, matrix times matrix. *)
Definition inner (r v : list T) : T := foldl add (lit 0) (zip_with mul r v).
Definition np_dot (M : list (list T)) (v : list T) : list T := (λ r, inner r v) <$> M.
Definition column (j : nat) (M : list (list T)) : list T := omap (λ r, r !! j) M.
Definition ncols (M : list (list T)) : nat := default 0%nat (length <$> head M).
Definition np_dot2 (M M' : list (list T)) : list (list T) :=
  (λ r, (λ j, inner r (column j M')) <$> seq 0 (ncols M')) <$> M.

(** Lines 118-126 and 282-290: [gradient_product(b, A)], that is
    [np.einsum('ij,i->ij', A, b)], row [i] of [A] scaled by [b[i]]. *)
Definition gradient_product (b : list T) (A : list (list T)) : list (list T) :=
  zip_with (λ r bi, (λ a, a * bi) <$> r) A b.

(** [M[range(N), range(N)] -= v]: in-place update of the diagonal. *)
Definition diag_sub (M : list (list T)) (v : list T) : list (list T) :=
  imap (λ i r, match v !! i with
               | Some b => alter (λ x, x - b) i r
               | None => r
               end) M.

(** [buf[:-2] = vals], for [vals] of length [len(buf) - 2]. *)
Definition set_upto2 {X} (buf vals : list X) : list X :=
  vals ++ drop (length buf - 2)%nat buf.
(** [buf[-2] = x] and [buf[-1] = x]. *)
Definition set_m2 {X} (buf : list X) (x : X) : list X := <[(length buf - 2)%nat := x]> buf.
Definition set_m1 {X} (buf : list X) (x : X) : list X := <[(length buf - 1)%nat := x]> buf.
End arrays.

(** ** Objects *)

(** A location is the identity of an object. *)
Abbreviation loc := nat.

(** A numpy array object: one- or two-dimensional. *)
Inductive ndarray (T : Type) := Arr1 (v : list T) | Arr2 (M : list (list T)).
Arguments Arr1 {T} v.
Arguments Arr2 {T} M.

(** The heap of array objects; a location is an object identity. *)
Abbreviation heap T := (list (ndarray T)).

Section heap.
Context {T : Type}.

Definition alloc (x : ndarray T) (σ : heap T) : loc * heap T := (length σ, σ ++ [x]).
Definition read1 (l : loc) (σ : heap T) : option (list T) :=
  match σ !! l with Some (Arr1 v) => Some v | _ => None end.
Definition read2 (l : loc) (σ : heap T) : option (list (list T)) :=
  match σ !! l with Some (Arr2 M) => Some M | _ => None end.
Definition store (l : loc) (x : ndarray T) (σ : heap T) : heap T := <[l := x]> σ.
End heap.

(** ** The grid profile *)

(** The [profile] object the models read: [N] nodes, the [N]x[N]
    differentiation matrix [D], and per-node fields.  The models only read
    it. *)
Module Profile.
Record t (T : Type) := {
  N : nat;
  D : list (list T);
  h : list T;
  alpha : list T;
  depth : list T;
  rho_ice : T;
  rho_water : T;
}.
Arguments N {T}.
Arguments D {T}.
Arguments h {T}.
Arguments alpha {T}.
Arguments depth {T}.
Arguments rho_ice {T}.
Arguments rho_water {T}.

(** The shapes the models rely on: at least one node, [N] rows in [D], and
    fields of length [N]. *)
Definition wf {T} (p : t T) : Prop :=
  (1 ≤ N p)%nat ∧ length (D p) = N p ∧ length (h p) = N p ∧
  length (alpha p) = N p ∧ length (depth p) = N p.
End Profile.

(** ** Computations the two classes share

    [IceStream] and [LateralIceStream] repeat the same statements for the
    strain rate, the viscosity, the membrane stress, the driving stress and
    the membrane part of the Jacobian; they are embedded once. *)

Section shared.
Context {T : Type} `{Arith T}.
Local Open Scope arith_scope.

(** Lines 55 and 187:
    [nu = A**(-1 / n) / (np.abs(Du)**((n - 1) / n) + self.nu_eps)] *)
Definition viscosity (A n nu_eps : T) (Du : list T) : list T :=
  sv div (A ** (lit (-1) / n))
         (vs add (vs pow (np_abs Du) ((n - lit 1) / n)) nu_eps).

(** Lines 58 and 190: [membrane = scale * 2.0 * np.dot(D, h * nu * Du)] *)
Definition membrane_stress (D : list (list T)) (h nu Du : list T) (scale : T) : list T :=
  sv mul (scale * lit 2) (np_dot D (vv mul (vv mul h nu) Du)).

(** Lines 64 and 201: [Td = scale * self.rho_ice * g * h * alpha] *)
Definition driving_stress (rho_ice g : T) (h alpha : list T) (scale : T) : list T :=
  vv mul (sv mul ((scale * rho_ice) * g) h) alpha.

(** Lines 86 and 238:
    [nu = 1.0 / (np.abs(Du)**((n - 1) / n) + self.nu_eps)] *)
Definition normalized_nu (n nu_eps : T) (Du : list T) : list T :=
  sv div (lit 1) (vs add (vs pow (np_abs Du) ((n - lit 1) / n)) nu_eps).

(** Lines 89 and 241:
    [nu_hat = (n - 1) / n * Du / (np.abs(Du)**((n + 1) / n) + self.nu_eps)] *)
Definition nu_hat (n nu_eps : T) (Du : list T) : list T :=
  vv div (sv mul ((n - lit 1) / n) Du)
         (vs add (vs pow (np_abs Du) ((n + lit 1) / n)) nu_eps).

(** The membrane part of the Jacobian, lines 83-97 and 235-249:
[[
  Gp = self.gradient_product(-1.0 * (nu**2) * nu_hat, D)
  J1 = self.gradient_product(h * Du, Gp)
  J2 = self.gradient_product(h * nu, D)
  scale * np.dot(self.K, J1 + J2)
]] *)
Definition membrane_jacobian (D : list (list T)) (h : list T) (n nu_eps : T)
    (K : list (list T)) (u : list T) (scale : T) : list (list T) :=
  let Du := np_dot D u in
  let nu := normalized_nu n nu_eps Du in
  let nh := nu_hat n nu_eps Du in
  let Gp := gradient_product (vv mul (sv mul (lit (-1)) (vs pow nu (lit 2))) nh) D in
  let J1 := gradient_product (vv mul h Du) Gp in
  let J2 := gradient_product (vv mul h nu) D in
  sm mul scale (np_dot2 K (mm add J1 J2)).

(** Lines 37 and 163: [self.K = 2.0 * profile.D * A**(-1 / n)] *)
Definition stress_constant (D : list (list T)) (A n : T) : list (list T) :=
  ms mul (sm mul (lit 2) D) (A ** (lit (-1) / n)).

(** Filling the residual buffer, lines 67-69 and 213-215:
[[
  self.F[:-2] = interior
  self.F[-2] = self.boundary_value_scale * Du[0]
  self.F[-1] = self.boundary_value_scale * (Du[-1] - self.fs)
]]
    [None] stands for the exception numpy raises when the shapes do not fit
    or an index is out of range. *)
Definition fill_F (Fbuf interior Du : list T) (bvs fs : T) : option (list T) :=
  guard (length interior = (length Fbuf - 2)%nat);;
  guard (2 ≤ length Fbuf)%nat;;
  let F1 := set_upto2 Fbuf interior in
  Du0 ← Du !! 0%nat;
  let F2 := set_m2 F1 (bvs * Du0) in
  DuN ← last Du;
  Some (set_m1 F2 (bvs * (DuN - fs))).

(** Filling the Jacobian buffer, lines 103-105 and 267-269:
[[
  self.J[:-2,:] = Jpde
  self.J[-2,:] = self.boundary_value_scale * D[0,:]
  self.J[-1,:] = self.boundary_value_scale * D[-1,:]
]] *)
Definition fill_J (Jbuf Jpde D : list (list T)) (bvs : T) : option (list (list T)) :=
  guard (length Jpde = (length Jbuf - 2)%nat);;
  guard (2 ≤ length Jbuf)%nat;;
  let J1 := set_upto2 Jbuf Jpde in
  D0 ← D !! 0%nat;
  let J2 := set_m2 J1 (sv mul bvs D0) in
  DN ← last D;
  Some (set_m1 J2 (sv mul bvs DN)).
End shared.

(** ** The library numdifftools

    [compute_numerical_jacobian] hands [self.compute_pde_values] to
    [nd.Jacobian] of the library numdifftools, which is not part of the
    source.  The library is modelled by what it can do with the function
    it is given: evaluate it at points of its choice, each chosen from the
    results obtained so far ([None] when the evaluation raised), and in the
    end return a matrix or raise. *)
Inductive nd_run (T : Type) :=
  | Nd_return (result : option (list (list T)))
  | Nd_call (x : list T) (k : option (list T) → nd_run T).
Arguments Nd_return {T} result.
Arguments Nd_call {T} x k.

(** ** class IceStream *)

Module IceStream.
Section defs.
Context {T : Type} `{Arith T}.
Local Open Scope arith_scope.

(** The attributes [__init__] assigns.  Scalars are values; the arrays
    [K], [F] and [J] are references to objects of the heap. *)
Record t := {
  profile : Profile.t T;
  A : T;
  g : T;
  B2 : T;
  n : T;
  m : T;
  rho_ice : T;
  rho_water : T;
  boundary_value_scale : T;
  nu_eps : T;
  fs : T;
  K : loc;
  F : loc;
  J : loc;
}.

(** Lines 12-41: [__init__(self, profile, calving_force, A, B2=6.0e2, n=3, m=1)] *)
Definition __init__ (profile : Profile.t T) (calving_force A B2 n m : T)
    (σ : heap T) : t * heap T :=
  let '(lK, σ) := alloc (Arr2 (stress_constant (Profile.D profile) A n)) σ in
  let '(lF, σ) := alloc (Arr1 (np_zeros (Profile.N profile + 2))) σ in
  let '(lJ, σ) :=
    alloc (Arr2 (np_zeros2 (Profile.N profile + 2) (Profile.N profile))) σ in
  ({| profile := profile; A := A; g := lit 9.80665; B2 := B2; n := n; m := m;
      rho_ice := Profile.rho_ice profile; rho_water := Profile.rho_water profile;
      boundary_value_scale := lit 500; nu_eps := lit 0.00000001;
      fs := calving_force; K := lK; F := lF; J := lJ |}, σ).

(** Line 61: [drag = scale * self.B2 * u] *)
Definition drag (self : t) (u : list T) (scale : T) : list T :=
  sv mul (scale * B2 self) u.

(** The interior entries, line 67: [membrane - drag + Td]. *)
Definition interior (self : t) (u : list T) (scale : T) : list T :=
  let p := profile self in
  let Du := np_dot (Profile.D p) u in
  let nu := viscosity (A self) (n self) (nu_eps self) Du in
  let membrane := membrane_stress (Profile.D p) (Profile.h p) nu Du scale in
  let Td := driving_stress (rho_ice self) (g self) (Profile.h p) (Profile.alpha p) scale in
  vv add (vv sub membrane (drag self u scale)) Td.

(** Lines 43-72: [compute_pde_values(self, u, scale=1.0e-2)] fills [self.F]
    and returns [self.F.copy()], a new object. *)
Definition compute_pde_values (self : t) (u : list T) (scale : T)
    (σ : heap T) : option (loc * heap T) :=
  let Du := np_dot (Profile.D (profile self)) u in
  Fbuf ← read1 (F self) σ;
  F' ← fill_F Fbuf (interior self u scale) Du (boundary_value_scale self) (fs self);
  Some (alloc (Arr1 F') (store (F self) (Arr1 F') σ)).

(** Line 100: [J_drag = scale * self.B2 * np.eye(u.size)] *)
Definition J_drag (self : t) (u : list T) (scale : T) : list (list T) :=
  sm mul (scale * B2 self) (np_eye (length u)).

(** Lines 74-107: [compute_jacobian(self, u, scale=1.0e-2)] fills [self.J]
    and returns [self.J] itself. *)
Definition compute_jacobian (self : t) (u : list T) (scale : T)
    (σ : heap T) : option (loc * heap T) :=
  let p := profile self in
  Kv ← read2 (K self) σ;
  let J_membrane :=
    membrane_jacobian (Profile.D p) (Profile.h p) (n self) (nu_eps self) Kv u scale in
  Jbuf ← read2 (J self) σ;
  J' ← fill_J Jbuf (mm sub J_membrane (J_drag self u scale)) (Profile.D p)
         (boundary_value_scale self);
  Some (J self, store (J self) (Arr2 J') σ).
(** The matrix [compute_jacobian] leaves in [self.J]. *)
Definition jacobian (self : t) (Kv : list (list T)) (u : list T) (scale : T)
    (D0 DN : list T) : list (list T) :=
  let p := profile self in
  let J_membrane :=
    membrane_jacobian (Profile.D p) (Profile.h p) (n self) (nu_eps self) Kv u scale in
  mm sub J_membrane (J_drag self u scale)
    ++ [sv mul (boundary_value_scale self) D0; sv mul (boundary_value_scale self) DN].

(** An instance as [__init__] leaves it and as the methods keep it: the
    buffers are allocated, distinct, and of the shapes of the profile. *)
Definition wf (self : t) (σ : heap T) : Prop :=
  Profile.wf (profile self) ∧
  (∃ Kv, read2 (K self) σ = Some Kv ∧ length Kv = Profile.N (profile self)) ∧
  (∃ Fv, read1 (F self) σ = Some Fv ∧ length Fv = (Profile.N (profile self) + 2)%nat) ∧
  (∃ Jv, read2 (J self) σ = Some Jv ∧ length Jv = (Profile.N (profile self) + 2)%nat) ∧
  K self ≠ J self.

(** The calls a driver makes on one instance, and the heap they leave.  A
    call that raises leaves the heap as it was. *)
Inductive call :=
  | Call_pde_values (u : list T) (scale : T)
  | Call_jacobian (u : list T) (scale : T).

Definition exec (self : t) (σ : heap T) (c : call) : heap T :=
  match c with
  | Call_pde_values u scale =>
      match compute_pde_values self u scale σ with Some (_, σ') => σ' | None => σ end
  | Call_jacobian u scale =>
      match compute_jacobian self u scale σ with Some (_, σ') => σ' | None => σ end
  end.

Definition run (self : t) (cs : list call) (σ : heap T) : heap T :=
  foldl (exec self) σ cs.

(** The evaluations numdifftools makes of [self.compute_pde_values]: it
    passes the point only, so [scale] has its default [1.0e-2]; it is
    given the array the call returns. *)
Fixpoint evaluate (self : t) (s : nd_run T) (σ : heap T)
    : option (list (list T)) * heap T :=
  match s with
  | Nd_return result => (result, σ)
  | Nd_call x k =>
      match compute_pde_values self x (lit 0.01) σ with
      | Some (r, σ') => evaluate self (k (read1 r σ')) σ'
      | None => evaluate self (k None) σ
      end
  end.

(** Lines 109-116: [compute_numerical_jacobian(self, u, step=1.0e-7)]
[[
  jacfun = nd.Jacobian(self.compute_pde_values, step=step)
  return jacfun(u)
]]
    for a library [nd_Jacobian], given the step and the point. *)
Definition compute_numerical_jacobian (nd_Jacobian : T → list T → nd_run T)
    (self : t) (u : list T) (step : T) (σ : heap T)
    : option (list (list T)) * heap T :=
  evaluate self (nd_Jacobian step u) σ.
End defs.
Arguments t : clear implicits.
Arguments call : clear implicits.
End IceStream.

(** ** class LateralIceStream *)

Module LateralIceStream.
Section defs.
Context {T : Type} `{Arith T}.
Local Open Scope arith_scope.

(** The attributes [__init__] assigns.  Scalars are values; the arrays
    [Hf], [K], [F] and [J] are references to objects of the heap. *)
Record t := {
  profile : Profile.t T;
  W : T;
  A : T;
  g : T;
  As : T;
  mu : T;
  n : T;
  m : T;
  rho_ice : T;
  rho_water : T;
  boundary_value_scale : T;
  nu_eps : T;
  drag_eps : T;
  fs : T;
  Hf : loc;
  K : loc;
  F : loc;
  J : loc;
}.

(** Line 159:
    [self.Hf = profile.h - self.rho_water / self.rho_ice * profile.depth] *)
Definition raw_flotation (p : Profile.t T) : list T :=
  vv sub (Profile.h p)
         (sv mul (Profile.rho_water p / Profile.rho_ice p) (Profile.depth p)).

(** Line 160: [self.Hf[self.Hf < 0.01] = 0.01] *)
Definition floor_flotation (Hf : list T) : list T :=
  (λ x, if ltb x (lit 0.01) then lit 0.01 else x) <$> Hf.

(** Lines 131-167: [__init__(self, profile, calving_force, A, W=3000.0,
    As=100.0, mu=1.0, n=3, m=3)] *)
Definition __init__ (profile : Profile.t T) (calving_force A W As mu n m : T)
    (σ : heap T) : t * heap T :=
  let '(lHf, σ) := alloc (Arr1 (floor_flotation (raw_flotation profile))) σ in
  let '(lK, σ) := alloc (Arr2 (stress_constant (Profile.D profile) A n)) σ in
  let '(lF, σ) := alloc (Arr1 (np_zeros (Profile.N profile + 2))) σ in
  let '(lJ, σ) :=
    alloc (Arr2 (np_zeros2 (Profile.N profile + 2) (Profile.N profile))) σ in
  ({| profile := profile; W := W; A := A; g := lit 9.80665; As := As; mu := mu;
      n := n; m := m;
      rho_ice := Profile.rho_ice profile; rho_water := Profile.rho_water profile;
      boundary_value_scale := lit 500; nu_eps := lit 0.00000001;
      drag_eps := lit 0.001;
      fs := calving_force; Hf := lHf; K := lK; F := lF; J := lJ |}, σ).

(** Lines 194 and 253: [usign = np.copysign(np.ones_like(u), u)] *)
Definition usign (u : list T) : list T := np_copysign (np_ones_like u) u.

(** Line 195: [basal_drag = scale * usign * mu * As * (self.Hf * absu)**(1 / m)] *)
Definition basal_drag (self : t) (Hfv u : list T) (scale : T) : list T :=
  let absu := np_abs u in
  vv mul (vs mul (vs mul (sv mul scale (usign u)) (mu self)) (As self))
         (vs pow (vv mul Hfv absu) (lit 1 / m self)).

(** Line 198:
    [lateral_drag = scale * 2 * usign * h / W * (5 * absu / (A * W))**(1 / n)] *)
Definition lateral_drag (self : t) (u : list T) (scale : T) : list T :=
  let absu := np_abs u in
  vv mul (vs div (vv mul (sv mul (scale * lit 2) (usign u)) (Profile.h (profile self)))
                 (W self))
         (vs pow (vs div (sv mul (lit 5) absu) (A self * W self)) (lit 1 / n self)).

(** Lines 205-206: the dictionary returned when [return_components] is set. *)
Definition cdict (membrane basal lateral driving : list T) : gmap string (list T) :=
  <["membrane" := membrane]> (<["basal" := basal]>
    (<["lateral" := lateral]> (<["driving" := driving]> ∅))).

(** What [compute_pde_values] returns: the copy of the residual buffer, or
    the dictionary of components. *)
Inductive pde_out := Residual (r : loc) | Components (c : gmap string (list T)).

(** The membrane stress, as computed at the head of [compute_pde_values]. *)
Definition membrane (self : t) (u : list T) (scale : T) : list T :=
  let p := profile self in
  let Du := np_dot (Profile.D p) u in
  let nu := viscosity (A self) (n self) (nu_eps self) Du in
  membrane_stress (Profile.D p) (Profile.h p) nu Du scale.

(** [Td], as computed in [compute_pde_values]. *)
Definition Td (self : t) (scale : T) : list T :=
  let p := profile self in
  driving_stress (rho_ice self) (g self) (Profile.h p) (Profile.alpha p) scale.

(** The interior entries, lines 210 and 213:
[[
  membrane -= (basal_drag + lateral_drag)
  self.F[:-2] = membrane + Td
]] *)
Definition interior (self : t) (Hfv u : list T) (scale : T) : list T :=
  vv add (vv sub (membrane self u scale)
                 (vv add (basal_drag self Hfv u scale) (lateral_drag self u scale)))
         (Td self scale).

(** Lines 169-218:
    [compute_pde_values(self, u, scale=1.0e-2, return_components=False)] *)
Definition compute_pde_values (self : t) (u : list T) (scale : T)
    (return_components : bool) (σ : heap T) : option (pde_out * heap T) :=
  let Du := np_dot (Profile.D (profile self)) u in
  Hfv ← read1 (Hf self) σ;
  if return_components then
    Some (Components (cdict (membrane self u scale) (basal_drag self Hfv u scale)
                            (lateral_drag self u scale) (Td self scale)), σ)
  else
    Fbuf ← read1 (F self) σ;
    F' ← fill_F Fbuf (interior self Hfv u scale) Du (boundary_value_scale self) (fs self);
    let '(r, σ') := alloc (Arr1 F') (store (F self) (Arr1 F') σ) in
    Some (Residual r, σ').

(** Lines 254-255:
    [J_basal = (scale * mu * usign * As * (self.Hf * usign) /
               m * (self.Hf * absu)**((1 - m) / m))] *)
Definition J_basal (self : t) (Hfv u : list T) (scale : T) : list T :=
  let absu := np_abs u in
  vv mul (vs div (vv mul (vs mul (sv mul (scale * mu self) (usign u)) (As self))
                         (vv mul Hfv (usign u)))
                 (m self))
         (vs pow (vv mul Hfv absu) ((lit 1 - m self) / m self)).

(** Lines 258-259:
    [J_lateral = (scale * usign * 10 * h * usign /
                 (n * A * W**2) * (5 * absu / (A * W))**((1 - n) / n))] *)
Definition J_lateral (self : t) (u : list T) (scale : T) : list T :=
  let absu := np_abs u in
  vv mul (vs div (vv mul (vv mul (vs mul (sv mul scale (usign u)) (lit 10))
                                 (Profile.h (profile self)))
                         (usign u))
                 ((n self * A self) * (W self ** lit 2)))
         (vs pow (vs div (sv mul (lit 5) absu) (A self * W self))
                 ((lit 1 - n self) / n self)).

(** The interior rows of the Jacobian, lines 249 and 262-264:
[[
  Jpde = scale * np.dot(self.K, J1 + J2)
  Jpde[range(N), range(N)] -= J_basal
  Jpde[range(N), range(N)] -= J_lateral
]] *)
Definition Jpde (self : t) (Kv : list (list T)) (Hfv u : list T) (scale : T)
    : list (list T) :=
  let p := profile self in
  let Jm := membrane_jacobian (Profile.D p) (Profile.h p) (n self) (nu_eps self) Kv u scale in
  diag_sub (diag_sub Jm (J_basal self Hfv u scale)) (J_lateral self u scale).

(** Lines 220-271: [compute_jacobian(self, u, scale=1.0e-2)] fills [self.J]
    and returns [self.J] itself. *)
Definition compute_jacobian (self : t) (u : list T) (scale : T)
    (σ : heap T) : option (loc * heap T) :=
  Kv ← read2 (K self) σ;
  Hfv ← read1 (Hf self) σ;
  Jbuf ← read2 (J self) σ;
  J' ← fill_J Jbuf (Jpde self Kv Hfv u scale) (Profile.D (profile self))
         (boundary_value_scale self);
  Some (J self, store (J self) (Arr2 J') σ).
(** The matrix [compute_jacobian] leaves in [self.J]. *)
Definition jacobian (self : t) (Kv : list (list T)) (Hfv u : list T) (scale : T)
    (D0 DN : list T) : list (list T) :=
  Jpde self Kv Hfv u scale
    ++ [sv mul (boundary_value_scale self) D0; sv mul (boundary_value_scale self) DN].

(** An instance as [__init__] leaves it and as the methods keep it: the
    arrays are allocated, distinct, and of the shapes of the profile. *)
Definition wf (self : t) (σ : heap T) : Prop :=
  Profile.wf (profile self) ∧
  (∃ Hfv, read1 (Hf self) σ = Some Hfv ∧ length Hfv = Profile.N (profile self)) ∧
  (∃ Kv, read2 (K self) σ = Some Kv ∧ length Kv = Profile.N (profile self)) ∧
  (∃ Fv, read1 (F self) σ = Some Fv ∧ length Fv = (Profile.N (profile self) + 2)%nat) ∧
  (∃ Jv, read2 (J self) σ = Some Jv ∧ length Jv = (Profile.N (profile self) + 2)%nat) ∧
  Hf self ≠ F self ∧ K self ≠ J self.

(** The basal term of the Jacobian as the specification writes it,
    [scale . mu . As . Hf[i]^(1/m) . (1/m) . abs_u[i]^((1-m)/m)], to be
    compared with [J_basal]. *)
Definition J_basal_spec (self : t) (scale Hf_i absu_i : T) : T :=
  scale * mu self * As self * (Hf_i ** (lit 1 / m self)) * (lit 1 / m self)
  * (absu_i ** ((lit 1 - m self) / m self)).

(** The instance after the assignment [self.drag_eps = e]. *)
Definition with_drag_eps (e : T) (self : t) : t :=
  {| profile := profile self; W := W self; A := A self; g := g self;
     As := As self; mu := mu self; n := n self; m := m self;
     rho_ice := rho_ice self; rho_water := rho_water self;
     boundary_value_scale := boundary_value_scale self; nu_eps := nu_eps self;
     drag_eps := e;
     fs := fs self; Hf := Hf self; K := K self; F := F self; J := J self |}.

(** The calls a driver makes on one instance, and the heap they leave.  A
    call that raises leaves the heap as it was. *)
Inductive call :=
  | Call_pde_values (u : list T) (scale : T) (return_components : bool)
  | Call_jacobian (u : list T) (scale : T).

Definition exec (self : t) (σ : heap T) (c : call) : heap T :=
  match c with
  | Call_pde_values u scale rc =>
      match compute_pde_values self u scale rc σ with Some (_, σ') => σ' | None => σ end
  | Call_jacobian u scale =>
      match compute_jacobian self u scale σ with Some (_, σ') => σ' | None => σ end
  end.

Definition run (self : t) (cs : list call) (σ : heap T) : heap T :=
  foldl (exec self) σ cs.

(** The evaluations numdifftools makes of [self.compute_pde_values]: it
    passes the point only, so [scale] and [return_components] have their
    defaults [1.0e-2] and [False]; it is given the array the call
    returns. *)
Fixpoint evaluate (self : t) (s : nd_run T) (σ : heap T)
    : option (list (list T)) * heap T :=
  match s with
  | Nd_return result => (result, σ)
  | Nd_call x k =>
      match compute_pde_values self x (lit 0.01) false σ with
      | Some (Residual r, σ') => evaluate self (k (read1 r σ')) σ'
      | _ => evaluate self (k None) σ
      end
  end.

(** Lines 273-280: [compute_numerical_jacobian(self, u, step=1.0e-7)]
[[
  jacfun = nd.Jacobian(self.compute_pde_values, step=step)
  return jacfun(u)
]]
    for a library [nd_Jacobian], given the step and the point. *)
Definition compute_numerical_jacobian (nd_Jacobian : T → list T → nd_run T)
    (self : t) (u : list T) (step : T) (σ : heap T)
    : option (list (list T)) * heap T :=
  evaluate self (nd_Jacobian step u) σ.
End defs.
Arguments t : clear implicits.
Arguments pde_out : clear implicits.
Arguments call : clear implicits.
End LateralIceStream.

(** ** Exact arithmetic with the IEEE special values *)

(** A float64 idealised: a real number, an infinity, or [nan].  The
    operations are exact on finite values and follow IEEE-754 (as numpy
    implements it: no exception, special values propagate) wherever a
    special value is involved or produced.  Zero is unsigned and counts as
    [+0.0]. *)
Inductive xr := Fin (r : R) | PInf | NInf | NaN.

Module Xr.
Local Open Scope R_scope.

Definition is_finite (x : xr) : bool :=
  match x with Fin _ => true | _ => false end.
Definition is_nan (x : xr) : bool :=
  match x with NaN => true | _ => false end.

(** The infinity with the sign of [a], [nan] for [a = 0]. *)
Definition inf_of_sign (a : R) : xr :=
  if Rlt_dec 0 a then PInf else if Rlt_dec a 0 then NInf else NaN.

Definition neg (x : xr) : xr :=
  match x with
  | Fin a => Fin (- a)
  | PInf => NInf
  | NInf => PInf
  | NaN => NaN
  end.

Definition add (x y : xr) : xr :=
  match x, y with
  | NaN, _ | _, NaN => NaN
  | Fin a, Fin b => Fin (a + b)
  | PInf, NInf | NInf, PInf => NaN
  | PInf, _ | _, PInf => PInf
  | NInf, _ | _, NInf => NInf
  end.

Definition sub (x y : xr) : xr := add x (neg y).

Definition mul (x y : xr) : xr :=
  match x, y with
  | NaN, _ | _, NaN => NaN
  | Fin a, Fin b => Fin (a * b)
  | Fin a, PInf | PInf, Fin a => inf_of_sign a
  | Fin a, NInf | NInf, Fin a => inf_of_sign (- a)
  | PInf, PInf | NInf, NInf => PInf
  | PInf, NInf | NInf, PInf => NInf
  end.

(** Division by zero gives the infinity with the sign of the numerator,
    [0 / 0] gives [nan]; a finite value over an infinity gives [0]. *)
Definition div (x y : xr) : xr :=
  match x, y with
  | NaN, _ | _, NaN => NaN
  | Fin a, Fin b => if Req_dec_T b 0 then inf_of_sign a else Fin (a / b)
  | Fin _, _ => Fin 0
  | PInf, Fin b => if Rlt_dec b 0 then NInf else PInf
  | NInf, Fin b => if Rlt_dec b 0 then PInf else NInf
  | _, _ => NaN
  end.

Definition abs (x : xr) : xr :=
  match x with
  | Fin a => Fin (Rabs a)
  | NaN => NaN
  | _ => PInf
  end.

Definition sign_bit (s : xr) : bool :=
  match s with
  | Fin a => if Rlt_dec a 0 then true else false
  | NInf => true
  | _ => false
  end.

(** [copysign x s]: the magnitude of [x] with the sign of [s]. *)
Definition copysign (x s : xr) : xr :=
  if sign_bit s then neg (abs x) else abs x.

Definition is_int (b : R) : bool :=
  if Req_dec_T (IZR (Int_part b)) b then true else false.
Definition is_odd_int (b : R) : bool := is_int b && Z.odd (Int_part b).

(** [x ** y] with the special cases of C's [pow]: [x ** 0 = 1] and
    [1 ** y = 1] for every operand, [0 ** y] is [0] for [y > 0] and [+inf]
    for [y < 0], a negative base has a power only for an integer
    exponent. *)
Definition pow (x y : xr) : xr :=
  match y with
  | Fin b =>
      if Req_dec_T b 0 then Fin 1 else
      match x with
      | NaN => NaN
      | Fin a =>
          if Rlt_dec 0 a then Fin (Rpower a b)
          else if Req_dec_T a 0 then (if Rlt_dec 0 b then Fin 0 else PInf)
          else if is_int b then Fin (powerRZ a (Int_part b)) else NaN
      | PInf => if Rlt_dec 0 b then PInf else Fin 0
      | NInf =>
          if Rlt_dec 0 b then (if is_odd_int b then NInf else PInf) else Fin 0
      end
  | PInf =>
      match x with
      | NaN => NaN
      | Fin a =>
          if Rlt_dec (Rabs a) 1 then Fin 0
          else if Req_dec_T (Rabs a) 1 then Fin 1 else PInf
      | _ => PInf
      end
  | NInf =>
      match x with
      | NaN => NaN
      | Fin a =>
          if Rlt_dec (Rabs a) 1 then PInf
          else if Req_dec_T (Rabs a) 1 then Fin 1 else Fin 0
      | _ => Fin 0
      end
  | NaN =>
      match x with
      | Fin a => if Req_dec_T a 1 then Fin 1 else NaN
      | _ => NaN
      end
  end.

(** [x < y], [x <= y] and [x == y]: false whenever an operand is [nan]. *)
Definition ltb (x y : xr) : bool :=
  match x, y with
  | NaN, _ | _, NaN => false
  | Fin a, Fin b => if Rlt_dec a b then true else false
  | _, NInf => false
  | NInf, _ => true
  | PInf, _ => false
  | _, PInf => true
  end.

Definition leb (x y : xr) : bool :=
  match x, y with
  | NaN, _ | _, NaN => false
  | Fin a, Fin b => if Rle_dec a b then true else false
  | NInf, _ => true
  | _, PInf => true
  | _, _ => false
  end.

Definition eqb (x y : xr) : bool :=
  match x, y with
  | Fin a, Fin b => if Req_dec_T a b then true else false
  | PInf, PInf | NInf, NInf => true
  | _, _ => false
  end.
End Xr.

#[global] Instance xr_arith : Arith xr := {|
  lit q := Fin (Q2R q);
  add := Xr.add;
  sub := Xr.sub;
  mul := Xr.mul;
  div := Xr.div;
  pow := Xr.pow;
  abs := Xr.abs;
  copysign := Xr.copysign;
  ltb := Xr.ltb;
|}.

(** An array without infinity or [nan]. *)
Definition finite_vec (v : list xr) : Prop :=
  Forall (λ x, Xr.is_finite x = true) v.

(** ** The basal drag at one node, as a function of the velocity there

    [scale * usign * mu * As * (Hf * absu)**(1 / m)] for real operands, the
    function of which [J_basal] is meant to be the derivative. *)
Definition basal_drag_at (sc mu_ as_ mm hf : R) (a : R) : R :=
  (sc * (if Rlt_dec a 0 then - 1 else 1) * mu_ * as_
   * Rpower (hf * Rabs a) (1 / mm))%R.

(** ** A grid of two nodes

    A small profile, and an instance of each class on it, on which the
    theorems below are instantiated.  The second node is below flotation. *)

Module Grid2.
Local Open Scope R_scope.

Definition profile : Profile.t xr := {|
  Profile.N := 2;
  Profile.D := [[Fin (-1); Fin 1]; [Fin (-1); Fin 1]];
  Profile.h := [Fin 1000; Fin 1000];
  Profile.alpha := [Fin 0.01; Fin 0.01];
  Profile.depth := [Fin 700; Fin 1000];
  Profile.rho_ice := Fin 917;
  Profile.rho_water := Fin 1000;
|}.

(** [IceStream(profile, 0.0, 1.0, B2=6.0e2, n=3, m=1)] on an empty heap. *)
Definition ice : IceStream.t xr :=
  (IceStream.__init__ profile (Fin 0) (Fin 1) (Fin 600) (Fin 3) (Fin 1) []).1.
Definition ice_heap : heap xr :=
  (IceStream.__init__ profile (Fin 0) (Fin 1) (Fin 600) (Fin 3) (Fin 1) []).2.

(** [LateralIceStream(profile, 0.0, 1.0, W=3000.0, As=100.0, mu=1.0, n=3,
    m=3)] on an empty heap. *)
Definition lateral : LateralIceStream.t xr :=
  (LateralIceStream.__init__ profile (Fin 0) (Fin 1) (Fin 3000) (Fin 100) (Fin 1)
     (Fin 3) (Fin 3) []).1.
Definition lateral_heap : heap xr :=
  (LateralIceStream.__init__ profile (Fin 0) (Fin 1) (Fin 3000) (Fin 100) (Fin 1)
     (Fin 3) (Fin 3) []).2.

Definition u : list xr := [Fin 1; Fin 2].
Definition u' : list xr := [Fin 0; Fin (-1)].
Definition scale : xr := Fin 0.01.
End Grid2.

(** ** The grid of three nodes of the specification's scenario

    Centred differences inside, one-sided at the ends; [h = 1000],
    [alpha = 0.01], [A = 1e-16], [n = 3], [B2 = 600], [fs = 0], at rest. *)

Module Grid3.
Local Open Scope R_scope.

Definition profile : Profile.t xr := {|
  Profile.N := 3;
  Profile.D := [[Fin (-1); Fin 1; Fin 0];
                [Fin (-0.5); Fin 0; Fin 0.5];
                [Fin 0; Fin (-1); Fin 1]];
  Profile.h := [Fin 1000; Fin 1000; Fin 1000];
  Profile.alpha := [Fin 0.01; Fin 0.01; Fin 0.01];
  Profile.depth := [Fin 0; Fin 0; Fin 0];
  Profile.rho_ice := Fin 917;
  Profile.rho_water := Fin 1000;
|}.

Definition ice : IceStream.t xr :=
  (IceStream.__init__ profile (Fin 0) (Fin 0.0000000000000001) (Fin 600) (Fin 3)
     (Fin 1) []).1.
Definition ice_heap : heap xr :=
  (IceStream.__init__ profile (Fin 0) (Fin 0.0000000000000001) (Fin 600) (Fin 3)
     (Fin 1) []).2.

Definition u : list xr := [Fin 0; Fin 0; Fin 0].
End Grid3.

(** ** Shapes, the docstring of [gradient_product], the lateral drag at
    one node

    Definitions the properties of the second part are stated with. *)

(** A grid whose differentiation matrix is square: every row of [D] has
    [N] entries, as [np.dot(D, u)] requires of a vector [u] of length
    [N]. *)
Definition square_grid {T} (p : Profile.t T) : Prop :=
  Forall (λ r, length r = Profile.N p) (Profile.D p).

Section docstring.
Context {T : Type} `{Arith T}.
Local Open Scope arith_scope.

(** [np.ones(k)] and [np.outer(a, b)]. *)
Definition np_ones (k : nat) : list T := replicate k (lit 1).
Definition np_outer (a b : list T) : list (list T) :=
  (λ x, (λ y, x * y) <$> b) <$> a.

(** Lines 119-125, the docstring of [gradient_product]: the product
    [(I .* outer(b, 1s)) * A], with [.*] the entrywise and [*] the matrix
    product; to be compared with [gradient_product]. *)
Definition gradient_product_doc (b : list T) (A : list (list T)) : list (list T) :=
  np_dot2 (mm mul (np_eye (length b)) (np_outer b (np_ones (length b)))) A.
End docstring.

(** Line 198, [scale * 2 * usign * h / W * (5 * absu / (A * W))**(1 / n)]
    for real operands: the lateral drag at one node as a function of the
    velocity there, of which [J_lateral] is meant to be the derivative. *)
Definition lateral_drag_at (sc h w a_ nn : R) (a : R) : R :=
  (sc * 2 * (if Rlt_dec a 0 then - 1 else 1) * h / w
   * Rpower (5 * Rabs a / (a_ * w)) (1 / nn))%R.

(** ** The grid of two nodes with other parameters *)

Module Retuned.
Local Open Scope R_scope.

(** [Grid2.ice] after [self.m = 3.0; self.rho_water = 1025.0]. *)
Definition ice_m : IceStream.t xr :=
  {| IceStream.profile := IceStream.profile Grid2.ice;
     IceStream.A := IceStream.A Grid2.ice; IceStream.g := IceStream.g Grid2.ice;
     IceStream.B2 := IceStream.B2 Grid2.ice; IceStream.n := IceStream.n Grid2.ice;
     IceStream.m := Fin 3;
     IceStream.rho_ice := IceStream.rho_ice Grid2.ice;
     IceStream.rho_water := Fin 1025;
     IceStream.boundary_value_scale := IceStream.boundary_value_scale Grid2.ice;
     IceStream.nu_eps := IceStream.nu_eps Grid2.ice;
     IceStream.fs := IceStream.fs Grid2.ice;
     IceStream.K := IceStream.K Grid2.ice; IceStream.F := IceStream.F Grid2.ice;
     IceStream.J := IceStream.J Grid2.ice |}.

(** [Grid2.ice] after [self.A = 2.0; self.g = 1.62; self.m = 3.0;
    self.fs = 5.0]. *)
Definition ice_A : IceStream.t xr :=
  {| IceStream.profile := IceStream.profile Grid2.ice;
     IceStream.A := Fin 2; IceStream.g := Fin 1.62;
     IceStream.B2 := IceStream.B2 Grid2.ice; IceStream.n := IceStream.n Grid2.ice;
     IceStream.m := Fin 3;
     IceStream.rho_ice := IceStream.rho_ice Grid2.ice;
     IceStream.rho_water := IceStream.rho_water Grid2.ice;
     IceStream.boundary_value_scale := IceStream.boundary_value_scale Grid2.ice;
     IceStream.nu_eps := IceStream.nu_eps Grid2.ice;
     IceStream.fs := Fin 5;
     IceStream.K := IceStream.K Grid2.ice; IceStream.F := IceStream.F Grid2.ice;
     IceStream.J := IceStream.J Grid2.ice |}.

(** [Grid2.lateral] after [self.rho_water = 1025.0; self.drag_eps = 1.0]. *)
Definition lateral_rho : LateralIceStream.t xr :=
  {| LateralIceStream.profile := LateralIceStream.profile Grid2.lateral;
     LateralIceStream.W := LateralIceStream.W Grid2.lateral;
     LateralIceStream.A := LateralIceStream.A Grid2.lateral;
     LateralIceStream.g := LateralIceStream.g Grid2.lateral;
     LateralIceStream.As := LateralIceStream.As Grid2.lateral;
     LateralIceStream.mu := LateralIceStream.mu Grid2.lateral;
     LateralIceStream.n := LateralIceStream.n Grid2.lateral;
     LateralIceStream.m := LateralIceStream.m Grid2.lateral;
     LateralIceStream.rho_ice := LateralIceStream.rho_ice Grid2.lateral;
     LateralIceStream.rho_water := Fin 1025;
     LateralIceStream.boundary_value_scale :=
       LateralIceStream.boundary_value_scale Grid2.lateral;
     LateralIceStream.nu_eps := LateralIceStream.nu_eps Grid2.lateral;
     LateralIceStream.drag_eps := Fin 1;
     LateralIceStream.fs := LateralIceStream.fs Grid2.lateral;
     LateralIceStream.Hf := LateralIceStream.Hf Grid2.lateral;
     LateralIceStream.K := LateralIceStream.K Grid2.lateral;
     LateralIceStream.F := LateralIceStream.F Grid2.lateral;
     LateralIceStream.J := LateralIceStream.J Grid2.lateral |}.

(** [Grid2.lateral] after [self.g = 1.62; self.fs = 5.0]. *)
Definition lateral_g : LateralIceStream.t xr :=
  {| LateralIceStream.profile := LateralIceStream.profile Grid2.lateral;
     LateralIceStream.W := LateralIceStream.W Grid2.lateral;
     LateralIceStream.A := LateralIceStream.A Grid2.lateral;
     LateralIceStream.g := Fin 1.62;
     LateralIceStream.As := LateralIceStream.As Grid2.lateral;
     LateralIceStream.mu := LateralIceStream.mu Grid2.lateral;
     LateralIceStream.n := LateralIceStream.n Grid2.lateral;
     LateralIceStream.m := LateralIceStream.m Grid2.lateral;
     LateralIceStream.rho_ice := LateralIceStream.rho_ice Grid2.lateral;
     LateralIceStream.rho_water := LateralIceStream.rho_water Grid2.lateral;
     LateralIceStream.boundary_value_scale :=
       LateralIceStream.boundary_value_scale Grid2.lateral;
     LateralIceStream.nu_eps := LateralIceStream.nu_eps Grid2.lateral;
     LateralIceStream.drag_eps := LateralIceStream.drag_eps Grid2.lateral;
     LateralIceStream.fs := Fin 5;
     LateralIceStream.Hf := LateralIceStream.Hf Grid2.lateral;
     LateralIceStream.K := LateralIceStream.K Grid2.lateral;
     LateralIceStream.F := LateralIceStream.F Grid2.lateral;
     LateralIceStream.J := LateralIceStream.J Grid2.lateral |}.

(** [LateralIceStream(profile, 0.0, 1.0, W=3000.0, As=100.0, mu=1.0, n=3,
    m=1)]: linear sliding. *)
Definition lateral_linear : LateralIceStream.t xr :=
  (LateralIceStream.__init__ Grid2.profile (Fin 0) (Fin 1) (Fin 3000) (Fin 100)
     (Fin 1) (Fin 3) (Fin 1) []).1.

(** The velocity at rest on the grid. *)
Definition at_rest : list xr := [Fin 0; Fin 0].

(** A library that evaluates the function at the point and at the point
    moved by the step in every coordinate, and returns the quotient of the
    differences as a matrix of one row; it raises when an evaluation
    raised. *)
Definition forward_difference (step : xr) (u : list xr) : nd_run xr :=
  Nd_call u (λ f0,
    Nd_call (vs add u step) (λ f1,
      Nd_return (match f0, f1 with
                 | Some a, Some b => Some [vs div (vv sub b a) step]
                 | _, _ => None
                 end))).
End Retuned.

(** ** Binary64 arithmetic

    The arithmetic numpy computes in: IEEE-754 binary64 with rounding to
    nearest, ties to even, as the primitive floats provide it.  Sums,
    differences, products, quotients, [abs] and [<] are the operations of
    the standard.  A literal of the source is the quotient of its
    numerator by its denominator, which is the double nearest to the
    decimal as long as both are below [2^53].  [copysign] reads the sign
    of its second operand, the sign of a zero included; the sign of a
    [nan] is not represented and counts as positive.

    [**] is modelled where the standard fixes its value, whatever the
    library that computes it: [x ** 0 = 1], [1 ** y = 1], and
    [0 ** y = 0] for [0 < y < 1].  Elsewhere the value depends on the
    library's rounding and is not modelled: [pow] answers [nan] there, and
    every operation of this arithmetic propagates [nan], so a result that
    is not [nan] has not gone through that case. *)
Module B64.
Import PrimFloat.
Local Open Scope float_scope.

(** An integer as a float, digit by digit: exact below [2^53]. *)
Fixpoint of_pos (p : positive) : float :=
  match p with
  | xH => 1
  | xO p => 2 * of_pos p
  | xI p => 2 * of_pos p + 1
  end.

Definition of_Z (z : Z) : float :=
  match z with
  | Z0 => 0
  | Zpos p => of_pos p
  | Zneg p => - of_pos p
  end.

Definition lit (q : Q) : float := of_Z (Qnum q) / of_Z (Zpos (Qden q)).

Definition copysign (x s : float) : float :=
  if get_sign s then - abs x else abs x.

Definition pow (x y : float) : float :=
  if y =? 0 then 1
  else if x =? 1 then 1
  else if (x =? 0) && (0 <? y) && (y <? 1) then 0
  else nan.

(** The smallest positive number of the format, [5e-324]. *)
Definition min_subnormal : float := 0x1p-1074.
End B64.

#[global] Instance b64_arith : Arith PrimFloat.float := {|
  lit := B64.lit;
  add := PrimFloat.add;
  sub := PrimFloat.sub;
  mul := PrimFloat.mul;
  div := PrimFloat.div;
  pow := B64.pow;
  abs := PrimFloat.abs;
  copysign := B64.copysign;
  ltb := PrimFloat.ltb;
|}.

(** ** A grid of one node, in binary64

    One node, so that [np.dot] adds nothing up and the order of its
    summation plays no part.  The velocity and the parameters are such that
    every power is a power of one: [Du = 2 * 0.5], [Hf * |u| = 2 * 0.5] and
    [5 * |u| / (A * W) = 2.5 / 2.5]. *)
Module Grid1.
Import PrimFloat.
Local Open Scope float_scope.

Definition profile : Profile.t float := {|
  Profile.N := 1;
  Profile.D := [[2]];
  Profile.h := [2];
  Profile.alpha := [B64.lit 0.005];
  Profile.depth := [0];
  Profile.rho_ice := 917;
  Profile.rho_water := 1000;
|}.

(** [LateralIceStream(profile, 0.0, 1.0, W=2.5, As=20.0, mu=1.0, n=3, m=3)]
    on an empty heap. *)
Definition lateral : LateralIceStream.t float :=
  (LateralIceStream.__init__ profile 0 1 2.5 20 1 3 3 []).1.
Definition lateral_heap : heap float :=
  (LateralIceStream.__init__ profile 0 1 2.5 20 1 3 3 []).2.

Definition u : list float := [0.5].
Definition scale : float := B64.lit 0.01.

(** Two neighbours in binary64: [0.7632698041999999] and [0.7632698042]. *)
Definition residual_entry : float := 0x1.86cb4cbe206bep-1.
Definition regrouped_entry : float := 0x1.86cb4cbe206bfp-1.
End Grid1.

(** * Properties *)

(** ** Arrays: lengths and entries *)

Section array_facts.
Context {T : Type} `{Arith T}.
Implicit Types (v w r : list T) (M : list (list T)) (s : T) (op : T → T → T).

Lemma length_sv op s v : length (sv op s v) = length v.
Proof. unfold sv. by rewrite length_fmap. Qed.

Lemma length_vs op v s : length (vs op v s) = length v.
Proof. unfold vs. by rewrite length_fmap. Qed.

Lemma length_vv op v w : length (vv op v w) = length v `min` length w.
Proof. unfold vv. by rewrite length_zip_with. Qed.

Lemma length_np_abs v : length (np_abs v) = length v.
Proof. unfold np_abs. by rewrite length_fmap. Qed.

Lemma length_np_dot M v : length (np_dot M v) = length M.
Proof. unfold np_dot. by rewrite length_fmap. Qed.

Lemma length_np_dot2 M M' : length (np_dot2 M M') = length M.
Proof. unfold np_dot2. by rewrite length_fmap. Qed.

Lemma length_sm op s M : length (sm op s M) = length M.
Proof. unfold sm. by rewrite length_fmap. Qed.

Lemma length_mm op M M' : length (mm op M M') = length M `min` length M'.
Proof. unfold mm. by rewrite length_zip_with. Qed.

Lemma length_np_eye k : length (np_eye (T:=T) k) = k.
Proof. unfold np_eye. by rewrite length_fmap, length_seq. Qed.

Lemma length_diag_sub M v : length (diag_sub M v) = length M.
Proof. unfold diag_sub. by rewrite length_imap. Qed.

Lemma length_usign v : length (LateralIceStream.usign v) = length v.
Proof.
  unfold LateralIceStream.usign, np_copysign, np_ones_like.
  rewrite length_zip_with, length_fmap. lia.
Qed.

Lemma lookup_sv op s v i : sv op s v !! i = op s <$> v !! i.
Proof. unfold sv. by rewrite list_lookup_fmap. Qed.

Lemma lookup_vs op v s i : vs op v s !! i = (λ x, op x s) <$> v !! i.
Proof. unfold vs. by rewrite list_lookup_fmap. Qed.

Lemma lookup_vv op v w i : vv op v w !! i = opt2 op (v !! i) (w !! i).
Proof.
  unfold vv. rewrite lookup_zip_with. by destruct (v !! i), (w !! i).
Qed.

Lemma lookup_np_abs v i : np_abs v !! i = abs <$> v !! i.
Proof. unfold np_abs. by rewrite list_lookup_fmap. Qed.

Lemma lookup_usign v i :
  LateralIceStream.usign v !! i = copysign (lit 1) <$> v !! i.
Proof.
  unfold LateralIceStream.usign, np_copysign, np_ones_like.
  rewrite lookup_zip_with, list_lookup_fmap. by destruct (v !! i).
Qed.

(** The three assignments that fill a buffer of [k + 2] entries. *)
Lemma set_buffer {X} (buf vals : list X) (x y : X) k :
  length vals = k → length buf = (k + 2)%nat →
  set_m1 (set_m2 (set_upto2 buf vals) x) y = vals ++ [x; y].
Proof.
  intros <- Hb. unfold set_m1, set_m2, set_upto2.
  rewrite Hb. replace (length vals + 2 - 2)%nat with (length vals) by lia.
  assert (∃ a b, drop (length vals) buf = [a; b]) as (a & b & ->).
  { assert (length (drop (length vals) buf) = 2%nat) as Hd
      by (rewrite length_drop; lia).
    destruct (drop (length vals) buf) as [|a [|b [|? ?]]]; simplify_eq/=. eauto. }
  rewrite !length_insert, !length_app. simpl.
  replace (length vals + 2 - 2)%nat with (length vals + 0)%nat by lia.
  replace (length vals + 2 - 1)%nat with (length vals + 1)%nat by lia.
  rewrite insert_app_r. simpl. by rewrite insert_app_r.
Qed.

Lemma fill_F_Some (Fbuf interior Du : list T) (bvs fs d0 dN : T) k :
  length interior = k → length Fbuf = (k + 2)%nat →
  Du !! 0%nat = Some d0 → last Du = Some dN →
  fill_F Fbuf interior Du bvs fs
  = Some (interior ++ [mul bvs d0; mul bvs (sub dN fs)]).
Proof.
  intros Hi Hb H0 HN. unfold fill_F.
  rewrite option_guard_True by lia. rewrite option_guard_True by lia.
  simpl. rewrite H0. simpl. rewrite HN. simpl.
  f_equal. by apply set_buffer with k.
Qed.

Lemma fill_J_Some (Jbuf Jp Dm : list (list T)) (bvs : T) (D0 DN : list T) k :
  length Jp = k → length Jbuf = (k + 2)%nat →
  Dm !! 0%nat = Some D0 → last Dm = Some DN →
  fill_J Jbuf Jp Dm bvs = Some (Jp ++ [sv mul bvs D0; sv mul bvs DN]).
Proof.
  intros Hi Hb H0 HN. unfold fill_J.
  rewrite option_guard_True by lia. rewrite option_guard_True by lia.
  simpl. rewrite H0. simpl. rewrite HN. simpl.
  f_equal. by apply set_buffer with k.
Qed.

(** A buffer is filled only when it has two entries more than the
    interior part. *)
Lemma fill_F_length (Fbuf interior Du F' : list T) (bvs fs : T) :
  fill_F Fbuf interior Du bvs fs = Some F' → length F' = length Fbuf.
Proof.
  unfold fill_F. intros Hf. simplify_option_eq.
  unfold set_m1, set_m2, set_upto2.
  rewrite !length_insert, length_app, length_drop. lia.
Qed.

Lemma fill_J_length (Jbuf Jp Dm J' : list (list T)) (bvs : T) :
  fill_J Jbuf Jp Dm bvs = Some J' → length J' = length Jbuf.
Proof.
  unfold fill_J. intros Hf. simplify_option_eq.
  unfold set_m1, set_m2, set_upto2.
  rewrite !length_insert, length_app, length_drop. lia.
Qed.
End array_facts.

Create Rewrite HintDb len.
#[global] Hint Rewrite @length_sv @length_vs @length_vv @length_np_abs @length_np_dot
  @length_np_dot2 @length_sm @length_mm @length_np_eye @length_diag_sub
  @length_usign @length_app @length_fmap : len.

(** Lengths of array expressions, by rewriting. *)
Ltac len := autorewrite with len in *; simpl in *; try lia.

(** ** The heap *)

Section heap_facts.
Context {T : Type}.
Implicit Types (σ : heap T) (x : ndarray T) (l : loc).

Lemma read1_Some l σ v : read1 l σ = Some v ↔ σ !! l = Some (Arr1 v).
Proof.
  unfold read1. destruct (σ !! l) as [[]|]; split; intros; by simplify_eq.
Qed.

Lemma read2_Some l σ M : read2 l σ = Some M ↔ σ !! l = Some (Arr2 M).
Proof.
  unfold read2. destruct (σ !! l) as [[]|]; split; intros; by simplify_eq.
Qed.

Lemma read1_lt l σ v : read1 l σ = Some v → (l < length σ)%nat.
Proof. rewrite read1_Some. apply lookup_lt_Some. Qed.

Lemma read2_lt l σ M : read2 l σ = Some M → (l < length σ)%nat.
Proof. rewrite read2_Some. apply lookup_lt_Some. Qed.

Lemma lookup_store_eq l x σ : (l < length σ)%nat → store l x σ !! l = Some x.
Proof. intros. by apply list_lookup_insert_eq. Qed.

Lemma lookup_store_ne l l' x σ : l ≠ l' → store l' x σ !! l = σ !! l.
Proof. intros. by apply list_lookup_insert_ne. Qed.

Lemma length_store l x σ : length (store l x σ) = length σ.
Proof. apply length_insert. Qed.

End heap_facts.

(** ** IceStream: the methods return, and what they leave in the heap *)

Section icestream_facts.
Context {T : Type} `{Arith T}.
Import IceStream.
Implicit Types (self : IceStream.t T) (σ : heap T) (u : list T) (scale : T).

Lemma IceStream_length_interior self u scale :
  Profile.wf (profile self) → length u = Profile.N (profile self) →
  length (interior self u scale) = Profile.N (profile self).
Proof.
  intros (HN & HD & Hh & Ha & Hd) Hu.
  unfold interior, membrane_stress, driving_stress, drag. len.
Qed.

(** The first and the last entry of [Du] exist on a well-formed profile. *)
Lemma strain_rate_ends (p : Profile.t T) u :
  Profile.wf p →
  ∃ d0 dN, np_dot (Profile.D p) u !! 0%nat = Some d0 ∧
           np_dot (Profile.D p) u !! (Profile.N p - 1)%nat = Some dN ∧
           last (np_dot (Profile.D p) u) = Some dN.
Proof.
  intros (Hpos & HD & _).
  destruct (lookup_lt_is_Some_2 (np_dot (Profile.D p) u) 0) as [d0 H0]; [len|].
  destruct (lookup_lt_is_Some_2 (np_dot (Profile.D p) u) (Profile.N p - 1))
    as [dN HN]; [len|].
  exists d0, dN. split_and!; [done..|].
  rewrite last_lookup, length_np_dot, HD.
  by replace (Nat.pred (Profile.N p)) with (Profile.N p - 1)%nat by lia.
Qed.

Lemma profile_rows (p : Profile.t T) :
  Profile.wf p →
  ∃ D0 DN, Profile.D p !! 0%nat = Some D0 ∧ last (Profile.D p) = Some DN.
Proof.
  intros (Hpos & HD & _).
  destruct (lookup_lt_is_Some_2 (Profile.D p) 0) as [D0 H0]; [lia|].
  destruct (lookup_lt_is_Some_2 (Profile.D p) (Nat.pred (length (Profile.D p))))
    as [DN HN]; [lia|].
  exists D0, DN. by rewrite last_lookup.
Qed.

(** [compute_pde_values] returns: it stores the residual in [self.F] and
    returns a new object with the same entries. *)
Lemma IceStream_pde_values_Some self u scale σ :
  wf self σ → length u = Profile.N (profile self) →
  ∃ d0 dN res,
    np_dot (Profile.D (profile self)) u !! 0%nat = Some d0 ∧
    np_dot (Profile.D (profile self)) u !! (Profile.N (profile self) - 1)%nat = Some dN ∧
    res = interior self u scale
            ++ [mul (boundary_value_scale self) d0;
                mul (boundary_value_scale self) (sub dN (fs self))] ∧
    compute_pde_values self u scale σ
    = Some (length σ, store (F self) (Arr1 res) σ ++ [Arr1 res]).
Proof.
  intros (Hp & _ & (Fv & HF & HlF) & _) Hu.
  destruct (strain_rate_ends (profile self) u Hp) as (d0 & dN & H0 & HN & Hl).
  eexists d0, dN, _. split_and!; [done..|].
  unfold compute_pde_values. rewrite HF. simpl.
  erewrite fill_F_Some; [| by apply IceStream_length_interior | done..].
  simpl. unfold alloc. by rewrite length_store.
Qed.

(** [compute_jacobian] returns: it stores the matrix in [self.J] and
    returns [self.J]. *)
Lemma IceStream_jacobian_Some self u scale σ :
  wf self σ → length u = Profile.N (profile self) →
  ∃ Kv D0 DN,
    read2 (K self) σ = Some Kv ∧
    Profile.D (profile self) !! 0%nat = Some D0 ∧
    last (Profile.D (profile self)) = Some DN ∧
    compute_jacobian self u scale σ
    = Some (J self, store (J self) (Arr2 (jacobian self Kv u scale D0 DN)) σ).
Proof.
  intros (Hp & (Kv & HK & HlK) & _ & (Jv & HJ & HlJ) & _) Hu.
  destruct (profile_rows (profile self) Hp) as (D0 & DN & H0 & HN).
  exists Kv, D0, DN. split_and!; [done..|].
  unfold compute_jacobian. rewrite HK, HJ. simpl.
  erewrite fill_J_Some; [done| |done..].
  unfold membrane_jacobian, J_drag. len.
Qed.
End icestream_facts.

Section icestream_frame.
Context {T : Type} `{Arith T}.
Import IceStream.
Implicit Types (self : IceStream.t T) (σ : heap T) (u : list T) (scale : T).

(** Whenever [compute_pde_values] returns, the object it returns is new
    and [self.F] is the only old object it has written. *)
Lemma IceStream_pde_values_inv self u scale σ r σ' :
  compute_pde_values self u scale σ = Some (r, σ') →
  ∃ Fv res, read1 (F self) σ = Some Fv ∧ length res = length Fv ∧
            r = length σ ∧ σ' = store (F self) (Arr1 res) σ ++ [Arr1 res].
Proof.
  unfold compute_pde_values. intros Hc.
  destruct (read1 (F self) σ) as [Fv|] eqn:HF; simplify_eq/=.
  destruct (fill_F _ _ _ _ _) as [res|] eqn:Hfill; simplify_eq/=.
  unfold alloc in Hc. simplify_eq.
  exists Fv, res. split_and!; try done.
  - by eapply fill_F_length.
  - by rewrite length_store.
Qed.

(** Whenever [compute_jacobian] returns, it returns [self.J], the only
    object it has written. *)
Lemma IceStream_jacobian_inv self u scale σ r σ' :
  compute_jacobian self u scale σ = Some (r, σ') →
  ∃ Jv J', read2 (J self) σ = Some Jv ∧ length J' = length Jv ∧
           r = J self ∧ σ' = store (J self) (Arr2 J') σ.
Proof.
  unfold compute_jacobian. intros Hc.
  destruct (read2 (K self) σ) as [Kv|] eqn:HK; simplify_eq/=.
  destruct (read2 (J self) σ) as [Jv|] eqn:HJ; simplify_eq/=.
  destruct (fill_J _ _ _ _) as [J'|] eqn:Hfill; simplify_eq/=.
  exists Jv, J'. split_and!; try done. by eapply fill_J_length.
Qed.

(** One call keeps the instance well formed, keeps every object it does
    not own, and only adds objects. *)
Lemma IceStream_exec_frame self σ c :
  wf self σ →
  wf self (exec self σ c) ∧ (length σ ≤ length (exec self σ c))%nat ∧
  ∀ l, (l < length σ)%nat → l ≠ F self → l ≠ J self → exec self σ c !! l = σ !! l.
Proof.
  intros Hwf. pose proof Hwf as (Hp & (Kv & HK & HlK) & (Fv & HF & HlF) & (Jv & HJ & HlJ) & HKJ).
  destruct c as [u scale|u scale]; simpl.
  - destruct (compute_pde_values self u scale σ) as [[r σ']|] eqn:Hc; [|by auto].
    apply IceStream_pde_values_inv in Hc as (Fv' & res & HF' & Hres & -> & ->).
    assert (Fv' = Fv) as -> by congruence.
    pose proof (read1_lt _ _ _ HF) as HFlt.
    pose proof (read2_lt _ _ _ HK) as HKlt. pose proof (read2_lt _ _ _ HJ) as HJlt.
    assert (K self ≠ F self) as HKF.
    { intros E. rewrite E in HK. apply read2_Some in HK. apply read1_Some in HF. congruence. }
    assert (J self ≠ F self) as HJF.
    { intros E. rewrite E in HJ. apply read2_Some in HJ. apply read1_Some in HF. congruence. }
    split_and!.
    + split_and!; [done| | | |done].
      * exists Kv. split; [|done]. apply read2_Some.
        rewrite lookup_app_l by (rewrite length_store; lia).
        rewrite lookup_store_ne by done. by apply read2_Some.
      * exists res. split; [|lia]. apply read1_Some.
        rewrite lookup_app_l by (rewrite length_store; lia).
        by rewrite lookup_store_eq.
      * exists Jv. split; [|done]. apply read2_Some.
        rewrite lookup_app_l by (rewrite length_store; lia).
        rewrite lookup_store_ne by done. by apply read2_Some.
    + rewrite length_app, length_store. lia.
    + intros l Hl HlF' HlJ'.
      rewrite lookup_app_l by (rewrite length_store; lia).
      by rewrite lookup_store_ne.
  - destruct (compute_jacobian self u scale σ) as [[r σ']|] eqn:Hc; [|by auto].
    apply IceStream_jacobian_inv in Hc as (Jv' & J' & HJ' & HJl & -> & ->).
    assert (Jv' = Jv) as -> by congruence.
    pose proof (read2_lt _ _ _ HJ) as HJlt.
    assert (F self ≠ J self) as HFJ.
    { intros E. rewrite E in HF. apply read2_Some in HJ. apply read1_Some in HF. congruence. }
    split_and!.
    + split_and!; [done| | | |done].
      * exists Kv. split; [|done]. apply read2_Some.
        rewrite lookup_store_ne by done. by apply read2_Some.
      * exists Fv. split; [|done]. apply read1_Some.
        rewrite lookup_store_ne by done. by apply read1_Some.
      * exists J'. split; [|lia]. apply read2_Some. by rewrite lookup_store_eq.
    + by rewrite length_store.
    + intros l Hl HlF' HlJ'. by rewrite lookup_store_ne.
Qed.

(** Any sequence of calls does. *)
Lemma IceStream_run_frame self cs σ :
  wf self σ →
  wf self (run self cs σ) ∧ (length σ ≤ length (run self cs σ))%nat ∧
  ∀ l, (l < length σ)%nat → l ≠ F self → l ≠ J self → run self cs σ !! l = σ !! l.
Proof.
  revert σ. induction cs as [|c cs IH]; intros σ Hwf; simpl.
  - by auto.
  - destruct (IceStream_exec_frame self σ c Hwf) as (Hwf' & Hlen & Hfr).
    destruct (IH _ Hwf') as (Hwf'' & Hlen' & Hfr').
    split_and!; [done|unfold run in *; lia|].
    intros l Hl HlF HlJ. unfold run in *. rewrite Hfr' by (done || lia). by apply Hfr.
Qed.
End icestream_frame.

(** ** LateralIceStream: the methods return, and what they leave in the heap *)

Section lateral_facts.
Context {T : Type} `{Arith T}.
Import LateralIceStream.
Implicit Types (self : LateralIceStream.t T) (σ : heap T) (u Hfv : list T) (scale : T).

Lemma Lateral_length_interior self Hfv u scale :
  Profile.wf (profile self) → length u = Profile.N (profile self) →
  length Hfv = Profile.N (profile self) →
  length (interior self Hfv u scale) = Profile.N (profile self).
Proof.
  intros (HN & HD & Hh & Ha & Hd) Hu HHf.
  unfold interior, membrane, Td, membrane_stress, driving_stress,
    basal_drag, lateral_drag. len.
Qed.

Lemma Lateral_length_Jpde self Kv Hfv u scale :
  length (Jpde self Kv Hfv u scale) = length Kv.
Proof. unfold Jpde, membrane_jacobian. len. Qed.

(** With [return_components] set, the call returns the dictionary and
    leaves the heap as it is. *)
Lemma Lateral_components_Some self u scale σ Hfv :
  read1 (Hf self) σ = Some Hfv →
  compute_pde_values self u scale true σ
  = Some (Components (cdict (membrane self u scale) (basal_drag self Hfv u scale)
                            (lateral_drag self u scale) (Td self scale)), σ).
Proof. intros HHf. unfold compute_pde_values. by rewrite HHf. Qed.

(** Otherwise it stores the residual in [self.F] and returns a new object
    with the same entries. *)
Lemma Lateral_pde_values_Some self u scale σ :
  wf self σ → length u = Profile.N (profile self) →
  ∃ Hfv d0 dN res,
    read1 (Hf self) σ = Some Hfv ∧
    np_dot (Profile.D (profile self)) u !! 0%nat = Some d0 ∧
    np_dot (Profile.D (profile self)) u !! (Profile.N (profile self) - 1)%nat = Some dN ∧
    res = interior self Hfv u scale
            ++ [mul (boundary_value_scale self) d0;
                mul (boundary_value_scale self) (sub dN (fs self))] ∧
    compute_pde_values self u scale false σ
    = Some (Residual (length σ), store (F self) (Arr1 res) σ ++ [Arr1 res]).
Proof.
  intros (Hp & (Hfv & HHf & HlHf) & _ & (Fv & HF & HlF) & _) Hu.
  destruct (strain_rate_ends (profile self) u Hp) as (d0 & dN & H0 & HN & Hl).
  eexists Hfv, d0, dN, _. split_and!; [done..|].
  unfold compute_pde_values. rewrite HHf, HF. simpl.
  erewrite fill_F_Some; [| by apply Lateral_length_interior | done..].
  simpl. unfold alloc. by rewrite length_store.
Qed.

(** [compute_jacobian] returns: it stores the matrix in [self.J] and
    returns [self.J]. *)
Lemma Lateral_jacobian_Some self u scale σ :
  wf self σ → length u = Profile.N (profile self) →
  ∃ Kv Hfv D0 DN,
    read2 (K self) σ = Some Kv ∧ read1 (Hf self) σ = Some Hfv ∧
    Profile.D (profile self) !! 0%nat = Some D0 ∧
    last (Profile.D (profile self)) = Some DN ∧
    compute_jacobian self u scale σ
    = Some (J self, store (J self) (Arr2 (jacobian self Kv Hfv u scale D0 DN)) σ).
Proof.
  intros (Hp & (Hfv & HHf & HlHf) & (Kv & HK & HlK) & _ & (Jv & HJ & HlJ) & _) Hu.
  destruct (profile_rows (profile self) Hp) as (D0 & DN & H0 & HN).
  exists Kv, Hfv, D0, DN. split_and!; [done..|].
  unfold compute_jacobian. rewrite HK, HHf, HJ. simpl.
  erewrite fill_J_Some; [done| |done..].
  rewrite Lateral_length_Jpde. lia.
Qed.

(** Whenever [compute_pde_values] returns the residual, the object it
    returns is new and [self.F] is the only old object it has written;
    when it returns the components, it has written nothing. *)
Lemma Lateral_pde_values_inv self u scale rc σ out σ' :
  compute_pde_values self u scale rc σ = Some (out, σ') →
  (∃ c, out = Components c ∧ σ' = σ) ∨
  (∃ Fv res, read1 (F self) σ = Some Fv ∧ length res = length Fv ∧
             out = Residual (length σ) ∧
             σ' = store (F self) (Arr1 res) σ ++ [Arr1 res]).
Proof.
  unfold compute_pde_values. intros Hc.
  destruct (read1 (Hf self) σ) as [Hfv|] eqn:HHf; simplify_eq/=.
  destruct rc; simplify_eq/=; [by eauto|]. right.
  destruct (read1 (F self) σ) as [Fv|] eqn:HF; simplify_eq/=.
  destruct (fill_F _ _ _ _ _) as [res|] eqn:Hfill; simplify_eq/=.
  exists Fv, res. split_and!; try done.
  - by eapply fill_F_length.
  - by rewrite length_store.
Qed.

Lemma Lateral_jacobian_inv self u scale σ r σ' :
  compute_jacobian self u scale σ = Some (r, σ') →
  ∃ Jv J', read2 (J self) σ = Some Jv ∧ length J' = length Jv ∧
           r = J self ∧ σ' = store (J self) (Arr2 J') σ.
Proof.
  unfold compute_jacobian. intros Hc.
  destruct (read2 (K self) σ) as [Kv|] eqn:HK; simplify_eq/=.
  destruct (read1 (Hf self) σ) as [Hfv|] eqn:HHf; simplify_eq/=.
  destruct (read2 (J self) σ) as [Jv|] eqn:HJ; simplify_eq/=.
  destruct (fill_J _ _ _ _) as [J'|] eqn:Hfill; simplify_eq/=.
  exists Jv, J'. split_and!; try done. by eapply fill_J_length.
Qed.
End lateral_facts.

Section lateral_frame.
Context {T : Type} `{Arith T}.
Import LateralIceStream.
Implicit Types (self : LateralIceStream.t T) (σ : heap T) (u Hfv : list T) (scale : T).

(** An array of one dimension and a matrix are different objects. *)
Lemma read1_read2_ne σ l l' v (M : list (list T)) :
  read1 l σ = Some v → read2 l' σ = Some M → l ≠ l'.
Proof.
  intros H1 H2 E. rewrite E in H1.
  apply read1_Some in H1. apply read2_Some in H2. congruence.
Qed.

(** One call keeps the instance well formed, keeps every object it does
    not own, and only adds objects. *)
Lemma Lateral_exec_frame self σ c :
  wf self σ →
  wf self (exec self σ c) ∧ (length σ ≤ length (exec self σ c))%nat ∧
  ∀ l, (l < length σ)%nat → l ≠ F self → l ≠ J self → exec self σ c !! l = σ !! l.
Proof.
  intros Hwf.
  pose proof Hwf as (Hp & (Hfv & HHf & HlHf) & (Kv & HK & HlK) & (Fv & HF & HlF)
                     & (Jv & HJ & HlJ) & HHfF & HKJ).
  pose proof (read1_lt _ _ _ HF) as HFlt. pose proof (read1_lt _ _ _ HHf) as HHflt.
  pose proof (read2_lt _ _ _ HK) as HKlt. pose proof (read2_lt _ _ _ HJ) as HJlt.
  pose proof (read1_read2_ne _ _ _ _ _ HF HK) as HFK.
  pose proof (read1_read2_ne _ _ _ _ _ HF HJ) as HFJ.
  pose proof (read1_read2_ne _ _ _ _ _ HHf HJ) as HHfJ.
  destruct c as [u scale rc|u scale]; simpl.
  - destruct (compute_pde_values self u scale rc σ) as [[r σ']|] eqn:Hc; [|by auto].
    apply Lateral_pde_values_inv in Hc
      as [(c & -> & ->)|(Fv' & res & HF' & Hres & -> & ->)]; [by auto|].
    assert (Fv' = Fv) as -> by congruence.
    split_and!.
    + split_and!; [done| | | | |done..].
      * exists Hfv. split; [|done]. apply read1_Some.
        rewrite lookup_app_l by (rewrite length_store; lia).
        rewrite lookup_store_ne by done. by apply read1_Some.
      * exists Kv. split; [|done]. apply read2_Some.
        rewrite lookup_app_l by (rewrite length_store; lia).
        rewrite lookup_store_ne by done. by apply read2_Some.
      * exists res. split; [|lia]. apply read1_Some.
        rewrite lookup_app_l by (rewrite length_store; lia).
        by rewrite lookup_store_eq.
      * exists Jv. split; [|done]. apply read2_Some.
        rewrite lookup_app_l by (rewrite length_store; lia).
        rewrite lookup_store_ne by done. by apply read2_Some.
    + rewrite length_app, length_store. lia.
    + intros l Hl HlF' HlJ'.
      rewrite lookup_app_l by (rewrite length_store; lia).
      by rewrite lookup_store_ne.
  - destruct (compute_jacobian self u scale σ) as [[r σ']|] eqn:Hc; [|by auto].
    apply Lateral_jacobian_inv in Hc as (Jv' & J' & HJ' & HJl & -> & ->).
    assert (Jv' = Jv) as -> by congruence.
    split_and!.
    + split_and!; [done| | | | |done..].
      * exists Hfv. split; [|done]. apply read1_Some.
        rewrite lookup_store_ne by done. by apply read1_Some.
      * exists Kv. split; [|done]. apply read2_Some.
        rewrite lookup_store_ne by done. by apply read2_Some.
      * exists Fv. split; [|done]. apply read1_Some.
        rewrite lookup_store_ne by done. by apply read1_Some.
      * exists J'. split; [|lia]. apply read2_Some. by rewrite lookup_store_eq.
    + by rewrite length_store.
    + intros l Hl HlF' HlJ'. by rewrite lookup_store_ne.
Qed.

(** Any sequence of calls does. *)
Lemma Lateral_run_frame self cs σ :
  wf self σ →
  wf self (run self cs σ) ∧ (length σ ≤ length (run self cs σ))%nat ∧
  ∀ l, (l < length σ)%nat → l ≠ F self → l ≠ J self → run self cs σ !! l = σ !! l.
Proof.
  revert σ. induction cs as [|c cs IH]; intros σ Hwf; simpl.
  - by auto.
  - destruct (Lateral_exec_frame self σ c Hwf) as (Hwf' & Hlen & Hfr).
    destruct (IH _ Hwf') as (Hwf'' & Hlen' & Hfr').
    split_and!; [done|unfold run in *; lia|].
    intros l Hl HlF HlJ. unfold run in *. rewrite Hfr' by (done || lia). by apply Hfr.
Qed.

(** [__init__] leaves a well-formed instance. *)
Lemma Lateral_init_wf (p : Profile.t T) cf A W As mu n m σ :
  Profile.wf p → wf (__init__ p cf A W As mu n m σ).1 (__init__ p cf A W As mu n m σ).2.
Proof.
  intros Hp. pose proof Hp as (HN & HD & Hh & Ha & Hd).
  unfold __init__, alloc, wf; simpl. split_and!; [done| | | | |len..].
  - eexists. split.
    + apply read1_Some. rewrite !lookup_app_l by len.
      rewrite lookup_app_r by lia. by rewrite Nat.sub_diag.
    + unfold floor_flotation, raw_flotation. len.
  - eexists. split.
    + apply read2_Some. rewrite !lookup_app_l by len.
      rewrite lookup_app_r by len. replace (_ - _)%nat with 0%nat by len. done.
    + unfold stress_constant, ms. len.
  - eexists. split.
    + apply read1_Some. rewrite !lookup_app_l by len.
      rewrite lookup_app_r by len. replace (_ - _)%nat with 0%nat by len. done.
    + unfold np_zeros. by rewrite length_replicate.
  - eexists. split.
    + apply read2_Some.
      rewrite lookup_app_r by len. replace (_ - _)%nat with 0%nat by len. done.
    + unfold np_zeros2. by rewrite length_replicate.
Qed.
End lateral_frame.

Section icestream_init.
Context {T : Type} `{Arith T}.
Import IceStream.

(** [__init__] leaves a well-formed instance. *)
Lemma IceStream_init_wf (p : Profile.t T) cf A B2 n m σ :
  Profile.wf p → wf (__init__ p cf A B2 n m σ).1 (__init__ p cf A B2 n m σ).2.
Proof.
  intros Hp. pose proof Hp as (HN & HD & Hh & Ha & Hd).
  unfold __init__, alloc, wf; simpl. split_and!; [done| | | |len].
  - eexists. split.
    + apply read2_Some. rewrite !lookup_app_l by len.
      rewrite lookup_app_r by lia. by rewrite Nat.sub_diag.
    + unfold stress_constant, ms. len.
  - eexists. split.
    + apply read1_Some. rewrite !lookup_app_l by len.
      rewrite lookup_app_r by len. replace (_ - _)%nat with 0%nat by len. done.
    + unfold np_zeros. by rewrite length_replicate.
  - eexists. split.
    + apply read2_Some.
      rewrite lookup_app_r by len. replace (_ - _)%nat with 0%nat by len. done.
    + unfold np_zeros2. by rewrite length_replicate.
Qed.
End icestream_init.

(** ** The boundary entries of the residual *)

(** C3. For both models and every velocity vector [u] of length [N], the
    residual call returns, and the vector it returns has [N + 2] entries and
    holds
    [boundary_value_scale * (D.u)[0]] at index [N] and
    [boundary_value_scale * ((D.u)[N-1] - fs)] at index [N+1].  This holds
    in every arithmetic. *)
Theorem residual_boundary_entries {T : Type} `{Arith T} :
  (∀ (self : IceStream.t T) (u : list T) (scale : T) (σ : heap T),
     IceStream.wf self σ →
     length u = Profile.N (IceStream.profile self) →
     ∃ r σ' res d0 dN,
       IceStream.compute_pde_values self u scale σ = Some (r, σ') ∧
       read1 r σ' = Some res ∧
       length res = (Profile.N (IceStream.profile self) + 2)%nat ∧
       np_dot (Profile.D (IceStream.profile self)) u !! 0%nat = Some d0 ∧
       np_dot (Profile.D (IceStream.profile self)) u
         !! (Profile.N (IceStream.profile self) - 1)%nat = Some dN ∧
       res !! Profile.N (IceStream.profile self)
         = Some (mul (IceStream.boundary_value_scale self) d0) ∧
       res !! (Profile.N (IceStream.profile self) + 1)%nat
         = Some (mul (IceStream.boundary_value_scale self) (sub dN (IceStream.fs self))))
  ∧
  (∀ (self : LateralIceStream.t T) (u : list T) (scale : T) (σ : heap T),
     LateralIceStream.wf self σ →
     length u = Profile.N (LateralIceStream.profile self) →
     ∃ r σ' res d0 dN,
       LateralIceStream.compute_pde_values self u scale false σ
         = Some (LateralIceStream.Residual r, σ') ∧
       read1 r σ' = Some res ∧
       length res = (Profile.N (LateralIceStream.profile self) + 2)%nat ∧
       np_dot (Profile.D (LateralIceStream.profile self)) u !! 0%nat = Some d0 ∧
       np_dot (Profile.D (LateralIceStream.profile self)) u
         !! (Profile.N (LateralIceStream.profile self) - 1)%nat = Some dN ∧
       res !! Profile.N (LateralIceStream.profile self)
         = Some (mul (LateralIceStream.boundary_value_scale self) d0) ∧
       res !! (Profile.N (LateralIceStream.profile self) + 1)%nat
         = Some (mul (LateralIceStream.boundary_value_scale self)
                     (sub dN (LateralIceStream.fs self)))).
Proof.
  split.
  - intros self u scale σ Hwf Hu.
    destruct (IceStream_pde_values_Some self u scale σ Hwf Hu)
      as (d0 & dN & res & H0 & HN & -> & Hc).
    destruct Hwf as (Hp & _).
    eexists _, _, _, d0, dN. split_and!; [exact Hc| | |done..| |].
    + apply read1_Some. rewrite lookup_app_r by (rewrite length_store; lia).
      by rewrite length_store, Nat.sub_diag.
    + rewrite length_app, IceStream_length_interior by done. done.
    + rewrite lookup_app_r by (rewrite IceStream_length_interior; done || lia).
      rewrite IceStream_length_interior by done. by rewrite Nat.sub_diag.
    + rewrite lookup_app_r by (rewrite IceStream_length_interior; done || lia).
      rewrite IceStream_length_interior by done.
      by replace (_ + 1 - _)%nat with 1%nat by lia.
  - intros self u scale σ Hwf Hu.
    destruct (Lateral_pde_values_Some self u scale σ Hwf Hu)
      as (Hfv & d0 & dN & res & HHf & H0 & HN & -> & Hc).
    destruct Hwf as (Hp & (Hfv' & HHf' & HlHf) & _).
    assert (Hfv' = Hfv) as -> by congruence.
    eexists _, _, _, d0, dN. split_and!; [exact Hc| | |done..| |].
    + apply read1_Some. rewrite lookup_app_r by (rewrite length_store; lia).
      by rewrite length_store, Nat.sub_diag.
    + rewrite length_app, Lateral_length_interior by done. done.
    + rewrite lookup_app_r by (rewrite Lateral_length_interior; done || lia).
      rewrite Lateral_length_interior by done. by rewrite Nat.sub_diag.
    + rewrite lookup_app_r by (rewrite Lateral_length_interior; done || lia).
      rewrite Lateral_length_interior by done.
      by replace (_ + 1 - _)%nat with 1%nat by lia.
Qed.

(** ** The residual is returned as a copy *)

(** C8. For both models, a residual call returns a new object: it is not
    [self.F] (nor [self.J]), it holds the entries [self.F] holds when the
    call returns, and after any sequence of further calls on the instance
    it still holds them; a later residual call returns yet another
    object.  A call of the confined model with [return_components] returns
    no residual and writes nothing.  This holds in every arithmetic. *)
Theorem residual_is_independent_copy {T : Type} `{Arith T} :
  (∀ (self : IceStream.t T) (u : list T) (scale : T) (σ : heap T),
     IceStream.wf self σ →
     length u = Profile.N (IceStream.profile self) →
     ∃ r σ1 res,
       IceStream.compute_pde_values self u scale σ = Some (r, σ1) ∧
       σ !! r = None ∧ r ≠ IceStream.F self ∧ r ≠ IceStream.J self ∧
       read1 r σ1 = Some res ∧ read1 (IceStream.F self) σ1 = Some res ∧
       ∀ cs, read1 r (IceStream.run self cs σ1) = Some res ∧
         ∀ u' scale' r' σ2,
           IceStream.compute_pde_values self u' scale' (IceStream.run self cs σ1)
             = Some (r', σ2) →
           r' ≠ r ∧ r' ≠ IceStream.F self ∧ read1 r σ2 = Some res)
  ∧
  (∀ (self : LateralIceStream.t T) (u : list T) (scale : T) (σ : heap T),
     LateralIceStream.wf self σ →
     length u = Profile.N (LateralIceStream.profile self) →
     ∃ r σ1 res,
       LateralIceStream.compute_pde_values self u scale false σ
         = Some (LateralIceStream.Residual r, σ1) ∧
       σ !! r = None ∧ r ≠ LateralIceStream.F self ∧ r ≠ LateralIceStream.J self ∧
       read1 r σ1 = Some res ∧ read1 (LateralIceStream.F self) σ1 = Some res ∧
       ∀ cs, read1 r (LateralIceStream.run self cs σ1) = Some res ∧
         ∀ u' scale' rc r' σ2,
           LateralIceStream.compute_pde_values self u' scale' rc
             (LateralIceStream.run self cs σ1)
             = Some (LateralIceStream.Residual r', σ2) →
           r' ≠ r ∧ r' ≠ LateralIceStream.F self ∧ read1 r σ2 = Some res)
  ∧
  (∀ (self : LateralIceStream.t T) (u : list T) (scale : T) (σ σ' : heap T) out,
     LateralIceStream.compute_pde_values self u scale true σ = Some (out, σ') →
     σ' = σ ∧ ∃ c, out = LateralIceStream.Components c).
Proof.
  split_and!.
  - intros self u scale σ Hwf Hu.
    destruct (IceStream_pde_values_Some self u scale σ Hwf Hu)
      as (d0 & dN & res & _ & _ & _ & Hc).
    pose proof (IceStream_exec_frame self σ (IceStream.Call_pde_values u scale) Hwf)
      as (Hwf1 & _ & _).
    simpl in Hwf1. rewrite Hc in Hwf1.
    pose proof Hwf as (_ & _ & (Fv & HF & _) & (Jv & HJ & _) & _).
    pose proof (read1_lt _ _ _ HF) as HFlt. pose proof (read2_lt _ _ _ HJ) as HJlt.
    set (σ1 := store (IceStream.F self) (Arr1 res) σ ++ [Arr1 res]) in *.
    assert (σ1 !! length σ = Some (Arr1 res)) as Hr.
    { unfold σ1. rewrite lookup_app_r by (rewrite length_store; lia).
      by rewrite length_store, Nat.sub_diag. }
    assert (length σ < length σ1)%nat as Hlt.
    { unfold σ1. rewrite length_app, length_store. simpl. lia. }
    exists (length σ), σ1, res. split_and!; [done| |lia|lia| | |].
    + apply lookup_ge_None. lia.
    + by apply read1_Some.
    + apply read1_Some. unfold σ1. rewrite lookup_app_l by (rewrite length_store; lia).
      by rewrite lookup_store_eq.
    + intros cs.
      destruct (IceStream_run_frame self cs σ1 Hwf1) as (Hwf2 & Hlen2 & Hfr2).
      assert (IceStream.run self cs σ1 !! length σ = Some (Arr1 res)) as Hr2.
      { rewrite Hfr2 by lia. done. }
      split; [by apply read1_Some|].
      intros u' scale' r' σ2 Hc2.
      pose proof (IceStream_exec_frame self _ (IceStream.Call_pde_values u' scale') Hwf2)
        as (_ & _ & Hfr3).
      simpl in Hfr3. rewrite Hc2 in Hfr3.
      apply IceStream_pde_values_inv in Hc2 as (Fv' & res' & HF' & _ & -> & _).
      apply read1_lt in HF'.
      split_and!; [lia|lia|]. apply read1_Some. rewrite Hfr3 by lia. done.
  - intros self u scale σ Hwf Hu.
    destruct (Lateral_pde_values_Some self u scale σ Hwf Hu)
      as (Hfv & d0 & dN & res & _ & _ & _ & _ & Hc).
    pose proof (Lateral_exec_frame self σ (LateralIceStream.Call_pde_values u scale false) Hwf)
      as (Hwf1 & _ & _).
    simpl in Hwf1. rewrite Hc in Hwf1.
    pose proof Hwf as (_ & _ & _ & (Fv & HF & _) & (Jv & HJ & _) & _).
    pose proof (read1_lt _ _ _ HF) as HFlt. pose proof (read2_lt _ _ _ HJ) as HJlt.
    set (σ1 := store (LateralIceStream.F self) (Arr1 res) σ ++ [Arr1 res]) in *.
    assert (σ1 !! length σ = Some (Arr1 res)) as Hr.
    { unfold σ1. rewrite lookup_app_r by (rewrite length_store; lia).
      by rewrite length_store, Nat.sub_diag. }
    assert (length σ < length σ1)%nat as Hlt.
    { unfold σ1. rewrite length_app, length_store. simpl. lia. }
    exists (length σ), σ1, res. split_and!; [done| |lia|lia| | |].
    + apply lookup_ge_None. lia.
    + by apply read1_Some.
    + apply read1_Some. unfold σ1. rewrite lookup_app_l by (rewrite length_store; lia).
      by rewrite lookup_store_eq.
    + intros cs.
      destruct (Lateral_run_frame self cs σ1 Hwf1) as (Hwf2 & Hlen2 & Hfr2).
      assert (LateralIceStream.run self cs σ1 !! length σ = Some (Arr1 res)) as Hr2.
      { rewrite Hfr2 by lia. done. }
      split; [by apply read1_Some|].
      intros u' scale' rc r' σ2 Hc2.
      pose proof (Lateral_exec_frame self _
                    (LateralIceStream.Call_pde_values u' scale' rc) Hwf2)
        as (_ & _ & Hfr3).
      simpl in Hfr3. rewrite Hc2 in Hfr3.
      apply Lateral_pde_values_inv in Hc2
        as [(c & ? & _)|(Fv' & res' & HF' & _ & ? & _)]; simplify_eq.
      apply read1_lt in HF'.
      split_and!; [lia|lia|]. apply read1_Some. rewrite Hfr3 by lia. done.
  - intros self u scale σ σ' out Hc. unfold LateralIceStream.compute_pde_values in Hc.
    destruct (read1 (LateralIceStream.Hf self) σ); simplify_eq/=. eauto.
Qed.

(** ** The Jacobian is returned by reference *)

(** C9. For both models, [compute_jacobian] returns [self.J] itself and
    allocates nothing: two successive calls return the same object, and
    after the second call that object holds the matrix of the second call
    in place of the matrix of the first.  This holds in every
    arithmetic. *)
Theorem jacobian_is_returned_by_reference {T : Type} `{Arith T} :
  (∀ (self : IceStream.t T) (u1 u2 : list T) (s1 s2 : T) (σ : heap T),
     IceStream.wf self σ →
     length u1 = Profile.N (IceStream.profile self) →
     length u2 = Profile.N (IceStream.profile self) →
     ∃ Kv D0 DN σ1 σ2,
       read2 (IceStream.K self) σ = Some Kv ∧
       Profile.D (IceStream.profile self) !! 0%nat = Some D0 ∧
       last (Profile.D (IceStream.profile self)) = Some DN ∧
       IceStream.compute_jacobian self u1 s1 σ = Some (IceStream.J self, σ1) ∧
       length σ1 = length σ ∧
       read2 (IceStream.J self) σ1 = Some (IceStream.jacobian self Kv u1 s1 D0 DN) ∧
       IceStream.compute_jacobian self u2 s2 σ1 = Some (IceStream.J self, σ2) ∧
       length σ2 = length σ ∧
       read2 (IceStream.J self) σ2 = Some (IceStream.jacobian self Kv u2 s2 D0 DN))
  ∧
  (∀ (self : LateralIceStream.t T) (u1 u2 : list T) (s1 s2 : T) (σ : heap T),
     LateralIceStream.wf self σ →
     length u1 = Profile.N (LateralIceStream.profile self) →
     length u2 = Profile.N (LateralIceStream.profile self) →
     ∃ Kv Hfv D0 DN σ1 σ2,
       read2 (LateralIceStream.K self) σ = Some Kv ∧
       read1 (LateralIceStream.Hf self) σ = Some Hfv ∧
       Profile.D (LateralIceStream.profile self) !! 0%nat = Some D0 ∧
       last (Profile.D (LateralIceStream.profile self)) = Some DN ∧
       LateralIceStream.compute_jacobian self u1 s1 σ
         = Some (LateralIceStream.J self, σ1) ∧
       length σ1 = length σ ∧
       read2 (LateralIceStream.J self) σ1
         = Some (LateralIceStream.jacobian self Kv Hfv u1 s1 D0 DN) ∧
       LateralIceStream.compute_jacobian self u2 s2 σ1
         = Some (LateralIceStream.J self, σ2) ∧
       length σ2 = length σ ∧
       read2 (LateralIceStream.J self) σ2
         = Some (LateralIceStream.jacobian self Kv Hfv u2 s2 D0 DN)).
Proof.
  split.
  - intros self u1 u2 s1 s2 σ Hwf Hu1 Hu2.
    destruct (IceStream_jacobian_Some self u1 s1 σ Hwf Hu1)
      as (Kv & D0 & DN & HK & H0 & HN & Hc1).
    pose proof (IceStream_exec_frame self σ (IceStream.Call_jacobian u1 s1) Hwf)
      as (Hwf1 & _ & Hfr1).
    simpl in Hwf1, Hfr1. rewrite Hc1 in Hwf1, Hfr1.
    set (σ1 := store (IceStream.J self) _ σ) in *.
    destruct (IceStream_jacobian_Some self u2 s2 σ1 Hwf1 Hu2)
      as (Kv' & D0' & DN' & HK' & H0' & HN' & Hc2).
    pose proof Hwf as (_ & _ & (Fv & HF & _) & (Jv & HJ & _) & HKJ).
    pose proof (read2_lt _ _ _ HJ) as HJlt. pose proof (read2_lt _ _ _ HK) as HKlt.
    pose proof (read1_read2_ne _ _ _ _ _ HF HK) as HFK.
    assert (Kv' = Kv) as ->.
    { apply read2_Some in HK'. rewrite Hfr1 in HK' by (done || lia).
      apply read2_Some in HK. by simplify_eq. }
    assert (D0' = D0) as -> by congruence. assert (DN' = DN) as -> by congruence.
    eexists Kv, D0, DN, σ1, _. split_and!; [done..| | |exact Hc2| |].
    + unfold σ1. by rewrite length_store.
    + apply read2_Some. unfold σ1. by rewrite lookup_store_eq.
    + unfold σ1. by rewrite !length_store.
    + apply read2_Some. rewrite lookup_store_eq; [done|].
      unfold σ1. by rewrite length_store.
  - intros self u1 u2 s1 s2 σ Hwf Hu1 Hu2.
    destruct (Lateral_jacobian_Some self u1 s1 σ Hwf Hu1)
      as (Kv & Hfv & D0 & DN & HK & HHf & H0 & HN & Hc1).
    pose proof (Lateral_exec_frame self σ (LateralIceStream.Call_jacobian u1 s1) Hwf)
      as (Hwf1 & _ & Hfr1).
    simpl in Hwf1, Hfr1. rewrite Hc1 in Hwf1, Hfr1.
    set (σ1 := store (LateralIceStream.J self) _ σ) in *.
    destruct (Lateral_jacobian_Some self u2 s2 σ1 Hwf1 Hu2)
      as (Kv' & Hfv' & D0' & DN' & HK' & HHf' & H0' & HN' & Hc2).
    pose proof Hwf as (_ & _ & _ & (Fv & HF & _) & (Jv & HJ & _) & HHfF & HKJ).
    pose proof (read2_lt _ _ _ HJ) as HJlt. pose proof (read2_lt _ _ _ HK) as HKlt.
    pose proof (read1_lt _ _ _ HHf) as HHflt.
    pose proof (read1_read2_ne _ _ _ _ _ HF HK) as HFK.
    pose proof (read1_read2_ne _ _ _ _ _ HHf HJ) as HHfJ.
    assert (Kv' = Kv) as ->.
    { apply read2_Some in HK'. rewrite Hfr1 in HK' by (done || lia).
      apply read2_Some in HK. by simplify_eq. }
    assert (Hfv' = Hfv) as ->.
    { apply read1_Some in HHf'. rewrite Hfr1 in HHf' by (done || lia).
      apply read1_Some in HHf. by simplify_eq. }
    assert (D0' = D0) as -> by congruence. assert (DN' = DN) as -> by congruence.
    eexists Kv, Hfv, D0, DN, σ1, _. split_and!; [done..| | |exact Hc2| |].
    + unfold σ1. by rewrite length_store.
    + apply read2_Some. unfold σ1. by rewrite lookup_store_eq.
    + unfold σ1. by rewrite !length_store.
    + apply read2_Some. rewrite lookup_store_eq; [done|].
      unfold σ1. by rewrite length_store.
Qed.

(** ** [drag_eps] is not read *)

(** C10. For the confined model, the value of [drag_eps] has no effect:
    with any other value, every call of [compute_pde_values] (with or
    without [return_components]) and of [compute_jacobian] returns the same
    result and leaves the same heap.  This holds in every arithmetic. *)
Theorem drag_eps_is_never_read {T : Type} `{Arith T}
    (self : LateralIceStream.t T) (e : T) (u : list T) (scale : T) (rc : bool)
    (σ : heap T) :
  LateralIceStream.compute_pde_values (LateralIceStream.with_drag_eps e self)
    u scale rc σ
  = LateralIceStream.compute_pde_values self u scale rc σ
  ∧ LateralIceStream.compute_jacobian (LateralIceStream.with_drag_eps e self) u scale σ
    = LateralIceStream.compute_jacobian self u scale σ.
Proof. by destruct self. Qed.

(** ** Exact arithmetic: laws *)

Section xr_facts.
Local Open Scope R_scope.
Implicit Types (x y z : xr) (a b c : R).

Lemma Xr_sub_add_distr x y z : Xr.sub x (Xr.add y z) = Xr.sub (Xr.sub x y) z.
Proof.
  destruct x, y, z; unfold Xr.sub; simpl; try reflexivity. f_equal. lra.
Qed.

Lemma Xr_neg_involutive x : Xr.neg (Xr.neg x) = x.
Proof. destruct x; simpl; try reflexivity. f_equal. lra. Qed.

Lemma Xr_inf_of_sign_opp a : Xr.inf_of_sign (- a) = Xr.neg (Xr.inf_of_sign a).
Proof.
  unfold Xr.inf_of_sign.
  repeat (destruct (Rlt_dec _ _)); simpl; try reflexivity; lra.
Qed.

Lemma Xr_mul_neg_l x y : Xr.mul (Xr.neg x) y = Xr.neg (Xr.mul x y).
Proof.
  destruct x, y; simpl; rewrite ?Xr_inf_of_sign_opp, ?Xr_neg_involutive,
    ?Ropp_involutive; try reflexivity.
  f_equal. lra.
Qed.

Lemma Xr_mul_neg_r x y : Xr.mul x (Xr.neg y) = Xr.neg (Xr.mul x y).
Proof.
  destruct x, y; simpl; rewrite ?Xr_inf_of_sign_opp, ?Xr_neg_involutive,
    ?Ropp_involutive; try reflexivity.
  f_equal. lra.
Qed.

Lemma Xr_div_neg_l x y : Xr.div (Xr.neg x) y = Xr.neg (Xr.div x y).
Proof.
  destruct x, y; simpl; try reflexivity.
  - destruct (Req_dec_T _ _); [apply Xr_inf_of_sign_opp|]. simpl. f_equal. lra.
  - f_equal. lra.
  - f_equal. lra.
  - by destruct (Rlt_dec _ _).
  - by destruct (Rlt_dec _ _).
Qed.

Lemma Xr_abs_neg x : Xr.abs (Xr.neg x) = Xr.abs x.
Proof. destruct x; simpl; try reflexivity. by rewrite Rabs_Ropp. Qed.

(** Equal values compare equal with [==], unless they are [nan]. *)
Lemma Xr_eqb_refl x : Xr.is_nan x = false → Xr.eqb x x = true.
Proof. destruct x as [a| | |]; simpl; try done. by destruct (Req_dec_T a a). Qed.
End xr_facts.

Section xr_vectors.
Implicit Types (v w t : list xr).

Lemma vv_sub_add_distr v w t :
  vv sub v (vv add w t) = vv sub (vv sub v w) t.
Proof.
  revert w t. induction v as [|x v IH]; intros [|y w] [|z t]; simpl; try done.
  f_equal; [apply Xr_sub_add_distr | apply IH].
Qed.
End xr_vectors.

(** ** The components recombine into the residual *)

(** C2. For the confined model, every [u] of length [N] and every [scale]:
    both calls return, and the components of the dictionary, recombined as
    the source groups them in lines 210 and 213,
    [(membrane - (basal + lateral)) + driving], are exactly the first [N]
    entries of the vector the plain call returns from the same state.  No
    law of arithmetic is used: the equality holds in binary64 as in exact
    arithmetic. *)
Theorem components_recombine_as_written {T : Type} `{Arith T}
    (self : LateralIceStream.t T) (u : list T) (scale : T) (σ : heap T) :
  LateralIceStream.wf self σ →
  length u = Profile.N (LateralIceStream.profile self) →
  ∃ c mem bas lat drv r σ' res,
    LateralIceStream.compute_pde_values self u scale true σ
      = Some (LateralIceStream.Components c, σ) ∧
    c !! "membrane" = Some mem ∧ c !! "basal" = Some bas ∧
    c !! "lateral" = Some lat ∧ c !! "driving" = Some drv ∧
    LateralIceStream.compute_pde_values self u scale false σ
      = Some (LateralIceStream.Residual r, σ') ∧
    read1 r σ' = Some res ∧
    vv add (vv sub mem (vv add bas lat)) drv
    = take (Profile.N (LateralIceStream.profile self)) res.
Proof.
  intros Hwf Hu.
  destruct (Lateral_pde_values_Some self u scale σ Hwf Hu)
    as (Hfv & d0 & dN & res & HHf & _ & _ & -> & Hc).
  pose proof Hwf as (Hp & (Hfv' & HHf' & HlHf) & _).
  assert (Hfv' = Hfv) as -> by congruence.
  eexists _, _, _, _, _, _, _, _.
  split_and!; [by apply Lateral_components_Some|done..|exact Hc| |].
  - apply read1_Some. rewrite lookup_app_r by (rewrite length_store; lia).
    by rewrite length_store, Nat.sub_diag.
  - by rewrite take_app_length' by (symmetry; by apply Lateral_length_interior).
Qed.

(** Grouped from left to right, [((membrane - basal) - lateral) + driving],
    the components give the same entries in exact arithmetic, where
    [x - (y + z) = (x - y) - z] also for the special values. *)
Lemma components_regrouped_in_exact_arithmetic
    (self : LateralIceStream.t xr) (u : list xr) (scale : xr) (σ : heap xr) :
  LateralIceStream.wf self σ →
  length u = Profile.N (LateralIceStream.profile self) →
  ∃ c mem bas lat drv r σ' res,
    LateralIceStream.compute_pde_values self u scale true σ
      = Some (LateralIceStream.Components c, σ) ∧
    c !! "membrane" = Some mem ∧ c !! "basal" = Some bas ∧
    c !! "lateral" = Some lat ∧ c !! "driving" = Some drv ∧
    LateralIceStream.compute_pde_values self u scale false σ
      = Some (LateralIceStream.Residual r, σ') ∧
    read1 r σ' = Some res ∧
    vv add (vv sub (vv sub mem bas) lat) drv
    = take (Profile.N (LateralIceStream.profile self)) res.
Proof.
  intros Hwf Hu.
  destruct (Lateral_pde_values_Some self u scale σ Hwf Hu)
    as (Hfv & d0 & dN & res & HHf & _ & _ & -> & Hc).
  pose proof Hwf as (Hp & (Hfv' & HHf' & HlHf) & _).
  assert (Hfv' = Hfv) as -> by congruence.
  eexists _, _, _, _, _, _, _, _.
  split_and!; [by apply Lateral_components_Some|done..|exact Hc| |].
  - apply read1_Some. rewrite lookup_app_r by (rewrite length_store; lia).
    by rewrite length_store, Nat.sub_diag.
  - rewrite take_app_length' by (symmetry; by apply Lateral_length_interior).
    unfold LateralIceStream.interior. by rewrite vv_sub_add_distr.
Qed.

(** On the grid of one node every power the residual takes is a power of
    one, whose value does not depend on the library that computes it. *)
Example Grid1_powers_of_one :
  np_abs (np_dot (Profile.D Grid1.profile) Grid1.u) = [PrimFloat.one] ∧
  (∃ Hfv, read1 (LateralIceStream.Hf Grid1.lateral) Grid1.lateral_heap = Some Hfv ∧
          vv mul Hfv (np_abs Grid1.u) = [PrimFloat.one]) ∧
  vs div (sv mul (lit 5) (np_abs Grid1.u))
         (mul (LateralIceStream.A Grid1.lateral) (LateralIceStream.W Grid1.lateral))
  = [PrimFloat.one] ∧
  LateralIceStream.A Grid1.lateral = PrimFloat.one.
Proof.
  split_and!; [reflexivity| |reflexivity|reflexivity].
  eexists. split; reflexivity.
Qed.

(** In binary64 the two groupings differ.  On the grid of one node, with
    [u = [0.5]] and [scale = 0.01], the components are
    [membrane = 0.07999999920000002], [basal = 0.2], [lateral = 0.016] and
    [driving = 0.899269805]; the residual, [(membrane - (basal + lateral))
    + driving], is [0.7632698041999999], and
    [((membrane - basal) - lateral) + driving] is its neighbour
    [0.7632698042]. *)
Lemma components_regrouped_differ_in_binary64 :
  ∃ c mem bas lat drv r σ' res,
    LateralIceStream.compute_pde_values Grid1.lateral Grid1.u Grid1.scale true
      Grid1.lateral_heap = Some (LateralIceStream.Components c, Grid1.lateral_heap) ∧
    c !! "membrane" = Some mem ∧ c !! "basal" = Some bas ∧
    c !! "lateral" = Some lat ∧ c !! "driving" = Some drv ∧
    LateralIceStream.compute_pde_values Grid1.lateral Grid1.u Grid1.scale false
      Grid1.lateral_heap = Some (LateralIceStream.Residual r, σ') ∧
    read1 r σ' = Some res ∧
    take (Profile.N (LateralIceStream.profile Grid1.lateral)) res
      = [Grid1.residual_entry] ∧
    vv add (vv sub (vv sub mem bas) lat) drv = [Grid1.regrouped_entry] ∧
    PrimFloat.ltb Grid1.residual_entry Grid1.regrouped_entry = true ∧
    vv add (vv sub (vv sub mem bas) lat) drv
      ≠ take (Profile.N (LateralIceStream.profile Grid1.lateral)) res.
Proof.
  eexists _, _, _, _, _, _, _, _.
  split_and!; [vm_compute; reflexivity..|].
  intros Heq.
  pose proof (f_equal (λ l : list PrimFloat.float,
                         match l with
                         | x :: _ => PrimFloat.ltb Grid1.residual_entry x
                         | [] => false
                         end) Heq) as Hlt.
  vm_compute in Hlt. discriminate Hlt.
Qed.

(** ** Exact arithmetic: powers, quotients, literals *)

Section xr_power.
Local Open Scope R_scope.
Implicit Types (x y : xr) (a b c : R).

Lemma lit_1 : lit 1 = Fin 1.
Proof. simpl. f_equal. cbv [Q2R Qnum Qden]. lra. Qed.

Lemma lit_m1 : lit (-1) = Fin (-1).
Proof. simpl. f_equal. cbv [Q2R Qnum Qden]. lra. Qed.

Lemma Xr_div_Fin a b : b ≠ 0 → Xr.div (Fin a) (Fin b) = Fin (a / b).
Proof. intros Hb. simpl. by destruct (Req_dec_T b 0). Qed.

Lemma Xr_pow_pos a b : 0 < a → Xr.pow (Fin a) (Fin b) = Fin (Rpower a b).
Proof.
  intros Ha. simpl. destruct (Req_dec_T b 0) as [->|Hb].
  - by rewrite Rpower_O.
  - by destruct (Rlt_dec 0 a).
Qed.

Lemma Xr_pow_exp_0 x : Xr.pow x (Fin 0) = Fin 1.
Proof. simpl. by destruct (Req_dec_T 0 0). Qed.

Lemma Xr_pow_zero_pos b : 0 < b → Xr.pow (Fin 0) (Fin b) = Fin 0.
Proof.
  intros Hb. simpl. destruct (Req_dec_T b 0); [lra|].
  destruct (Rlt_dec 0 0); [lra|]. destruct (Req_dec_T 0 0); [|lra].
  by destruct (Rlt_dec 0 b).
Qed.

Lemma Xr_pow_zero_neg b : b < 0 → Xr.pow (Fin 0) (Fin b) = PInf.
Proof.
  intros Hb. simpl. destruct (Req_dec_T b 0); [lra|].
  destruct (Rlt_dec 0 0); [lra|]. destruct (Req_dec_T 0 0); [|lra].
  destruct (Rlt_dec 0 b); [lra|done].
Qed.

Lemma Xr_pow_nan b : b ≠ 0 → Xr.pow NaN (Fin b) = NaN.
Proof. intros Hb. simpl. by destruct (Req_dec_T b 0). Qed.

(** A power of a non-negative number with a non-negative exponent is a
    non-negative number. *)
Lemma Xr_pow_nonneg a b :
  0 <= a → 0 <= b → ∃ p, Xr.pow (Fin a) (Fin b) = Fin p ∧ 0 <= p.
Proof.
  intros Ha Hb. destruct (Req_dec_T b 0) as [->|Hb0].
  - exists 1. rewrite Xr_pow_exp_0. split; [done|lra].
  - destruct (Rle_lt_or_eq_dec 0 a Ha) as [Hpos|<-].
    + exists (Rpower a b). rewrite Xr_pow_pos by done. split; [done|].
      left. apply exp_pos.
    + exists 0. rewrite Xr_pow_zero_pos by lra. split; [done|lra].
Qed.


(** Something times an infinity, or times [nan], is not finite. *)
Lemma Xr_mul_not_finite x y :
  Xr.is_finite y = false → Xr.is_finite (Xr.mul x y) = false.
Proof.
  destruct x, y; simpl; try done; intros _; unfold Xr.inf_of_sign;
    repeat destruct (Rlt_dec _ _); done.
Qed.

Lemma Xr_sub_not_finite x y :
  Xr.is_finite y = false → Xr.is_finite (Xr.sub x y) = false.
Proof. by destruct x, y. Qed.

(** Something times zero is zero or [nan]: its own opposite. *)
Lemma Xr_mul_zero_neg x y :
  y = Fin 0 ∨ y = NaN → Xr.mul x y = Fin 0 ∨ Xr.mul x y = NaN.
Proof.
  intros [->| ->]; destruct x; simpl; auto.
  - left. f_equal. lra.
  - right. unfold Xr.inf_of_sign. repeat destruct (Rlt_dec _ _); try done; lra.
  - right. unfold Xr.inf_of_sign. repeat destruct (Rlt_dec _ _); try done; lra.
Qed.

Lemma Xr_neg_zero_or_nan x : x = Fin 0 ∨ x = NaN → Xr.neg x = x.
Proof. intros [->| ->]; simpl; [|done]. f_equal. lra. Qed.
End xr_power.

Section xr_finite.
Local Open Scope R_scope.
Implicit Types (a b : R).

Lemma Xr_add_Fin a b : Xr.add (Fin a) (Fin b) = Fin (a + b).
Proof. reflexivity. Qed.
Lemma Xr_sub_Fin a b : Xr.sub (Fin a) (Fin b) = Fin (a - b).
Proof. reflexivity. Qed.
Lemma Xr_mul_Fin a b : Xr.mul (Fin a) (Fin b) = Fin (a * b).
Proof. reflexivity. Qed.
Lemma Xr_abs_Fin a : Xr.abs (Fin a) = Fin (Rabs a).
Proof. reflexivity. Qed.
Lemma Xr_neg_Fin a : Xr.neg (Fin a) = Fin (- a).
Proof. reflexivity. Qed.
End xr_finite.

(** The operations of the instance, by their names in [Xr]. *)
Ltac xr_ops :=
  rewrite ?lit_1, ?lit_m1 in *;
  change (@add xr xr_arith) with Xr.add in *;
  change (@sub xr xr_arith) with Xr.sub in *;
  change (@mul xr xr_arith) with Xr.mul in *;
  change (@div xr xr_arith) with Xr.div in *;
  change (@pow xr xr_arith) with Xr.pow in *;
  change (@abs xr xr_arith) with Xr.abs in *;
  change (@copysign xr xr_arith) with Xr.copysign in *;
  change (@ltb xr xr_arith) with Xr.ltb in *.

(** Entries of array expressions, by rewriting. *)
Ltac entry :=
  repeat (rewrite lookup_vv || rewrite lookup_sv || rewrite lookup_vs
          || rewrite lookup_np_abs || rewrite lookup_usign
          || rewrite list_lookup_fmap).

(** Computing under [Some] without unfolding the arithmetic. *)
Ltac option_step :=
  cbn [fmap option_fmap option_map mbind option_bind mret option_ret opt2].

(** ** The viscosity is finite and positive *)

(** C5. The viscosity both models compute,
    [A**(-1/n) / (|Du|**((n-1)/n) + nu_eps)], in exact arithmetic: for a
    positive rate factor [A], an exponent [n] other than zero and every
    [nu_eps > 0], it is a positive real number, neither infinite nor [nan],
    at every node where [Du] is finite and not zero, and at the nodes
    where [Du] is zero when [n >= 1] or [n < 0], that is when the exponent
    [(n-1)/n] of [|Du|] is not negative. *)
Theorem viscosity_is_finite_and_positive
    (a nn e d : R) (Du : list xr) (i : nat) :
  (0 < a)%R → nn ≠ 0%R → (0 < e)%R → Du !! i = Some (Fin d) →
  (d = 0%R → (nn < 0)%R ∨ (1 <= nn)%R) →
  ∃ r, viscosity (Fin a) (Fin nn) (Fin e) Du !! i = Some (Fin r) ∧ (0 < r)%R.
Proof.
  intros Ha Hn He Hd Hrest. unfold viscosity. entry. rewrite Hd. option_step. xr_ops.
  rewrite Xr_sub_Fin, Xr_abs_Fin. rewrite !Xr_div_Fin by done.
  rewrite Xr_pow_pos by done.
  assert (∃ p, Xr.pow (Fin (Rabs d)) (Fin ((nn - 1) / nn)) = Fin p ∧ (0 <= p)%R)
    as (p & -> & Hp).
  { destruct (Req_dec_T d 0) as [Hd0|Hd0].
    - apply Xr_pow_nonneg; [apply Rabs_pos|].
      destruct (Hrest Hd0) as [Hneg|Hge].
      + replace ((nn - 1) / nn)%R with ((1 - nn) * / (- nn))%R by (field; lra).
        apply Rmult_le_pos; [lra|]. left. apply Rinv_0_lt_compat. lra.
      + unfold Rdiv. apply Rmult_le_pos; [lra|]. left. apply Rinv_0_lt_compat. lra.
    - eexists. split; [apply Xr_pow_pos; by apply Rabs_pos_lt|]. left. apply exp_pos. }
  rewrite Xr_add_Fin. rewrite Xr_div_Fin by lra.
  eexists. split; [done|]. apply Rdiv_lt_0_compat; [apply exp_pos|lra].
Qed.

(** Where it is not.  With [n = 1/2] the exponent of [|Du|] is [-1]: at a
    node where [Du] is zero the denominator is [+inf] and the viscosity is
    zero, already in exact arithmetic ([A = 1], [nu_eps = 1]).  And in
    binary64 the quotient overflows for a small [nu_eps]: with [A = 1],
    [n = 3] and [nu_eps = 5e-324], the viscosity at a node where [Du] is
    zero is [1 / 5e-324], which is [+inf]. *)
Lemma viscosity_zero_or_infinite :
  ((0 < 1)%R ∧
   viscosity (Fin 1) (Fin (1 / 2)) (Fin 1) [Fin 0] = [Fin 0]) ∧
  (PrimFloat.ltb PrimFloat.zero B64.min_subnormal = true ∧
   viscosity PrimFloat.one (lit 3) B64.min_subnormal [PrimFloat.zero]
   = [PrimFloat.infinity]).
Proof.
  split; split.
  - lra.
  - unfold viscosity, sv, vs, np_abs. cbn [fmap list_fmap]. xr_ops.
    rewrite Xr_sub_Fin, Xr_abs_Fin, !Xr_div_Fin by lra.
    rewrite Rabs_R0, Xr_pow_zero_neg by lra.
    rewrite Xr_pow_pos by lra. reflexivity.
  - vm_compute. reflexivity.
  - vm_compute. reflexivity.
Qed.

(** ** The drag terms at zero velocity and under a change of sign *)

Section xr_sign.
Local Open Scope R_scope.
Implicit Types (x y : xr) (a b : R).

Lemma Xr_copysign_neg x a :
  a ≠ 0 → Xr.copysign x (Xr.neg (Fin a)) = Xr.neg (Xr.copysign x (Fin a)).
Proof.
  intros Ha. unfold Xr.copysign. simpl.
  destruct (Rlt_dec (- a) 0), (Rlt_dec a 0); try lra; try done.
  by rewrite Xr_neg_involutive.
Qed.

Lemma Xr_div_zero y : Xr.div (Fin 0) y = Fin 0 ∨ Xr.div (Fin 0) y = NaN.
Proof.
  destruct y as [b| | |]; simpl; auto.
  destruct (Req_dec_T b 0).
  - right. unfold Xr.inf_of_sign. repeat destruct (Rlt_dec _ _); try done; lra.
  - left. f_equal. unfold Rdiv. lra.
Qed.

Lemma Xr_pow_zero_or_nan x b :
  0 < b → x = Fin 0 ∨ x = NaN →
  Xr.pow x (Fin b) = Fin 0 ∨ Xr.pow x (Fin b) = NaN.
Proof.
  intros Hb [->| ->].
  - left. by apply Xr_pow_zero_pos.
  - right. apply Xr_pow_nan. lra.
Qed.

Lemma Xr_div_zero_or_nan x y :
  x = Fin 0 ∨ x = NaN → Xr.div x y = Fin 0 ∨ Xr.div x y = NaN.
Proof. intros [->| ->]; [apply Xr_div_zero|]. right. by destruct y. Qed.

Lemma Xr_pow_zero_neg_not_finite x b :
  b < 0 → x = Fin 0 ∨ x = NaN → Xr.is_finite (Xr.pow x (Fin b)) = false.
Proof.
  intros Hb [->| ->].
  - by rewrite Xr_pow_zero_neg.
  - rewrite Xr_pow_nan; [done|lra].
Qed.
End xr_sign.

(** At a node with zero velocity and [m > 1], the entry of [J_basal] is an
    infinity or [nan]. *)
Lemma J_basal_entry_not_finite
    (self : LateralIceStream.t xr) (Hfv u : list xr) (scale hf : xr)
    (mm : R) (i : nat) :
  LateralIceStream.m self = Fin mm → (1 < mm)%R →
  u !! i = Some (Fin 0) → Hfv !! i = Some hf →
  ∃ x, LateralIceStream.J_basal self Hfv u scale !! i = Some x ∧
       Xr.is_finite x = false.
Proof.
  intros Hm Hmm Hu HHf. unfold LateralIceStream.J_basal. entry.
  rewrite Hu, HHf, Hm. option_step. xr_ops.
  eexists. split; [done|]. apply Xr_mul_not_finite.
  rewrite Xr_sub_Fin, Xr_div_Fin by lra.
  apply Xr_pow_zero_neg_not_finite.
  - assert (0 < / mm)%R by (apply Rinv_0_lt_compat; lra). unfold Rdiv. nra.
  - apply Xr_mul_zero_neg. left. by rewrite Xr_abs_Fin, Rabs_R0.
Qed.

(** C6. For the confined model with [m > 1], at a node where the velocity
    is zero the basal term of the Jacobian is not finite (it is an infinity
    or [nan]), and so is whatever it is subtracted from: the exponent
    [(1 - m) / m] is negative and the base [Hf * absu] is raised to it as
    it is. *)
Theorem basal_jacobian_is_singular_at_zero_velocity
    (self : LateralIceStream.t xr) (Hfv u : list xr) (scale hf : xr)
    (mm : R) (i : nat) :
  LateralIceStream.m self = Fin mm → (1 < mm)%R →
  u !! i = Some (Fin 0) → Hfv !! i = Some hf →
  ∃ x, LateralIceStream.J_basal self Hfv u scale !! i = Some x ∧
       Xr.is_finite x = false ∧
       ∀ y, Xr.is_finite (Xr.sub y x) = false.
Proof.
  intros Hm Hmm Hu HHf.
  destruct (J_basal_entry_not_finite self Hfv u scale hf mm i)
    as (x & Hx & Hfin); try done.
  exists x. split_and!; [done..|]. intros y. by apply Xr_sub_not_finite.
Qed.

(** C7. For the confined model, the basal and the lateral drag are odd in
    the velocity: at every node with a finite velocity, changing the sign
    of [u] changes the sign of both (equal values; [nan] on one side means
    [nan] on the other).  At a node where the velocity is exactly zero
    this is stated for positive exponents [m] and [n], where both drags
    vanish; elsewhere for all parameters. *)
Theorem drag_is_odd
    (self : LateralIceStream.t xr) (Hfv u : list xr) (scale : xr)
    (a : R) (i : nat) :
  u !! i = Some (Fin a) →
  (a ≠ 0%R ∨
   ∃ mm nn, LateralIceStream.m self = Fin mm ∧ (0 < mm)%R ∧
            LateralIceStream.n self = Fin nn ∧ (0 < nn)%R) →
  LateralIceStream.basal_drag self Hfv (Xr.neg <$> u) scale !! i
    = Xr.neg <$> LateralIceStream.basal_drag self Hfv u scale !! i
  ∧ LateralIceStream.lateral_drag self (Xr.neg <$> u) scale !! i
    = Xr.neg <$> LateralIceStream.lateral_drag self u scale !! i.
Proof.
  intros Hu Hdom.
  unfold LateralIceStream.basal_drag, LateralIceStream.lateral_drag. entry.
  rewrite Hu. option_step. xr_ops.
  rewrite Xr_abs_neg.
  destruct (Req_dec_T a 0) as [->|Ha].
  - (* zero velocity: both drags are zero (or nan) *)
    destruct Hdom as [?|(mm & nn & Hm & Hmm & Hn & Hnn)]; [done|].
    rewrite Hm, Hn.
    rewrite Xr_neg_Fin, Ropp_0, Xr_abs_Fin, Rabs_R0.
    rewrite !Xr_div_Fin by lra.
    split.
    + destruct (Hfv !! i) as [hf|]; option_step; [|done].
      f_equal. symmetry. apply Xr_neg_zero_or_nan, Xr_mul_zero_neg.
      apply Xr_pow_zero_or_nan; [by apply Rdiv_lt_0_compat; lra|].
      apply Xr_mul_zero_neg. by left.
    + destruct (Profile.h (LateralIceStream.profile self) !! i) as [hi|];
        option_step; [|done].
      f_equal. symmetry. apply Xr_neg_zero_or_nan, Xr_mul_zero_neg.
      apply Xr_pow_zero_or_nan; [by apply Rdiv_lt_0_compat; lra|].
      apply Xr_div_zero_or_nan, Xr_mul_zero_neg. by left.
  - rewrite Xr_copysign_neg by done.
    split.
    + destruct (Hfv !! i) as [hf|]; option_step; [|done].
      by rewrite Xr_mul_neg_r, !Xr_mul_neg_l.
    + destruct (Profile.h (LateralIceStream.profile self) !! i) as [hi|];
        option_step; [|done].
      by rewrite Xr_mul_neg_r, Xr_mul_neg_l, Xr_div_neg_l, Xr_mul_neg_l.
Qed.

(** ** The basal term of the Jacobian *)

Section basal_jacobian.
Local Open Scope R_scope.
Implicit Types (a b : R).

(** [copysign(1, u)] is [1] or [-1]: its square is [1]. *)
Lemma Xr_copysign_one a :
  ∃ s, Xr.copysign (Fin 1) (Fin a) = Fin s ∧ s * s = 1.
Proof.
  unfold Xr.copysign. simpl. rewrite Rabs_R1.
  destruct (Rlt_dec a 0); eexists; (split; [done|lra]).
Qed.

(** [Hf * Hf**((1 - m)/m) = Hf**(1/m)] *)
Lemma Rpower_one_plus hf mm :
  0 < hf → mm ≠ 0 → hf * Rpower hf ((1 - mm) / mm) = Rpower hf (1 / mm).
Proof.
  intros Hhf Hmm. rewrite <- (Rpower_1 hf) at 1 by done.
  rewrite <- Rpower_plus. f_equal. by field.
Qed.

(** The entry of [J_basal] and the formula of the specification, both
    computed, at a node with a non-zero velocity. *)
Lemma J_basal_entry_nonzero (self : LateralIceStream.t xr) (Hfv u : list xr)
    (sc mu_ as_ mm hf a : R) (i : nat) :
  LateralIceStream.mu self = Fin mu_ → LateralIceStream.As self = Fin as_ →
  LateralIceStream.m self = Fin mm → mm ≠ 0 →
  Hfv !! i = Some (Fin hf) → 0 < hf → u !! i = Some (Fin a) → a ≠ 0 →
  let r := sc * mu_ * as_ * Rpower hf (1 / mm) * (1 / mm)
           * Rpower (Rabs a) ((1 - mm) / mm) in
  LateralIceStream.J_basal self Hfv u (Fin sc) !! i = Some (Fin r) ∧
  LateralIceStream.J_basal_spec self (Fin sc) (Fin hf) (Xr.abs (Fin a)) = Fin r.
Proof.
  intros Hmu HAs Hm Hmm HHf Hhf Hu Ha r. subst r.
  assert (0 < Rabs a) as Habs by by apply Rabs_pos_lt.
  assert (0 < hf * Rabs a) as Hprod by by apply Rmult_lt_0_compat.
  destruct (Xr_copysign_one a) as (s & Hs & Hss).
  unfold LateralIceStream.J_basal, LateralIceStream.J_basal_spec. entry.
  rewrite Hu, HHf, Hmu, HAs, Hm. option_step. xr_ops.
  rewrite Hs, Xr_abs_Fin, Xr_sub_Fin, !Xr_mul_Fin, !Xr_div_Fin by done.
  rewrite !Xr_pow_pos by done. rewrite !Xr_mul_Fin.
  rewrite <- Rpower_mult_distr by done.
  rewrite <- (Rpower_one_plus hf mm) by done.
  split; [|reflexivity]. do 2 f_equal.
  replace (sc * mu_ * s * as_ * (hf * s)) with (sc * mu_ * as_ * hf * (s * s))
    by ring.
  rewrite Hss. by field.
Qed.
End basal_jacobian.

Section basal_jacobian_zero.
Local Open Scope R_scope.

End basal_jacobian_zero.


(** ** The flotation thickness *)

Section flotation.
Local Open Scope R_scope.
Implicit Types (x y : xr).

Lemma Q2R_floor_pos : 0 < Q2R 0.01.
Proof. cbv [Q2R Qnum Qden]. lra. Qed.

Lemma Xr_leb_refl_Fin a : Xr.leb (Fin a) (Fin a) = true.
Proof. simpl. destruct (Rle_dec a a); [done|lra]. Qed.

(** Without [nan] the order is total. *)
Lemma Xr_ltb_false_leb x y :
  Xr.is_nan x = false → Xr.is_nan y = false → Xr.ltb x y = false → Xr.leb y x = true.
Proof.
  destruct x as [a| | |], y as [b| | |]; simpl; try done. intros _ _.
  destruct (Rlt_dec a b), (Rle_dec b a); try done. lra.
Qed.

Lemma Xr_ltb_zero_floor x : Xr.ltb x (Fin 0) = true → Xr.ltb x (lit 0.01) = true.
Proof.
  pose proof Q2R_floor_pos. destruct x as [a| | |]; simpl; try done.
  destruct (Rlt_dec a 0), (Rlt_dec a (Q2R 0.01)); try done. lra.
Qed.

(** What the floor does to one entry. *)
Lemma floor_flotation_entry (Hfv : list xr) (i : nat) x :
  Hfv !! i = Some x →
  ∃ f, LateralIceStream.floor_flotation Hfv !! i = Some f ∧
       (Xr.is_nan x = false → Xr.leb (lit 0.01) f = true) ∧
       (Xr.ltb x (Fin 0) = true → f = lit 0.01).
Proof.
  intros Hx. unfold LateralIceStream.floor_flotation.
  rewrite list_lookup_fmap, Hx. option_step. xr_ops.
  eexists. split; [done|]. split.
  - intros Hnan. destruct (Xr.ltb x (lit 0.01)) eqn:Hlt.
    + apply Xr_leb_refl_Fin.
    + by apply Xr_ltb_false_leb.
  - intros Hneg. by rewrite Xr_ltb_zero_floor.
Qed.
End flotation.

(** In every arithmetic in which [0.01 < 0.01] is false, no entry of the
    floored array is below [0.01]. *)
Lemma floor_flotation_not_below {T : Type} `{Arith T} (Hfv : list T) (i : nat) (x : T) :
  ltb (lit 0.01) (lit 0.01) = false →
  LateralIceStream.floor_flotation Hfv !! i = Some x →
  ltb x (lit 0.01) = false.
Proof.
  intros Hirr. unfold LateralIceStream.floor_flotation.
  rewrite list_lookup_fmap. destruct (Hfv !! i) as [y|]; [|done].
  simpl. destruct (ltb y (lit 0.01)) eqn:Hy; intros; by simplify_eq.
Qed.

(** On finite fields, with [rho_ice] not zero, the unfloored value is a
    number: it is never [nan]. *)
Lemma raw_flotation_finite (p : Profile.t xr) (i : nat) (hi di rw ri : R) :
  Profile.h p !! i = Some (Fin hi) → Profile.depth p !! i = Some (Fin di) →
  Profile.rho_water p = Fin rw → Profile.rho_ice p = Fin ri → ri ≠ 0%R →
  LateralIceStream.raw_flotation p !! i = Some (Fin (hi - rw / ri * di)).
Proof.
  intros Hh Hd Hrw Hri Hne. unfold LateralIceStream.raw_flotation. entry.
  rewrite Hh, Hd, Hrw, Hri. option_step. xr_ops.
  by rewrite Xr_div_Fin, Xr_mul_Fin, Xr_sub_Fin.
Qed.



(** ** The singular term on the diagonal of the Jacobian *)

Section jacobian_diagonal.
Context {T : Type} `{Arith T}.

Lemma lookup_diag_sub (M : list (list T)) (v : list T) i row :
  M !! i = Some row →
  diag_sub M v !! i
  = Some (match v !! i with Some b => alter (λ x, sub x b) i row | None => row end).
Proof. intros HM. unfold diag_sub. by rewrite list_lookup_imap, HM. Qed.
End jacobian_diagonal.

Lemma Xr_sub_not_finite_l x y :
  Xr.is_finite x = false → Xr.is_finite (Xr.sub x y) = false.
Proof. by destruct x, y. Qed.

(** With [m > 1] and [u[i] = 0], the entry [(i, i)] of the interior rows of
    the Jacobian, [Jpde[i, i] - J_basal[i] - J_lateral[i]], is not finite. *)
Lemma Jpde_diagonal_not_finite
    (self : LateralIceStream.t xr) (Kv : list (list xr)) (Hfv u : list xr)
    (scale hf y : xr) (mm : R) (i : nat) (row : list xr) :
  LateralIceStream.m self = Fin mm → (1 < mm)%R →
  u !! i = Some (Fin 0) → Hfv !! i = Some hf →
  membrane_jacobian (Profile.D (LateralIceStream.profile self))
    (Profile.h (LateralIceStream.profile self)) (LateralIceStream.n self)
    (LateralIceStream.nu_eps self) Kv u scale !! i = Some row →
  row !! i = Some y →
  ∃ row' z, LateralIceStream.Jpde self Kv Hfv u scale !! i = Some row' ∧
            row' !! i = Some z ∧ Xr.is_finite z = false.
Proof.
  intros Hm Hmm Hu HHf Hrow Hy.
  destruct (J_basal_entry_not_finite self Hfv u scale hf mm i)
    as (b & Hb & Hfin); try done.
  pose proof (λ z, Xr_sub_not_finite z b Hfin) as Hsub.
  unfold LateralIceStream.Jpde.
  erewrite lookup_diag_sub; [|erewrite lookup_diag_sub; [done|exact Hrow]].
  rewrite Hb.
  assert (alter (λ x, sub x b) i row !! i = Some (Xr.sub y b)) as Hd.
  { by rewrite list_lookup_alter_eq, Hy. }
  destruct (LateralIceStream.J_lateral self u scale !! i) as [l|].
  - eexists _, (Xr.sub (Xr.sub y b) l). split; [done|].
    rewrite list_lookup_alter_eq, Hd. split; [done|].
    apply Xr_sub_not_finite_l, Hsub.
  - eexists _, _. split; [done|]. split; [exact Hd|]. apply Hsub.
Qed.

(** ** [J_basal] is the derivative of the basal drag *)

Section basal_derivative.
Local Open Scope R_scope.

(** At a node with a finite non-zero velocity the basal drag is
    [basal_drag_at] of that velocity. *)
Lemma basal_drag_entry (self : LateralIceStream.t xr) (Hfv u : list xr)
    (sc mu_ as_ mm hf a : R) (i : nat) :
  LateralIceStream.mu self = Fin mu_ → LateralIceStream.As self = Fin as_ →
  LateralIceStream.m self = Fin mm → mm ≠ 0 →
  Hfv !! i = Some (Fin hf) → 0 < hf → u !! i = Some (Fin a) → a ≠ 0 →
  LateralIceStream.basal_drag self Hfv u (Fin sc) !! i
  = Some (Fin (basal_drag_at sc mu_ as_ mm hf a)).
Proof.
  intros Hmu HAs Hm Hmm HHf Hhf Hu Ha.
  assert (0 < hf * Rabs a) as Hprod
    by (apply Rmult_lt_0_compat; [done|by apply Rabs_pos_lt]).
  unfold LateralIceStream.basal_drag, basal_drag_at. entry.
  rewrite Hu, HHf, Hmu, HAs, Hm. option_step. xr_ops.
  rewrite Xr_abs_Fin, !Xr_mul_Fin, Xr_div_Fin by done.
  rewrite Xr_pow_pos by done.
  unfold Xr.copysign. simpl. rewrite Rabs_R1.
  destruct (Rlt_dec a 0); simpl; do 2 f_equal; ring.
Qed.

(** The derivative of [K * (hf * x) ** p] at [x > 0]. *)
Lemma derivable_pt_lim_scaled_power K hf p x :
  0 < hf → 0 < x →
  derivable_pt_lim (λ y, K * Rpower (hf * y) p) x
    (K * (p * Rpower (hf * x) (p - 1) * hf)).
Proof.
  intros Hhf Hx.
  apply (derivable_pt_lim_ext
           (mult_real_fct K (comp (λ z, Rpower z p) (mult_real_fct hf id)))).
  { intros z. unfold mult_real_fct, comp, id. reflexivity. }
  apply derivable_pt_lim_scal.
  apply derivable_pt_lim_comp.
  - replace hf with (hf * 1) at 2 by ring.
    apply derivable_pt_lim_scal, derivable_pt_lim_id.
  - unfold mult_real_fct, id. apply derivable_pt_lim_power.
    by apply Rmult_lt_0_compat.
Qed.

(** The power rule: away from zero the basal drag is differentiable in the
    velocity, and its derivative is the formula of the specification. *)
Lemma basal_drag_at_derivative sc mu_ as_ mm hf a :
  0 < hf → mm ≠ 0 → a ≠ 0 →
  derivable_pt_lim (basal_drag_at sc mu_ as_ mm hf) a
    (sc * mu_ * as_ * Rpower hf (1 / mm) * (1 / mm)
     * Rpower (Rabs a) ((1 - mm) / mm)).
Proof.
  intros Hhf Hmm Ha.
  assert (∀ x, 0 < x →
            hf * Rpower (hf * x) (1 / mm - 1)
            = Rpower hf (1 / mm) * Rpower x ((1 - mm) / mm)) as Hpow.
  { intros x Hx. rewrite <- Rpower_mult_distr by done.
    replace ((1 - mm) / mm) with (1 / mm - 1) by by field.
    rewrite <- (Rpower_1 hf) at 1 by done.
    rewrite <- Rmult_assoc, <- Rpower_plus.
    by replace (1 + (1 / mm - 1)) with (1 / mm) by ring. }
  destruct (Rtotal_order a 0) as [Hneg|[?|Hpos]]; [|done|].
  - (* a < 0: around [a] the drag is [- K * (hf * (- x)) ** (1/m)] *)
    apply (derivable_pt_lim_locally_ext
             (λ x, - (sc * mu_ * as_) * Rpower (hf * (- x)) (1 / mm)) _ a (a - 1) 0);
      [lra| |].
    { intros z Hz. unfold basal_drag_at. destruct (Rlt_dec z 0); [|lra].
      rewrite Rabs_left by lra. ring. }
    rewrite Rabs_left by done.
    apply (derivable_pt_lim_ext
             (comp (λ y, - (sc * mu_ * as_) * Rpower (hf * y) (1 / mm)) (- id)%F)).
    { intros z. unfold comp, opp_fct, id. reflexivity. }
    replace (sc * mu_ * as_ * Rpower hf (1 / mm) * (1 / mm)
             * Rpower (- a) ((1 - mm) / mm))
      with (- (sc * mu_ * as_)
            * (1 / mm * Rpower (hf * (- a)) (1 / mm - 1) * hf) * (- 1)).
    2:{ replace (1 / mm * Rpower (hf * - a) (1 / mm - 1) * hf)
          with (1 / mm * (hf * Rpower (hf * - a) (1 / mm - 1))) by ring.
        rewrite Hpow by lra. ring. }
    apply derivable_pt_lim_comp.
    + apply derivable_pt_lim_opp, derivable_pt_lim_id.
    + unfold opp_fct, id. apply derivable_pt_lim_scaled_power; lra.
  - apply (derivable_pt_lim_locally_ext
             (λ x, sc * mu_ * as_ * Rpower (hf * x) (1 / mm)) _ a 0 (a + 1));
      [lra| |].
    { intros z Hz. unfold basal_drag_at. destruct (Rlt_dec z 0); [lra|].
      rewrite Rabs_right by lra. ring. }
    rewrite Rabs_right by lra.
    replace (sc * mu_ * as_ * Rpower hf (1 / mm) * (1 / mm)
             * Rpower a ((1 - mm) / mm))
      with (sc * mu_ * as_ * (1 / mm * Rpower (hf * a) (1 / mm - 1) * hf)).
    2:{ replace (1 / mm * Rpower (hf * a) (1 / mm - 1) * hf)
          with (1 / mm * (hf * Rpower (hf * a) (1 / mm - 1))) by ring.
        rewrite Hpow by lra. ring. }
    by apply derivable_pt_lim_scaled_power.
Qed.

(** X1. For the confined model with [m] not zero, at a node with
    [Hf[i] > 0] and a finite non-zero velocity: the entry of [J_basal] that
    [compute_jacobian] computes is the derivative, with respect to the
    velocity at that node, of the entry of the basal drag that
    [compute_pde_values] computes there, in exact arithmetic. *)
Lemma J_basal_is_the_derivative (self : LateralIceStream.t xr) (Hfv u : list xr)
    (sc mu_ as_ mm hf a : R) (i : nat) :
  LateralIceStream.mu self = Fin mu_ → LateralIceStream.As self = Fin as_ →
  LateralIceStream.m self = Fin mm → mm ≠ 0 →
  Hfv !! i = Some (Fin hf) → 0 < hf → u !! i = Some (Fin a) → a ≠ 0 →
  ∃ r,
    LateralIceStream.J_basal self Hfv u (Fin sc) !! i = Some (Fin r) ∧
    (∀ x, x ≠ 0 →
       LateralIceStream.basal_drag self Hfv (<[i := Fin x]> u) (Fin sc) !! i
       = Some (Fin (basal_drag_at sc mu_ as_ mm hf x))) ∧
    derivable_pt_lim (basal_drag_at sc mu_ as_ mm hf) a r.
Proof.
  intros Hmu HAs Hm Hmm HHf Hhf Hu Ha.
  destruct (J_basal_entry_nonzero self Hfv u sc mu_ as_ mm hf a i)
    as [HJ _]; try done.
  eexists. split_and!; [exact HJ| |by apply basal_drag_at_derivative].
  intros x Hx. apply basal_drag_entry; try done.
  apply list_lookup_insert_eq. by eapply lookup_lt_Some.
Qed.
End basal_derivative.

(** ** Zero velocity: the residual is the driving stress

    The scenario of the specification: with [u = 0] on a finite grid the
    membrane stress and the drag vanish, the interior entries of the
    residual of [IceStream] are [Td], and the boundary entries are
    [boundary_value_scale * 0] and [boundary_value_scale * (0 - fs)]. *)

Section zero_velocity.
Local Open Scope R_scope.

Lemma finite_inv x : Xr.is_finite x = true → ∃ a, x = Fin a.
Proof. destruct x; simpl; try done. eauto. Qed.

Lemma foldl_add_zeros (row : list xr) (k : nat) (c : R) :
  finite_vec row →
  foldl add (Fin c) (zip_with mul row (replicate k (Fin 0))) = Fin c.
Proof.
  intros Hrow. revert k c.
  induction Hrow as [|x row Hx _ IH]; intros [|k] c; try done.
  destruct (finite_inv x Hx) as [a ->].
  cbn [replicate zip_with foldl]. xr_ops. rewrite Xr_mul_Fin, Xr_add_Fin.
  replace (c + a * 0) with c by ring. apply IH.
Qed.

Lemma inner_zeros (row : list xr) (k : nat) :
  finite_vec row → inner row (replicate k (Fin 0)) = Fin 0.
Proof.
  intros Hrow. unfold inner.
  replace (lit 0) with (Fin 0)
    by (simpl; f_equal; cbv [Q2R Qnum Qden]; lra).
  by apply foldl_add_zeros.
Qed.

Lemma np_dot_zeros (Dm : list (list xr)) (k : nat) :
  Forall finite_vec Dm →
  np_dot Dm (replicate k (Fin 0)) = replicate (length Dm) (Fin 0).
Proof.
  induction 1 as [|row Dm Hrow _ IH]; [done|].
  unfold np_dot in *. rewrite fmap_cons, inner_zeros, IH by done. done.
Qed.

(** Finite entries times zero give zero. *)
Lemma vv_mul_zeros (v : list xr) :
  finite_vec v → vv mul v (replicate (length v) (Fin 0)) = replicate (length v) (Fin 0).
Proof.
  unfold vv. induction 1 as [|x v Hx _ IH]; [done|].
  destruct (finite_inv x Hx) as [a ->].
  cbn [length replicate zip_with]. rewrite IH. xr_ops.
  by rewrite Xr_mul_Fin, Rmult_0_r.
Qed.

Lemma sv_mul_zeros (c : R) (k : nat) :
  sv mul (Fin c) (replicate k (Fin 0)) = replicate k (Fin 0).
Proof.
  unfold sv. rewrite fmap_replicate. xr_ops.
  by rewrite Xr_mul_Fin, Rmult_0_r.
Qed.

(** Adding [0 - 0] to an array leaves it as it is, special values
    included. *)
Lemma vv_add_zeros (t : list xr) :
  vv add (vv sub (replicate (length t) (Fin 0)) (replicate (length t) (Fin 0))) t = t.
Proof.
  unfold vv. induction t as [|x t IH]; [done|].
  cbn [length replicate zip_with]. rewrite IH. f_equal.
  destruct x; simpl; try done. f_equal. lra.
Qed.

Lemma finite_vv_mul (v w : list xr) :
  finite_vec v → finite_vec w → finite_vec (vv mul v w).
Proof.
  unfold vv. intros Hv. revert w.
  induction Hv as [|x v Hx _ IH]; intros w Hw; [constructor|].
  destruct Hw as [|y w Hy Hw]; [constructor|].
  cbn [zip_with]. constructor; [|by apply IH].
  destruct (finite_inv x Hx) as [a ->], (finite_inv y Hy) as [b ->]. done.
Qed.

(** The viscosity at zero strain rate is the same positive number at
    every node. *)
Lemma viscosity_zeros (a nn e : R) (k : nat) :
  0 < a → 1 <= nn → 0 < e →
  ∃ c, viscosity (Fin a) (Fin nn) (Fin e) (replicate k (Fin 0)) = replicate k (Fin c).
Proof.
  intros Ha Hn He. unfold viscosity, sv, vs, np_abs.
  rewrite !fmap_replicate. xr_ops.
  rewrite Xr_sub_Fin, Xr_abs_Fin, !Xr_div_Fin by lra.
  rewrite Xr_pow_pos by done.
  destruct (Xr_pow_nonneg (Rabs 0) ((nn - 1) / nn)) as (p & -> & Hp).
  { apply Rabs_pos. }
  { unfold Rdiv. apply Rmult_le_pos; [lra|]. left. apply Rinv_0_lt_compat. lra. }
  rewrite Xr_add_Fin, Xr_div_Fin by lra. eauto.
Qed.

Lemma finite_replicate (c : R) (k : nat) : finite_vec (replicate k (Fin c)).
Proof. apply Forall_replicate. done. Qed.

(** The interior entries of the residual of [IceStream] at zero
    velocity. *)
Lemma IceStream_interior_at_rest (self : IceStream.t xr) (a nn e sc b2 : R) :
  Profile.wf (IceStream.profile self) →
  Forall finite_vec (Profile.D (IceStream.profile self)) →
  finite_vec (Profile.h (IceStream.profile self)) →
  IceStream.A self = Fin a → 0 < a →
  IceStream.n self = Fin nn → 1 <= nn →
  IceStream.nu_eps self = Fin e → 0 < e →
  IceStream.B2 self = Fin b2 →
  IceStream.interior self
    (replicate (Profile.N (IceStream.profile self)) (Fin 0)) (Fin sc)
  = driving_stress (IceStream.rho_ice self) (IceStream.g self)
      (Profile.h (IceStream.profile self)) (Profile.alpha (IceStream.profile self))
      (Fin sc).
Proof.
  intros (HN & HD & Hh & Halpha & Hdepth) HDfin Hhfin HA Ha Hn Hnn He Hee HB2.
  unfold IceStream.interior, IceStream.drag, membrane_stress.
  rewrite HA, Hn, He, HB2.
  rewrite np_dot_zeros, HD by done.
  destruct (viscosity_zeros a nn e (Profile.N (IceStream.profile self)))
    as [c ->]; try done.
  set (hnu := vv mul (Profile.h (IceStream.profile self)) _).
  assert (finite_vec hnu) as Hfin
    by (apply finite_vv_mul; [done|apply finite_replicate]).
  assert (length hnu = Profile.N (IceStream.profile self)) as Hlen.
  { unfold hnu. rewrite length_vv, length_replicate. lia. }
  rewrite <- Hlen at 1. rewrite vv_mul_zeros, Hlen by done.
  rewrite <- HD at 1. rewrite np_dot_zeros, HD by done.
  xr_ops. change (lit 2) with (Fin (Q2R 2)).
  rewrite !Xr_mul_Fin, !sv_mul_zeros.
  set (t := driving_stress _ _ _ _ _).
  assert (length t = Profile.N (IceStream.profile self)) as <-.
  { unfold t, driving_stress. len. }
  apply vv_add_zeros.
Qed.
End zero_velocity.

Section at_rest.
Local Open Scope R_scope.

(** X2. For the unconfined model on finite fields, with [A > 0], [n >= 1]
    and [nu_eps > 0]: at zero velocity [compute_pde_values] returns the
    driving stress [Td] in the first [N] entries, the membrane stress and
    the drag being zero, and [boundary_value_scale * 0] and
    [boundary_value_scale * (0 - fs)] in the last two, in exact
    arithmetic. *)
Lemma IceStream_residual_at_rest (self : IceStream.t xr) (σ : heap xr)
    (a nn e sc b2 b f : R) :
  IceStream.wf self σ →
  Forall finite_vec (Profile.D (IceStream.profile self)) →
  finite_vec (Profile.h (IceStream.profile self)) →
  IceStream.A self = Fin a → 0 < a →
  IceStream.n self = Fin nn → 1 <= nn →
  IceStream.nu_eps self = Fin e → 0 < e →
  IceStream.B2 self = Fin b2 →
  IceStream.boundary_value_scale self = Fin b → IceStream.fs self = Fin f →
  ∃ r σ',
    IceStream.compute_pde_values self
      (replicate (Profile.N (IceStream.profile self)) (Fin 0)) (Fin sc) σ
    = Some (r, σ') ∧
    read1 r σ'
    = Some (driving_stress (IceStream.rho_ice self) (IceStream.g self)
              (Profile.h (IceStream.profile self))
              (Profile.alpha (IceStream.profile self)) (Fin sc)
            ++ [Fin (b * 0); Fin (b * (0 - f))]).
Proof.
  intros Hwf HDfin Hhfin HA Ha Hn Hnn He Hee HB2 Hb Hf.
  pose proof Hwf as (Hp & _). pose proof Hp as (HN & HD & _).
  destruct (IceStream_pde_values_Some self
              (replicate (Profile.N (IceStream.profile self)) (Fin 0)) (Fin sc) σ Hwf)
    as (d0 & dN & res & H0 & HdN & -> & Hc); [by rewrite length_replicate|].
  rewrite np_dot_zeros, HD in H0, HdN by done.
  apply lookup_replicate in H0 as [-> _]. apply lookup_replicate in HdN as [-> _].
  erewrite IceStream_interior_at_rest in Hc by done.
  rewrite Hb, Hf in Hc. eexists _, _. split; [exact Hc|].
  apply read1_Some. rewrite lookup_app_r by (rewrite length_store; lia).
  by rewrite length_store, Nat.sub_diag.
Qed.

(** The scenario of the specification: at rest the residual is the
    driving stress at the three nodes, and zero in the two boundary
    entries. *)
Example Grid3_residual_at_rest :
  ∃ r σ',
    IceStream.compute_pde_values Grid3.ice Grid3.u (Fin 0.01) Grid3.ice_heap
    = Some (r, σ') ∧
    read1 r σ'
    = Some (driving_stress (IceStream.rho_ice Grid3.ice) (IceStream.g Grid3.ice)
              (Profile.h Grid3.profile) (Profile.alpha Grid3.profile) (Fin 0.01)
            ++ [Fin 0; Fin 0]).
Proof.
  destruct (IceStream_residual_at_rest Grid3.ice Grid3.ice_heap
              0.0000000000000001 3 (Q2R 0.00000001) 0.01 600 (Q2R 500) 0)
    as (r & σ' & Hc & Hr); try (reflexivity || lra).
  - apply IceStream_init_wf. repeat split; simpl; lia.
  - repeat constructor.
  - repeat constructor.
  - exists r, σ'. split; [exact Hc|].
    replace (Q2R 500 * 0) with 0 in Hr by ring.
    replace (Q2R 500 * (0 - 0)) with 0 in Hr by ring.
    exact Hr.
Defined.
End at_rest.

(** * Further properties of the two classes

    Shapes of the Jacobian, independence of the call history, the buffers,
    the attributes the methods read, and, in exact arithmetic, the drag
    terms and their derivatives, the viscosity, and the residual at
    rest. *)

(** ** The shape of the Jacobian *)

Section shapes.
Context {T : Type} `{Arith T}.
Implicit Types (v w b : list T) (M A : list (list T)) (k : nat).

(** Matrices all of whose rows have [k] entries. *)
Lemma rows_gradient_product b A k :
  Forall (λ r, length r = k) A → Forall (λ r, length r = k) (gradient_product b A).
Proof.
  intros HA. unfold gradient_product. revert b.
  induction HA as [|r A Hr _ IH]; intros [|x b]; simpl; constructor.
  - by rewrite length_fmap.
  - apply IH.
Qed.

Lemma rows_mm op M M' k :
  Forall (λ r, length r = k) M → Forall (λ r, length r = k) M' →
  Forall (λ r, length r = k) (mm op M M').
Proof.
  unfold mm. intros HM. revert M'.
  induction HM as [|r M Hr _ IH]; intros M' HM'; [constructor|].
  destruct HM' as [|r' M' Hr' HM']; simpl; constructor.
  - rewrite length_vv. lia.
  - by apply IH.
Qed.

Lemma rows_sm op s M k :
  Forall (λ r, length r = k) M → Forall (λ r, length r = k) (sm op s M).
Proof.
  unfold sm. intros HM. apply Forall_fmap. eapply Forall_impl; [exact HM|].
  intros r Hr. simpl. by rewrite length_sv.
Qed.

Lemma rows_np_dot2 M M' : Forall (λ r, length r = ncols M') (np_dot2 M M').
Proof.
  unfold np_dot2. apply Forall_fmap, Forall_forall. intros r _. simpl.
  by rewrite length_fmap, length_seq.
Qed.

Lemma rows_np_eye k : Forall (λ r, length r = k) (np_eye (T:=T) k).
Proof.
  unfold np_eye. apply Forall_fmap, Forall_forall. intros r _. simpl.
  by rewrite length_fmap, length_seq.
Qed.

Lemma rows_diag_sub M v k :
  Forall (λ r, length r = k) M → Forall (λ r, length r = k) (diag_sub M v).
Proof.
  intros HM. apply Forall_lookup. intros i r Hr.
  unfold diag_sub in Hr. rewrite list_lookup_imap in Hr.
  destruct (M !! i) as [r0|] eqn:Hi; simplify_eq/=.
  pose proof (Forall_lookup_1 _ _ _ _ HM Hi) as Hlen. simpl in Hlen.
  destruct (v !! i); [by rewrite length_alter|done].
Qed.

Lemma ncols_rows M k :
  (1 ≤ length M)%nat → Forall (λ r, length r = k) M → ncols M = k.
Proof.
  intros Hlen HM. destruct HM as [|r M Hr _]; simpl in *; [lia|done].
Qed.

(** The membrane part of the Jacobian has a row for each row of [K], of
    as many entries as the grid has nodes. *)
Lemma rows_membrane_jacobian (p : Profile.t T) n nu_eps K u scale :
  Profile.wf p → square_grid p →
  Forall (λ r, length r = Profile.N p)
    (membrane_jacobian (Profile.D p) (Profile.h p) n nu_eps K u scale).
Proof.
  intros (HN & HD & Hh & _) Hsq. unfold membrane_jacobian.
  apply rows_sm.
  set (JJ := mm add _ _).
  assert (Forall (λ r, length r = Profile.N p) JJ) as HJJ.
  { unfold JJ. apply rows_mm; repeat apply rows_gradient_product; done. }
  assert (1 ≤ length JJ)%nat as Hlen.
  { unfold JJ, gradient_product, normalized_nu, nu_hat.
    rewrite length_mm, !length_zip_with. len. }
  rewrite <- (ncols_rows JJ _ Hlen HJJ). apply rows_np_dot2.
Qed.

(** The two rows appended to the interior rows. *)
Lemma lookup_boundary {X} (M : list X) (r1 r2 : X) k :
  length M = k →
  (M ++ [r1; r2]) !! k = Some r1 ∧ (M ++ [r1; r2]) !! (k + 1)%nat = Some r2.
Proof.
  intros <-. split.
  - rewrite lookup_app_r by lia. by rewrite Nat.sub_diag.
  - rewrite lookup_app_r by lia. by replace (_ + 1 - _)%nat with 1%nat by lia.
Qed.

Lemma last_row (p : Profile.t T) DN :
  Profile.wf p → last (Profile.D p) = Some DN →
  Profile.D p !! (Profile.N p - 1)%nat = Some DN.
Proof.
  intros (HN & HD & _) Hl. rewrite last_lookup, HD in Hl.
  by replace (Profile.N p - 1)%nat with (Nat.pred (Profile.N p)) by lia.
Qed.

Lemma IceStream_length_jacobian_interior (self : IceStream.t T) Kv u scale :
  length Kv = Profile.N (IceStream.profile self) →
  length u = Profile.N (IceStream.profile self) →
  length (mm sub
            (membrane_jacobian (Profile.D (IceStream.profile self))
               (Profile.h (IceStream.profile self)) (IceStream.n self)
               (IceStream.nu_eps self) Kv u scale)
            (IceStream.J_drag self u scale))
  = Profile.N (IceStream.profile self).
Proof. intros HK Hu. unfold membrane_jacobian, IceStream.J_drag. len. Qed.

Lemma IceStream_rows_jacobian (self : IceStream.t T) Kv u scale D0 DN :
  Profile.wf (IceStream.profile self) → square_grid (IceStream.profile self) →
  length u = Profile.N (IceStream.profile self) →
  Profile.D (IceStream.profile self) !! 0%nat = Some D0 →
  last (Profile.D (IceStream.profile self)) = Some DN →
  Forall (λ r, length r = Profile.N (IceStream.profile self))
    (IceStream.jacobian self Kv u scale D0 DN).
Proof.
  intros Hp Hsq Hu H0 HN. unfold IceStream.jacobian.
  apply Forall_app. split.
  - apply rows_mm; [by apply rows_membrane_jacobian|].
    unfold IceStream.J_drag. apply rows_sm. rewrite Hu. apply rows_np_eye.
  - rewrite last_lookup in HN.
    pose proof (Forall_lookup_1 _ _ _ _ Hsq H0) as Hl0.
    pose proof (Forall_lookup_1 _ _ _ _ Hsq HN) as HlN.
    repeat constructor; by rewrite length_sv.
Qed.

Lemma Lateral_rows_jacobian (self : LateralIceStream.t T) Kv Hfv u scale D0 DN :
  Profile.wf (LateralIceStream.profile self) →
  square_grid (LateralIceStream.profile self) →
  Profile.D (LateralIceStream.profile self) !! 0%nat = Some D0 →
  last (Profile.D (LateralIceStream.profile self)) = Some DN →
  Forall (λ r, length r = Profile.N (LateralIceStream.profile self))
    (LateralIceStream.jacobian self Kv Hfv u scale D0 DN).
Proof.
  intros Hp Hsq H0 HN. unfold LateralIceStream.jacobian, LateralIceStream.Jpde.
  apply Forall_app. split.
  - do 2 apply rows_diag_sub. by apply rows_membrane_jacobian.
  - rewrite last_lookup in HN.
    pose proof (Forall_lookup_1 _ _ _ _ Hsq H0) as Hl0.
    pose proof (Forall_lookup_1 _ _ _ _ Hsq HN) as HlN.
    repeat constructor; by rewrite length_sv.
Qed.
End shapes.

(** X3. For both models, on a grid with a square [D] and for every [u] of
    length [N], [compute_jacobian] returns [self.J] holding a matrix of
    [N + 2] rows of [N] entries each, whose row [N] is
    [boundary_value_scale * D[0, :]] and whose row [N + 1] is
    [boundary_value_scale * D[N-1, :]], whatever [u] and [scale] are.  This
    holds in every arithmetic. *)
Theorem jacobian_shape_and_boundary_rows {T : Type} `{Arith T} :
  (∀ (self : IceStream.t T) (u : list T) (scale : T) (σ : heap T),
     IceStream.wf self σ → square_grid (IceStream.profile self) →
     length u = Profile.N (IceStream.profile self) →
     ∃ σ' Jm D0 DN,
       IceStream.compute_jacobian self u scale σ = Some (IceStream.J self, σ') ∧
       read2 (IceStream.J self) σ' = Some Jm ∧
       length Jm = (Profile.N (IceStream.profile self) + 2)%nat ∧
       Forall (λ r, length r = Profile.N (IceStream.profile self)) Jm ∧
       Profile.D (IceStream.profile self) !! 0%nat = Some D0 ∧
       Profile.D (IceStream.profile self)
         !! (Profile.N (IceStream.profile self) - 1)%nat = Some DN ∧
       Jm !! Profile.N (IceStream.profile self)
         = Some (sv mul (IceStream.boundary_value_scale self) D0) ∧
       Jm !! (Profile.N (IceStream.profile self) + 1)%nat
         = Some (sv mul (IceStream.boundary_value_scale self) DN))
  ∧
  (∀ (self : LateralIceStream.t T) (u : list T) (scale : T) (σ : heap T),
     LateralIceStream.wf self σ → square_grid (LateralIceStream.profile self) →
     length u = Profile.N (LateralIceStream.profile self) →
     ∃ σ' Jm D0 DN,
       LateralIceStream.compute_jacobian self u scale σ
         = Some (LateralIceStream.J self, σ') ∧
       read2 (LateralIceStream.J self) σ' = Some Jm ∧
       length Jm = (Profile.N (LateralIceStream.profile self) + 2)%nat ∧
       Forall (λ r, length r = Profile.N (LateralIceStream.profile self)) Jm ∧
       Profile.D (LateralIceStream.profile self) !! 0%nat = Some D0 ∧
       Profile.D (LateralIceStream.profile self)
         !! (Profile.N (LateralIceStream.profile self) - 1)%nat = Some DN ∧
       Jm !! Profile.N (LateralIceStream.profile self)
         = Some (sv mul (LateralIceStream.boundary_value_scale self) D0) ∧
       Jm !! (Profile.N (LateralIceStream.profile self) + 1)%nat
         = Some (sv mul (LateralIceStream.boundary_value_scale self) DN)).
Proof.
  split.
  - intros self u scale σ Hwf Hsq Hu.
    destruct (IceStream_jacobian_Some self u scale σ Hwf Hu)
      as (Kv & D0 & DN & HK & H0 & HN & Hc).
    pose proof Hwf as (Hp & (Kv' & HK' & HlK) & _ & (Jv & HJ & _) & _).
    assert (Kv' = Kv) as -> by congruence.
    pose proof (IceStream_length_jacobian_interior self Kv u scale HlK Hu) as Hint.
    destruct (lookup_boundary _ (sv mul (IceStream.boundary_value_scale self) D0)
                (sv mul (IceStream.boundary_value_scale self) DN) _ Hint)
      as [HrN HrN1].
    eexists _, _, D0, DN.
    split_and!; [exact Hc| | | |exact H0|by apply last_row|exact HrN|exact HrN1].
    + apply read2_Some, lookup_store_eq. by eapply read2_lt.
    + unfold IceStream.jacobian. rewrite length_app, Hint. done.
    + by apply IceStream_rows_jacobian.
  - intros self u scale σ Hwf Hsq Hu.
    destruct (Lateral_jacobian_Some self u scale σ Hwf Hu)
      as (Kv & Hfv & D0 & DN & HK & HHf & H0 & HN & Hc).
    pose proof Hwf as (Hp & _ & (Kv' & HK' & HlK) & _ & (Jv & HJ & _) & _).
    assert (Kv' = Kv) as -> by congruence.
    pose proof (Lateral_length_Jpde self Kv Hfv u scale) as Hint. rewrite HlK in Hint.
    destruct (lookup_boundary _ (sv mul (LateralIceStream.boundary_value_scale self) D0)
                (sv mul (LateralIceStream.boundary_value_scale self) DN) _ Hint)
      as [HrN HrN1].
    eexists _, _, D0, DN.
    split_and!; [exact Hc| | | |exact H0|by apply last_row|exact HrN|exact HrN1].
    + apply read2_Some, lookup_store_eq. by eapply read2_lt.
    + unfold LateralIceStream.jacobian. rewrite length_app, Hint. done.
    + by apply Lateral_rows_jacobian.
Qed.

(** ** The results do not depend on the calls made before *)

Section history.
Context {T : Type} `{Arith T}.

(** The object a residual call returns holds the residual. *)
Lemma read1_returned (σ : heap T) (l : loc) (res : list T) :
  read1 (length σ) (store l (Arr1 res) σ ++ [Arr1 res]) = Some res.
Proof.
  apply read1_Some. rewrite lookup_app_r by (rewrite length_store; lia).
  by rewrite length_store, Nat.sub_diag.
Qed.

(** No sequence of calls changes [self.K], nor [self.Hf]. *)
Lemma IceStream_run_K (self : IceStream.t T) cs (σ : heap T) Kv :
  IceStream.wf self σ → read2 (IceStream.K self) σ = Some Kv →
  read2 (IceStream.K self) (IceStream.run self cs σ) = Some Kv.
Proof.
  intros Hwf HK.
  destruct (IceStream_run_frame self cs σ Hwf) as (_ & _ & Hfr).
  pose proof Hwf as (_ & _ & (Fv & HF & _) & _ & HKJ).
  apply read2_Some. rewrite Hfr; [by apply read2_Some| | |done].
  - by eapply read2_lt.
  - intros E. symmetry in E. revert E. by eapply read1_read2_ne.
Qed.

Lemma Lateral_run_K (self : LateralIceStream.t T) cs (σ : heap T) Kv :
  LateralIceStream.wf self σ → read2 (LateralIceStream.K self) σ = Some Kv →
  read2 (LateralIceStream.K self) (LateralIceStream.run self cs σ) = Some Kv.
Proof.
  intros Hwf HK.
  destruct (Lateral_run_frame self cs σ Hwf) as (_ & _ & Hfr).
  pose proof Hwf as (_ & _ & _ & (Fv & HF & _) & _ & _ & HKJ).
  apply read2_Some. rewrite Hfr; [by apply read2_Some| | |done].
  - by eapply read2_lt.
  - intros E. symmetry in E. revert E. by eapply read1_read2_ne.
Qed.

Lemma Lateral_run_Hf (self : LateralIceStream.t T) cs (σ : heap T) Hfv :
  LateralIceStream.wf self σ → read1 (LateralIceStream.Hf self) σ = Some Hfv →
  read1 (LateralIceStream.Hf self) (LateralIceStream.run self cs σ) = Some Hfv.
Proof.
  intros Hwf HHf.
  destruct (Lateral_run_frame self cs σ Hwf) as (_ & _ & Hfr).
  pose proof Hwf as (_ & _ & _ & _ & (Jv & HJ & _) & HHfF & _).
  apply read1_Some. rewrite Hfr; [by apply read1_Some| |done|].
  - by eapply read1_lt.
  - by eapply read1_read2_ne.
Qed.
End history.

(** X4. For the unconfined model, what [compute_pde_values] and
    [compute_jacobian] return for a velocity [u] of length [N] and a
    [scale] does not depend on the calls made before on the instance:
    after any sequence of calls both calls still return, with the entries
    they return before it.  The buffers [self.F] and [self.J] are
    overwritten in full.  This holds in every arithmetic. *)
Theorem IceStream_results_ignore_history {T : Type} `{Arith T}
    (self : IceStream.t T) (u : list T) (scale : T) (cs : list (IceStream.call T))
    (σ : heap T) :
  IceStream.wf self σ → length u = Profile.N (IceStream.profile self) →
  (∃ r r' σ1 σ1' res,
     IceStream.compute_pde_values self u scale σ = Some (r, σ1) ∧
     read1 r σ1 = Some res ∧
     IceStream.compute_pde_values self u scale (IceStream.run self cs σ)
       = Some (r', σ1') ∧
     read1 r' σ1' = Some res)
  ∧
  (∃ σ2 σ2' Jm,
     IceStream.compute_jacobian self u scale σ = Some (IceStream.J self, σ2) ∧
     read2 (IceStream.J self) σ2 = Some Jm ∧
     IceStream.compute_jacobian self u scale (IceStream.run self cs σ)
       = Some (IceStream.J self, σ2') ∧
     read2 (IceStream.J self) σ2' = Some Jm).
Proof.
  intros Hwf Hu.
  destruct (IceStream_run_frame self cs σ Hwf) as (Hwf' & _ & _).
  split.
  - destruct (IceStream_pde_values_Some self u scale σ Hwf Hu)
      as (d0 & dN & res & H0 & HN & Hres & Hc).
    destruct (IceStream_pde_values_Some self u scale _ Hwf' Hu)
      as (d0' & dN' & res' & H0' & HN' & Hres' & Hc').
    assert (res' = res) as -> by congruence.
    eexists _, _, _, _, res.
    split_and!; [exact Hc|apply read1_returned|exact Hc'|apply read1_returned].
  - destruct (IceStream_jacobian_Some self u scale σ Hwf Hu)
      as (Kv & D0 & DN & HK & H0 & HN & Hc).
    destruct (IceStream_jacobian_Some self u scale _ Hwf' Hu)
      as (Kv' & D0' & DN' & HK' & H0' & HN' & Hc').
    pose proof Hwf as (_ & _ & _ & (Jv & HJ & _) & _).
    pose proof Hwf' as (_ & _ & _ & (Jv' & HJ' & _) & _).
    pose proof (IceStream_run_K self cs σ Kv Hwf HK) as HK2.
    assert (Kv' = Kv) as -> by congruence.
    assert (D0' = D0) as -> by congruence. assert (DN' = DN) as -> by congruence.
    eexists _, _, _. split_and!; [exact Hc| |exact Hc'|].
    + apply read2_Some, lookup_store_eq. by eapply read2_lt.
    + apply read2_Some, lookup_store_eq. by eapply read2_lt.
Qed.

(** X5. For the confined model likewise: the residual, the dictionary of
    components and the Jacobian returned for [u] and [scale] are the same
    after any sequence of calls as before it.  Besides the buffers, the
    calls read [self.Hf] and [self.K], which no call changes.  This holds
    in every arithmetic. *)
Theorem Lateral_results_ignore_history {T : Type} `{Arith T}
    (self : LateralIceStream.t T) (u : list T) (scale : T)
    (cs : list (LateralIceStream.call T)) (σ : heap T) :
  LateralIceStream.wf self σ → length u = Profile.N (LateralIceStream.profile self) →
  (∃ r r' σ1 σ1' res,
     LateralIceStream.compute_pde_values self u scale false σ
       = Some (LateralIceStream.Residual r, σ1) ∧
     read1 r σ1 = Some res ∧
     LateralIceStream.compute_pde_values self u scale false
       (LateralIceStream.run self cs σ) = Some (LateralIceStream.Residual r', σ1') ∧
     read1 r' σ1' = Some res)
  ∧
  (∃ c,
     LateralIceStream.compute_pde_values self u scale true σ
       = Some (LateralIceStream.Components c, σ) ∧
     LateralIceStream.compute_pde_values self u scale true
       (LateralIceStream.run self cs σ)
       = Some (LateralIceStream.Components c, LateralIceStream.run self cs σ))
  ∧
  (∃ σ2 σ2' Jm,
     LateralIceStream.compute_jacobian self u scale σ
       = Some (LateralIceStream.J self, σ2) ∧
     read2 (LateralIceStream.J self) σ2 = Some Jm ∧
     LateralIceStream.compute_jacobian self u scale (LateralIceStream.run self cs σ)
       = Some (LateralIceStream.J self, σ2') ∧
     read2 (LateralIceStream.J self) σ2' = Some Jm).
Proof.
  intros Hwf Hu.
  destruct (Lateral_run_frame self cs σ Hwf) as (Hwf' & _ & _).
  pose proof Hwf as (_ & (Hfv & HHf & _) & (Kv & HK & _) & _ & (Jv & HJ & _) & _).
  pose proof (Lateral_run_Hf self cs σ Hfv Hwf HHf) as HHf'.
  pose proof (Lateral_run_K self cs σ Kv Hwf HK) as HK'.
  split_and!.
  - destruct (Lateral_pde_values_Some self u scale σ Hwf Hu)
      as (Hfv1 & d0 & dN & res & HHf1 & H0 & HN & Hres & Hc).
    destruct (Lateral_pde_values_Some self u scale _ Hwf' Hu)
      as (Hfv2 & d0' & dN' & res' & HHf2 & H0' & HN' & Hres' & Hc').
    assert (Hfv1 = Hfv) as -> by congruence. assert (Hfv2 = Hfv) as -> by congruence.
    assert (res' = res) as -> by congruence.
    eexists _, _, _, _, res.
    split_and!; [exact Hc|apply read1_returned|exact Hc'|apply read1_returned].
  - eexists. split; by apply Lateral_components_Some.
  - destruct (Lateral_jacobian_Some self u scale σ Hwf Hu)
      as (Kv1 & Hfv1 & D0 & DN & HK1 & HHf1 & H0 & HN & Hc).
    destruct (Lateral_jacobian_Some self u scale _ Hwf' Hu)
      as (Kv2 & Hfv2 & D0' & DN' & HK2 & HHf2 & H0' & HN' & Hc').
    assert (Hfv1 = Hfv) as -> by congruence. assert (Hfv2 = Hfv) as -> by congruence.
    assert (Kv1 = Kv) as -> by congruence. assert (Kv2 = Kv) as -> by congruence.
    assert (D0' = D0) as -> by congruence. assert (DN' = DN) as -> by congruence.
    pose proof Hwf' as (_ & _ & _ & _ & (Jv' & HJ' & _) & _).
    eexists _, _, _. split_and!; [exact Hc| |exact Hc'|].
    + apply read2_Some, lookup_store_eq. by eapply read2_lt.
    + apply read2_Some, lookup_store_eq. by eapply read2_lt.
Qed.

(** ** The two buffers *)

Section run.
Context {T : Type} `{Arith T}.

Lemma IceStream_run_cons (self : IceStream.t T) c cs (σ : heap T) :
  IceStream.run self (c :: cs) σ = IceStream.run self cs (IceStream.exec self σ c).
Proof. reflexivity. Qed.

Lemma Lateral_run_cons (self : LateralIceStream.t T) c cs (σ : heap T) :
  LateralIceStream.run self (c :: cs) σ
  = LateralIceStream.run self cs (LateralIceStream.exec self σ c).
Proof. reflexivity. Qed.
End run.

(** X6. For both models, residual calls (with or without
    [return_components]) never write [self.J], and Jacobian calls never
    write [self.F]: after any sequence of calls of [compute_pde_values]
    the object [self.J] holds what it held, so a Jacobian obtained before
    stays valid, and after any sequence of calls of [compute_jacobian] the
    object [self.F] holds what it held.  This holds in every
    arithmetic. *)
Theorem buffers_do_not_interfere {T : Type} `{Arith T} :
  (∀ (self : IceStream.t T) (us : list (list T * T)) (σ : heap T),
     IceStream.wf self σ →
     read2 (IceStream.J self)
       (IceStream.run self ((λ c, IceStream.Call_pde_values c.1 c.2) <$> us) σ)
     = read2 (IceStream.J self) σ
     ∧
     read1 (IceStream.F self)
       (IceStream.run self ((λ c, IceStream.Call_jacobian c.1 c.2) <$> us) σ)
     = read1 (IceStream.F self) σ)
  ∧
  (∀ (self : LateralIceStream.t T) (us : list (list T * T * bool)) (σ : heap T),
     LateralIceStream.wf self σ →
     read2 (LateralIceStream.J self)
       (LateralIceStream.run self
          ((λ c, LateralIceStream.Call_pde_values c.1.1 c.1.2 c.2) <$> us) σ)
     = read2 (LateralIceStream.J self) σ
     ∧
     read1 (LateralIceStream.F self)
       (LateralIceStream.run self
          ((λ c, LateralIceStream.Call_jacobian c.1.1 c.1.2) <$> us) σ)
     = read1 (LateralIceStream.F self) σ).
Proof.
  split.
  - intros self us. induction us as [|[u scale] us IH]; intros σ Hwf; [done|].
    rewrite !fmap_cons, !IceStream_run_cons. cbn [fst snd].
    pose proof Hwf as (_ & _ & (Fv & HF & _) & (Jv & HJ & _) & _).
    pose proof (read1_read2_ne _ _ _ _ _ HF HJ) as HFJ.
    pose proof (read1_lt _ _ _ HF) as HFlt. pose proof (read2_lt _ _ _ HJ) as HJlt.
    split.
    + destruct (IceStream_exec_frame self σ (IceStream.Call_pde_values u scale) Hwf)
        as (Hwf' & _ & _).
      destruct (IH _ Hwf') as [-> _]. simpl.
      destruct (IceStream.compute_pde_values self u scale σ) as [[r σ']|] eqn:Hc; [|done].
      apply IceStream_pde_values_inv in Hc as (? & res & _ & _ & -> & ->).
      unfold read2. rewrite lookup_app_l by (rewrite length_store; lia).
      by rewrite lookup_store_ne.
    + destruct (IceStream_exec_frame self σ (IceStream.Call_jacobian u scale) Hwf)
        as (Hwf' & _ & _).
      destruct (IH _ Hwf') as [_ ->]. simpl.
      destruct (IceStream.compute_jacobian self u scale σ) as [[r σ']|] eqn:Hc; [|done].
      apply IceStream_jacobian_inv in Hc as (? & J' & _ & _ & -> & ->).
      unfold read1. by rewrite lookup_store_ne.
  - intros self us. induction us as [|[[u scale] rc] us IH]; intros σ Hwf; [done|].
    rewrite !fmap_cons, !Lateral_run_cons. cbn [fst snd].
    pose proof Hwf as (_ & _ & _ & (Fv & HF & _) & (Jv & HJ & _) & _).
    pose proof (read1_read2_ne _ _ _ _ _ HF HJ) as HFJ.
    pose proof (read1_lt _ _ _ HF) as HFlt. pose proof (read2_lt _ _ _ HJ) as HJlt.
    split.
    + destruct (Lateral_exec_frame self σ (LateralIceStream.Call_pde_values u scale rc) Hwf)
        as (Hwf' & _ & _).
      destruct (IH _ Hwf') as [-> _]. simpl.
      destruct (LateralIceStream.compute_pde_values self u scale rc σ)
        as [[r σ']|] eqn:Hc; [|done].
      apply Lateral_pde_values_inv in Hc as [(c & -> & ->)|(? & res & _ & _ & -> & ->)];
        [done|].
      unfold read2. rewrite lookup_app_l by (rewrite length_store; lia).
      by rewrite lookup_store_ne.
    + destruct (Lateral_exec_frame self σ (LateralIceStream.Call_jacobian u scale) Hwf)
        as (Hwf' & _ & _).
      destruct (IH _ Hwf') as [_ ->]. simpl.
      destruct (LateralIceStream.compute_jacobian self u scale σ)
        as [[r σ']|] eqn:Hc; [|done].
      apply Lateral_jacobian_inv in Hc as (? & J' & _ & _ & -> & ->).
      unfold read1. by rewrite lookup_store_ne.
Qed.

(** ** The dictionary of components *)

(** X7. For the confined model and every [u] of length [N], the call with
    [return_components] returns a dictionary with exactly the four keys
    [membrane], [basal], [lateral] and [driving] (any other key is
    missing), each bound to an array of [N] entries, and leaves the heap
    as it is.  This holds in every arithmetic. *)
Theorem components_keys_and_shapes {T : Type} `{Arith T}
    (self : LateralIceStream.t T) (u : list T) (scale : T) (σ : heap T) :
  LateralIceStream.wf self σ → length u = Profile.N (LateralIceStream.profile self) →
  ∃ c,
    LateralIceStream.compute_pde_values self u scale true σ
      = Some (LateralIceStream.Components c, σ) ∧
    dom c = ({["membrane"; "basal"; "lateral"; "driving"]} : gset string) ∧
    ∀ k v, c !! k = Some v → length v = Profile.N (LateralIceStream.profile self).
Proof.
  intros Hwf Hu.
  pose proof Hwf as (Hp & (Hfv & HHf & HlHf) & _). pose proof Hp as (HN & HD & Hh & Ha & Hd).
  eexists. split_and!; [by apply Lateral_components_Some| |].
  - unfold LateralIceStream.cdict. rewrite !dom_insert_L, dom_empty_L. set_solver.
  - intros k v. unfold LateralIceStream.cdict.
    rewrite !lookup_insert_Some, lookup_empty.
    intros [[_ <-]|[_ [[_ <-]|[_ [[_ <-]|[_ [[_ <-]|[_ ?]]]]]]]]; [| | | |done].
    + unfold LateralIceStream.membrane, membrane_stress. len.
    + unfold LateralIceStream.basal_drag. len.
    + unfold LateralIceStream.lateral_drag. len.
    + unfold LateralIceStream.Td, driving_stress. len.
Qed.

(** ** The drag terms of the Jacobian *)

(** X8. For the confined model, the two in-place subtractions
    [Jpde[range(N), range(N)] -= J_basal] and [... -= J_lateral] change
    the diagonal only: at every node [i] the row [i] of the interior rows
    of the Jacobian keeps its length and its off-diagonal entries, those
    of the membrane part, and its entry [i] is
    [(Jm[i, i] - J_basal[i]) - J_lateral[i]].  This holds in every
    arithmetic. *)
Theorem drag_terms_enter_on_the_diagonal {T : Type} `{Arith T}
    (self : LateralIceStream.t T) (Kv : list (list T)) (Hfv u : list T) (scale : T)
    (i : nat) :
  (i < length Kv)%nat → (i < length Hfv)%nat → (i < length u)%nat →
  (i < length (Profile.h (LateralIceStream.profile self)))%nat →
  ∃ row b l row',
    membrane_jacobian (Profile.D (LateralIceStream.profile self))
      (Profile.h (LateralIceStream.profile self)) (LateralIceStream.n self)
      (LateralIceStream.nu_eps self) Kv u scale !! i = Some row ∧
    LateralIceStream.J_basal self Hfv u scale !! i = Some b ∧
    LateralIceStream.J_lateral self u scale !! i = Some l ∧
    LateralIceStream.Jpde self Kv Hfv u scale !! i = Some row' ∧
    length row' = length row ∧
    (∀ j, j ≠ i → row' !! j = row !! j) ∧
    row' !! i = (λ y, sub (sub y b) l) <$> row !! i.
Proof.
  intros HK HHf Hu Hh.
  destruct (lookup_lt_is_Some_2
              (membrane_jacobian (Profile.D (LateralIceStream.profile self))
                 (Profile.h (LateralIceStream.profile self)) (LateralIceStream.n self)
                 (LateralIceStream.nu_eps self) Kv u scale) i) as [row Hrow].
  { unfold membrane_jacobian. len. }
  destruct (lookup_lt_is_Some_2 (LateralIceStream.J_basal self Hfv u scale) i)
    as [b Hb].
  { unfold LateralIceStream.J_basal. len. }
  destruct (lookup_lt_is_Some_2 (LateralIceStream.J_lateral self u scale) i)
    as [l Hl].
  { unfold LateralIceStream.J_lateral. len. }
  exists row, b, l. unfold LateralIceStream.Jpde.
  erewrite lookup_diag_sub; [|erewrite lookup_diag_sub; [done|exact Hrow]].
  rewrite Hb, Hl. eexists. split_and!; [done..| | |].
  - by rewrite !length_alter.
  - intros j Hj. by rewrite !list_lookup_alter_ne.
  - rewrite !list_lookup_alter_eq. by destruct (row !! i).
Qed.

(** ** The attributes the methods read *)

(** X9. For the unconfined model, the result of [compute_pde_values]
    depends on the attributes [profile], [A], [g], [B2], [n], [rho_ice],
    [boundary_value_scale], [nu_eps], [fs] and [F] only, and the result of
    [compute_jacobian] on [profile], [B2], [n], [nu_eps],
    [boundary_value_scale], [K] and [J] only: two instances that agree on
    these give the same result and heap.  The sliding exponent [m] and
    [rho_water] have no effect on either; [A], [g] and [fs] have none on
    the Jacobian, which takes the rate factor from the array [K] computed
    at construction.  This holds in every arithmetic. *)
Theorem IceStream_attributes_read {T : Type} `{Arith T}
    (self self' : IceStream.t T) (u : list T) (scale : T) (σ : heap T) :
  IceStream.profile self = IceStream.profile self' →
  IceStream.B2 self = IceStream.B2 self' →
  IceStream.n self = IceStream.n self' →
  IceStream.nu_eps self = IceStream.nu_eps self' →
  IceStream.boundary_value_scale self = IceStream.boundary_value_scale self' →
  (IceStream.A self = IceStream.A self' →
   IceStream.g self = IceStream.g self' →
   IceStream.rho_ice self = IceStream.rho_ice self' →
   IceStream.fs self = IceStream.fs self' →
   IceStream.F self = IceStream.F self' →
   IceStream.compute_pde_values self u scale σ
   = IceStream.compute_pde_values self' u scale σ)
  ∧
  (IceStream.K self = IceStream.K self' →
   IceStream.J self = IceStream.J self' →
   IceStream.compute_jacobian self u scale σ
   = IceStream.compute_jacobian self' u scale σ).
Proof.
  destruct self, self'. simpl. intros -> -> -> -> ->.
  split; intros; by simplify_eq.
Qed.

(** X10. For the confined model, the result of [compute_pde_values] (with
    or without [return_components]) depends on [profile], [W], [A], [g],
    [As], [mu], [n], [m], [rho_ice], [boundary_value_scale], [nu_eps],
    [fs], [Hf] and [F] only, and the result of [compute_jacobian] on
    [profile], [W], [A], [As], [mu], [n], [m], [nu_eps],
    [boundary_value_scale], [Hf], [K] and [J] only.  [rho_water] and
    [drag_eps] have no effect on either, [g], [rho_ice] and [fs] none on
    the Jacobian.  This holds in every arithmetic. *)
Theorem Lateral_attributes_read {T : Type} `{Arith T}
    (self self' : LateralIceStream.t T) (u : list T) (scale : T) (rc : bool)
    (σ : heap T) :
  LateralIceStream.profile self = LateralIceStream.profile self' →
  LateralIceStream.W self = LateralIceStream.W self' →
  LateralIceStream.A self = LateralIceStream.A self' →
  LateralIceStream.As self = LateralIceStream.As self' →
  LateralIceStream.mu self = LateralIceStream.mu self' →
  LateralIceStream.n self = LateralIceStream.n self' →
  LateralIceStream.m self = LateralIceStream.m self' →
  LateralIceStream.nu_eps self = LateralIceStream.nu_eps self' →
  LateralIceStream.boundary_value_scale self
  = LateralIceStream.boundary_value_scale self' →
  LateralIceStream.Hf self = LateralIceStream.Hf self' →
  (LateralIceStream.g self = LateralIceStream.g self' →
   LateralIceStream.rho_ice self = LateralIceStream.rho_ice self' →
   LateralIceStream.fs self = LateralIceStream.fs self' →
   LateralIceStream.F self = LateralIceStream.F self' →
   LateralIceStream.compute_pde_values self u scale rc σ
   = LateralIceStream.compute_pde_values self' u scale rc σ)
  ∧
  (LateralIceStream.K self = LateralIceStream.K self' →
   LateralIceStream.J self = LateralIceStream.J self' →
   LateralIceStream.compute_jacobian self u scale σ
   = LateralIceStream.compute_jacobian self' u scale σ).
Proof.
  destruct self, self'. simpl. intros -> -> -> -> -> -> -> -> -> ->.
  split; intros; by simplify_eq.
Qed.

(** ** The array [K] *)

(** X11. For both models, [__init__] stores [2 * D * A**(-1/n)] in
    [self.K], and no sequence of calls of [compute_pde_values] and
    [compute_jacobian] changes it: the Jacobian is always computed with
    the rate factor and the exponent given at construction.  This holds in
    every arithmetic. *)
Theorem stress_constant_is_kept {T : Type} `{Arith T} :
  (∀ (p : Profile.t T) (cf A B2 n m : T) (σ0 : heap T) (cs : list (IceStream.call T)),
     Profile.wf p →
     read2 (IceStream.K (IceStream.__init__ p cf A B2 n m σ0).1)
       (IceStream.run (IceStream.__init__ p cf A B2 n m σ0).1 cs
          (IceStream.__init__ p cf A B2 n m σ0).2)
     = Some (stress_constant (Profile.D p) A n))
  ∧
  (∀ (p : Profile.t T) (cf A W As mu n m : T) (σ0 : heap T)
     (cs : list (LateralIceStream.call T)),
     Profile.wf p →
     read2 (LateralIceStream.K (LateralIceStream.__init__ p cf A W As mu n m σ0).1)
       (LateralIceStream.run (LateralIceStream.__init__ p cf A W As mu n m σ0).1 cs
          (LateralIceStream.__init__ p cf A W As mu n m σ0).2)
     = Some (stress_constant (Profile.D p) A n)).
Proof.
  split.
  - intros p cf A B2 n m σ0 cs Hp.
    apply IceStream_run_K; [by apply IceStream_init_wf|].
    apply read2_Some. unfold IceStream.__init__, alloc. simpl.
    rewrite !lookup_app_l by len.
    rewrite lookup_app_r by lia. by rewrite Nat.sub_diag.
  - intros p cf A W As mu n m σ0 cs Hp.
    apply Lateral_run_K; [by apply Lateral_init_wf|].
    apply read2_Some. unfold LateralIceStream.__init__, alloc. simpl.
    rewrite !lookup_app_l by len.
    rewrite lookup_app_r by len. replace (_ - _)%nat with 0%nat by len. done.
Qed.

(** ** Construction *)

(** X12. For both models, [__init__] on a profile with at least one node
    and fields of length [N] leaves a well-formed instance: the objects it
    binds to [K], [F] and [J] (and [Hf]) are new and distinct, [self.F] is
    [N + 2] zeros and [self.J] is [N + 2] rows of [N] zeros, and every
    object that existed before is as it was.  This holds in every
    arithmetic. *)
Theorem construction_allocates_the_buffers {T : Type} `{Arith T} :
  (∀ (p : Profile.t T) (cf A B2 n m : T) (σ0 : heap T),
     Profile.wf p →
     IceStream.wf (IceStream.__init__ p cf A B2 n m σ0).1
       (IceStream.__init__ p cf A B2 n m σ0).2
     ∧ read1 (IceStream.F (IceStream.__init__ p cf A B2 n m σ0).1)
         (IceStream.__init__ p cf A B2 n m σ0).2
       = Some (replicate (Profile.N p + 2) (lit 0))
     ∧ read2 (IceStream.J (IceStream.__init__ p cf A B2 n m σ0).1)
         (IceStream.__init__ p cf A B2 n m σ0).2
       = Some (replicate (Profile.N p + 2) (replicate (Profile.N p) (lit 0)))
     ∧ NoDup [IceStream.K (IceStream.__init__ p cf A B2 n m σ0).1;
              IceStream.F (IceStream.__init__ p cf A B2 n m σ0).1;
              IceStream.J (IceStream.__init__ p cf A B2 n m σ0).1]
     ∧ Forall (λ l, σ0 !! l = None)
         [IceStream.K (IceStream.__init__ p cf A B2 n m σ0).1;
          IceStream.F (IceStream.__init__ p cf A B2 n m σ0).1;
          IceStream.J (IceStream.__init__ p cf A B2 n m σ0).1]
     ∧ ∀ l, (l < length σ0)%nat →
         (IceStream.__init__ p cf A B2 n m σ0).2 !! l = σ0 !! l)
  ∧
  (∀ (p : Profile.t T) (cf A W As mu n m : T) (σ0 : heap T),
     Profile.wf p →
     LateralIceStream.wf (LateralIceStream.__init__ p cf A W As mu n m σ0).1
       (LateralIceStream.__init__ p cf A W As mu n m σ0).2
     ∧ read1 (LateralIceStream.F (LateralIceStream.__init__ p cf A W As mu n m σ0).1)
         (LateralIceStream.__init__ p cf A W As mu n m σ0).2
       = Some (replicate (Profile.N p + 2) (lit 0))
     ∧ read2 (LateralIceStream.J (LateralIceStream.__init__ p cf A W As mu n m σ0).1)
         (LateralIceStream.__init__ p cf A W As mu n m σ0).2
       = Some (replicate (Profile.N p + 2) (replicate (Profile.N p) (lit 0)))
     ∧ NoDup [LateralIceStream.Hf (LateralIceStream.__init__ p cf A W As mu n m σ0).1;
              LateralIceStream.K (LateralIceStream.__init__ p cf A W As mu n m σ0).1;
              LateralIceStream.F (LateralIceStream.__init__ p cf A W As mu n m σ0).1;
              LateralIceStream.J (LateralIceStream.__init__ p cf A W As mu n m σ0).1]
     ∧ Forall (λ l, σ0 !! l = None)
         [LateralIceStream.Hf (LateralIceStream.__init__ p cf A W As mu n m σ0).1;
          LateralIceStream.K (LateralIceStream.__init__ p cf A W As mu n m σ0).1;
          LateralIceStream.F (LateralIceStream.__init__ p cf A W As mu n m σ0).1;
          LateralIceStream.J (LateralIceStream.__init__ p cf A W As mu n m σ0).1]
     ∧ ∀ l, (l < length σ0)%nat →
         (LateralIceStream.__init__ p cf A W As mu n m σ0).2 !! l = σ0 !! l).
Proof.
  split.
  - intros p cf A B2 n m σ0 Hp. split; [by apply IceStream_init_wf|].
    unfold IceStream.__init__, alloc. simpl. split_and!.
    + apply read1_Some. rewrite !lookup_app_l by len.
      rewrite lookup_app_r by len. replace (_ - _)%nat with 0%nat by len. done.
    + apply read2_Some.
      rewrite lookup_app_r by len. replace (_ - _)%nat with 0%nat by len. done.
    + rewrite !length_app. simpl.
      repeat (apply NoDup_cons; split;
                [rewrite ?elem_of_cons, ?elem_of_nil; lia|]).
      apply NoDup_nil_2.
    + rewrite !length_app. simpl.
      repeat constructor; apply lookup_ge_None; lia.
    + intros l Hl. by rewrite !lookup_app_l by len.
  - intros p cf A W As mu n m σ0 Hp. split; [by apply Lateral_init_wf|].
    unfold LateralIceStream.__init__, alloc. simpl. split_and!.
    + apply read1_Some. rewrite !lookup_app_l by len.
      rewrite lookup_app_r by len. replace (_ - _)%nat with 0%nat by len. done.
    + apply read2_Some.
      rewrite lookup_app_r by len. replace (_ - _)%nat with 0%nat by len. done.
    + rewrite !length_app. simpl.
      repeat (apply NoDup_cons; split;
                [rewrite ?elem_of_cons, ?elem_of_nil; lia|]).
      apply NoDup_nil_2.
    + rewrite !length_app. simpl.
      repeat constructor; apply lookup_ge_None; lia.
    + intros l Hl. by rewrite !lookup_app_l by len.
Qed.

(** ** Exact arithmetic: finite arrays *)

Section finite_arrays.
Local Open Scope R_scope.

Lemma lit_0 : lit 0 = Fin 0.
Proof. simpl. f_equal. cbv [Q2R Qnum Qden]. lra. Qed.
Lemma lit_2 : lit 2 = Fin 2.
Proof. simpl. f_equal. cbv [Q2R Qnum Qden]. lra. Qed.
Lemma lit_5 : lit 5 = Fin 5.
Proof. simpl. f_equal. cbv [Q2R Qnum Qden]. lra. Qed.
Lemma lit_10 : lit 10 = Fin 10.
Proof. simpl. f_equal. cbv [Q2R Qnum Qden]. lra. Qed.

(** A finite array is an array of real numbers. *)
Lemma finite_vec_reals (v : list xr) : finite_vec v → ∃ vr : list R, v = Fin <$> vr.
Proof.
  induction 1 as [|x v Hx _ [vr ->]]; [by exists []|].
  destruct (finite_inv x Hx) as [a ->]. by exists (a :: vr).
Qed.

Lemma finite_rows_reals (A : list (list xr)) :
  Forall finite_vec A → ∃ Ar : list (list R), A = (λ r : list R, Fin <$> r) <$> Ar.
Proof.
  induction 1 as [|r A Hr _ [Ar ->]]; [by exists []|].
  destruct (finite_vec_reals r Hr) as [rr ->]. by exists (rr :: Ar).
Qed.

Lemma column_reals (Ar : list (list R)) (j c : nat) :
  Forall (λ r, length r = c) Ar → (j < c)%nat →
  column j ((λ r : list R, Fin <$> r) <$> Ar)
  = Fin <$> ((λ r : list R, default 0 (r !! j)) <$> Ar).
Proof.
  intros HA Hj. unfold column.
  induction HA as [|r Ar Hr _ IH]; [done|].
  cbn [fmap list_fmap omap list_omap]. rewrite list_lookup_fmap.
  destruct (lookup_lt_is_Some_2 r j) as [x Hx]; [lia|].
  rewrite Hx. simpl. f_equal. apply IH.
Qed.

(** The inner product with a row that has a single non-zero entry. *)
Lemma foldl_indicator (i : nat) (bi : R) (s k : nat) (cr : list R) (acc : R) :
  length cr = k →
  foldl Xr.add (Fin acc)
    (zip_with Xr.mul ((λ t, if decide (i = t) then Fin bi else Fin 0) <$> seq s k)
       (Fin <$> cr))
  = Fin (acc + (if decide (s ≤ i)%nat then bi * default 0 (cr !! (i - s)%nat) else 0)).
Proof.
  revert s cr acc. induction k as [|k IH]; intros s cr acc Hlen.
  - destruct cr; [|done]. simpl. f_equal. destruct (decide _); simpl; lra.
  - destruct cr as [|c cr]; [done|]. simpl in Hlen.
    cbn [seq fmap list_fmap zip_with foldl].
    destruct (decide (i = s)) as [->|Hne].
    + rewrite Xr_mul_Fin, Xr_add_Fin, IH by lia.
      rewrite decide_False by lia. rewrite decide_True by lia.
      rewrite Nat.sub_diag. simpl. f_equal. lra.
    + rewrite Xr_mul_Fin, Xr_add_Fin, IH by lia. f_equal.
      destruct (decide (S s ≤ i)%nat).
      * rewrite decide_True by lia.
        replace (i - s)%nat with (S (i - S s)) by lia. simpl. lra.
      * rewrite decide_False by lia. lra.
Qed.

(** Row [i] of [I .* outer(b, 1s)]: [b[i]] on the diagonal, zero
    elsewhere. *)
Lemma diag_row (br : list R) (i : nat) (bi : R) :
  br !! i = Some bi →
  mm mul (np_eye (length br)) (np_outer (Fin <$> br) (np_ones (length br))) !! i
  = Some ((λ t, if decide (i = t) then Fin bi else Fin 0) <$> seq 0 (length br)).
Proof.
  intros Hi. pose proof (lookup_lt_Some _ _ _ Hi) as Hlt.
  unfold mm, np_eye, np_outer, np_ones.
  rewrite lookup_zip_with, !list_lookup_fmap, lookup_seq_lt by done.
  rewrite Hi. simpl. f_equal.
  unfold vv. rewrite fmap_replicate.
  apply list_eq. intros t.
  rewrite lookup_zip_with, !list_lookup_fmap.
  destruct (decide (t < length br)%nat) as [Ht|Ht].
  - rewrite lookup_seq_lt, lookup_replicate_2 by done. simpl.
    destruct (decide (i = t)); simpl; do 2 f_equal; cbv [Q2R Qnum Qden]; lra.
  - rewrite lookup_seq_ge by lia. done.
Qed.

(** The inner product of finite arrays is a number, and a factor moves
    out of it. *)
Lemma foldl_inner_scale (rr ur : list R) (acc : R) :
  ∃ x, foldl Xr.add (Fin acc) (zip_with Xr.mul (Fin <$> rr) (Fin <$> ur)) = Fin x ∧
       ∀ c, foldl Xr.add (Fin (c * acc))
              (zip_with Xr.mul (sv mul (Fin c) (Fin <$> rr)) (Fin <$> ur))
            = Fin (c * x).
Proof.
  revert ur acc. induction rr as [|r rr IH]; intros [|y ur] acc;
    try (by exists acc).
  cbn [fmap list_fmap sv zip_with foldl]. xr_ops.
  rewrite !Xr_mul_Fin, Xr_add_Fin.
  destruct (IH ur (acc + r * y)) as (x & Hx & Hc).
  exists x. split; [exact Hx|]. intros c.
  rewrite !Xr_mul_Fin, Xr_add_Fin.
  replace (c * acc + c * r * y) with (c * (acc + r * y)) by ring. apply Hc.
Qed.

Lemma inner_scale (row u : list xr) (c : R) :
  finite_vec row → finite_vec u →
  ∃ x, inner row u = Fin x ∧ inner (sv mul (Fin c) row) u = Fin (c * x).
Proof.
  intros Hrow Hu.
  destruct (finite_vec_reals row Hrow) as [rr ->].
  destruct (finite_vec_reals u Hu) as [ur ->].
  destruct (foldl_inner_scale rr ur 0) as (x & Hx & Hc).
  exists x. unfold inner. rewrite lit_0. xr_ops. split; [exact Hx|].
  specialize (Hc c). by rewrite Rmult_0_r in Hc.
Qed.

(** The boundary entries of the residual are linear in [u]. *)
Lemma boundary_entries_linear (D0 DN u : list xr) (b f : R) :
  finite_vec D0 → finite_vec DN → finite_vec u →
  Xr.mul (Fin b) (inner D0 u) = inner (sv mul (Fin b) D0) u ∧
  Xr.mul (Fin b) (Xr.sub (inner DN u) (Fin f))
  = Xr.sub (inner (sv mul (Fin b) DN) u) (Fin (b * f)).
Proof.
  intros H0 HN Hu.
  destruct (inner_scale D0 u b H0 Hu) as (x & -> & ->).
  destruct (inner_scale DN u b HN Hu) as (y & -> & ->).
  split; [done|]. rewrite !Xr_sub_Fin, Xr_mul_Fin. f_equal. ring.
Qed.
End finite_arrays.

(** ** [gradient_product] and its docstring *)

(** X13. [gradient_product(b, A)], the [einsum] that scales row [i] of [A]
    by [b[i]], is the product [(I .* outer(b, 1s)) * A] of its docstring:
    for a finite vector [b] and a finite matrix [A] with as many rows as
    [b] has entries, all of the same length, the two are equal, in exact
    arithmetic. *)
Theorem gradient_product_is_diagonal_product
    (b : list xr) (A : list (list xr)) (c : nat) :
  finite_vec b → Forall finite_vec A → length A = length b →
  Forall (λ r, length r = c) A →
  gradient_product b A = gradient_product_doc b A.
Proof.
  intros Hb HA Hlen Hrows.
  destruct (finite_vec_reals b Hb) as [br ->].
  destruct (finite_rows_reals A HA) as [Ar ->].
  rewrite !length_fmap in Hlen.
  assert (Forall (λ r, length r = c) Ar) as Hrows'.
  { apply Forall_fmap in Hrows. eapply Forall_impl; [exact Hrows|].
    intros r. simpl. by rewrite length_fmap. }
  apply list_eq. intros i.
  unfold gradient_product_doc, np_dot2, gradient_product.
  rewrite lookup_zip_with, !list_lookup_fmap, length_fmap.
  destruct (Ar !! i) as [row|] eqn:Hrow; option_step.
  2:{ rewrite lookup_ge_None_2; [done|].
      unfold mm. rewrite length_zip_with, length_np_eye.
      apply lookup_ge_None in Hrow. lia. }
  destruct (lookup_lt_is_Some_2 br i) as [bi Hbi].
  { apply lookup_lt_Some in Hrow. lia. }
  rewrite Hbi, (diag_row br i bi Hbi). option_step. f_equal.
  pose proof (Forall_lookup_1 _ _ _ _ Hrows' Hrow) as Hlrow. simpl in Hlrow.
  assert (ncols ((λ r : list R, Fin <$> r) <$> Ar) = c) as ->.
  { apply ncols_rows; [|done]. rewrite length_fmap.
    apply lookup_lt_Some in Hrow. lia. }
  apply list_eq. intros j. rewrite !list_lookup_fmap.
  destruct (decide (j < c)%nat) as [Hj|Hj].
  - rewrite lookup_seq_lt by done. simpl.
    destruct (lookup_lt_is_Some_2 row j) as [a Ha]; [lia|].
    rewrite Ha. simpl. f_equal.
    rewrite (column_reals Ar j c) by done.
    unfold inner. rewrite lit_0. xr_ops.
    rewrite foldl_indicator by (rewrite length_fmap; lia).
    rewrite decide_True by lia. rewrite Nat.sub_0_r, list_lookup_fmap, Hrow. simpl.
    rewrite Ha. simpl. f_equal. lra.
  - rewrite lookup_seq_ge by lia. rewrite lookup_ge_None_2 by lia. done.
Qed.

(** ** The boundary rows of the Jacobian and the boundary entries of the
    residual *)

(** X14. For both models, on finite [D], [u], [boundary_value_scale] and
    [fs]: when [compute_pde_values] and then [compute_jacobian] are called
    with the same [u] of length [N], the two boundary entries of the
    residual are the products of the two boundary rows of the Jacobian
    with [u], less [boundary_value_scale * fs] in the last one:
    [F[N] = J[N, :] . u] and [F[N+1] = J[N+1, :] . u - bvs * fs], in exact
    arithmetic. *)
Theorem boundary_rows_reproduce_boundary_residual :
  (∀ (self : IceStream.t xr) (u : list xr) (scale : xr) (σ : heap xr) (b f : R),
     IceStream.wf self σ →
     length u = Profile.N (IceStream.profile self) →
     Forall finite_vec (Profile.D (IceStream.profile self)) → finite_vec u →
     IceStream.boundary_value_scale self = Fin b → IceStream.fs self = Fin f →
     ∃ r σ1 res σ2 Jm rowN rowN1,
       IceStream.compute_pde_values self u scale σ = Some (r, σ1) ∧
       read1 r σ1 = Some res ∧
       IceStream.compute_jacobian self u scale σ1 = Some (IceStream.J self, σ2) ∧
       read2 (IceStream.J self) σ2 = Some Jm ∧
       Jm !! Profile.N (IceStream.profile self) = Some rowN ∧
       Jm !! (Profile.N (IceStream.profile self) + 1)%nat = Some rowN1 ∧
       res !! Profile.N (IceStream.profile self) = Some (inner rowN u) ∧
       res !! (Profile.N (IceStream.profile self) + 1)%nat
       = Some (Xr.sub (inner rowN1 u) (Fin (b * f))))
  ∧
  (∀ (self : LateralIceStream.t xr) (u : list xr) (scale : xr) (σ : heap xr)
     (b f : R),
     LateralIceStream.wf self σ →
     length u = Profile.N (LateralIceStream.profile self) →
     Forall finite_vec (Profile.D (LateralIceStream.profile self)) → finite_vec u →
     LateralIceStream.boundary_value_scale self = Fin b →
     LateralIceStream.fs self = Fin f →
     ∃ r σ1 res σ2 Jm rowN rowN1,
       LateralIceStream.compute_pde_values self u scale false σ
         = Some (LateralIceStream.Residual r, σ1) ∧
       read1 r σ1 = Some res ∧
       LateralIceStream.compute_jacobian self u scale σ1
         = Some (LateralIceStream.J self, σ2) ∧
       read2 (LateralIceStream.J self) σ2 = Some Jm ∧
       Jm !! Profile.N (LateralIceStream.profile self) = Some rowN ∧
       Jm !! (Profile.N (LateralIceStream.profile self) + 1)%nat = Some rowN1 ∧
       res !! Profile.N (LateralIceStream.profile self) = Some (inner rowN u) ∧
       res !! (Profile.N (LateralIceStream.profile self) + 1)%nat
       = Some (Xr.sub (inner rowN1 u) (Fin (b * f)))).
Proof.
  split.
  - intros self u scale σ b f Hwf Hu HD Hfu Hb Hf.
    destruct (IceStream_pde_values_Some self u scale σ Hwf Hu)
      as (d0 & dN & res & H0 & HN & -> & Hc).
    pose proof (IceStream_exec_frame self σ (IceStream.Call_pde_values u scale) Hwf)
      as (Hwf1 & _ & _).
    simpl in Hwf1. rewrite Hc in Hwf1.
    destruct (IceStream_jacobian_Some self u scale _ Hwf1 Hu)
      as (Kv & D0 & DN & HK & HD0 & HDN & Hj).
    pose proof Hwf1 as (Hp & (Kv' & HK' & HlK) & _ & (Jv & HJ & _) & _).
    assert (Kv' = Kv) as -> by congruence.
    apply (last_row _ _ Hp) in HDN.
    destruct (lookup_boundary _ (sv mul (IceStream.boundary_value_scale self) D0)
                (sv mul (IceStream.boundary_value_scale self) DN) _
                (IceStream_length_jacobian_interior self Kv u scale HlK Hu))
      as [HrN HrN1].
    destruct (lookup_boundary _ (mul (IceStream.boundary_value_scale self) d0)
                (mul (IceStream.boundary_value_scale self) (sub dN (IceStream.fs self)))
                _ (IceStream_length_interior self u scale Hp Hu))
      as [HeN HeN1].
    unfold np_dot in H0, HN. rewrite list_lookup_fmap in H0, HN.
    rewrite HD0 in H0. rewrite HDN in HN. simplify_eq/=.
    destruct (boundary_entries_linear D0 DN u b f) as [E0 EN]; try done.
    { by eapply Forall_lookup_1 in HD0. }
    { by eapply Forall_lookup_1 in HDN. }
    eexists _, _, _, _, _, _, _.
    split_and!; [exact Hc|apply read1_returned|exact Hj| |exact HrN|exact HrN1| |].
    + apply read2_Some, lookup_store_eq. by eapply read2_lt.
    + rewrite HeN, Hb. f_equal. exact E0.
    + rewrite HeN1, Hb, Hf. f_equal. exact EN.
  - intros self u scale σ b f Hwf Hu HD Hfu Hb Hf.
    destruct (Lateral_pde_values_Some self u scale σ Hwf Hu)
      as (Hfv & d0 & dN & res & HHf & H0 & HN & -> & Hc).
    pose proof (Lateral_exec_frame self σ
                  (LateralIceStream.Call_pde_values u scale false) Hwf)
      as (Hwf1 & _ & _).
    simpl in Hwf1. rewrite Hc in Hwf1.
    destruct (Lateral_jacobian_Some self u scale _ Hwf1 Hu)
      as (Kv & Hfv1 & D0 & DN & HK & HHf1 & HD0 & HDN & Hj).
    pose proof Hwf as (_ & (Hfv' & HHf' & HlHf) & _).
    assert (Hfv' = Hfv) as -> by congruence.
    pose proof Hwf1 as (Hp & _ & (Kv' & HK' & HlK) & _ & (Jv & HJ & _) & _).
    assert (Kv' = Kv) as -> by congruence.
    apply (last_row _ _ Hp) in HDN.
    pose proof (Lateral_length_Jpde self Kv Hfv1 u scale) as Hint. rewrite HlK in Hint.
    destruct (lookup_boundary _ (sv mul (LateralIceStream.boundary_value_scale self) D0)
                (sv mul (LateralIceStream.boundary_value_scale self) DN) _ Hint)
      as [HrN HrN1].
    destruct (lookup_boundary _ (mul (LateralIceStream.boundary_value_scale self) d0)
                (mul (LateralIceStream.boundary_value_scale self)
                   (sub dN (LateralIceStream.fs self)))
                _ (Lateral_length_interior self Hfv u scale Hp Hu HlHf))
      as [HeN HeN1].
    unfold np_dot in H0, HN. rewrite list_lookup_fmap in H0, HN.
    rewrite HD0 in H0. rewrite HDN in HN. simplify_eq/=.
    destruct (boundary_entries_linear D0 DN u b f) as [E0 EN]; try done.
    { by eapply Forall_lookup_1 in HD0. }
    { by eapply Forall_lookup_1 in HDN. }
    eexists _, _, _, _, _, _, _.
    split_and!; [exact Hc|apply read1_returned|exact Hj| |exact HrN|exact HrN1| |].
    + apply read2_Some, lookup_store_eq. by eapply read2_lt.
    + rewrite HeN, Hb. f_equal. exact E0.
    + rewrite HeN1, Hb, Hf. f_equal. exact EN.
Qed.

(** ** The sliding drag of the unconfined model *)

(** A row of [c * np.eye(k)]. *)
Lemma sv_mul_eye_row (c : R) (i k : nat) :
  sv mul (Fin c) ((λ j : nat, if decide (i = j) then lit 1 else lit 0) <$> seq 0 k)
  = (λ t : nat, if decide (i = t) then Fin c else Fin 0) <$> seq 0 k.
Proof.
  unfold sv. rewrite <- list_fmap_compose. apply list_fmap_ext.
  intros _ t _. simpl.
  destruct (decide (i = t)); simpl; f_equal; cbv [Q2R Qnum Qden]; lra.
Qed.

(** X15. For the unconfined model with finite [scale], [B2] and [u], the
    sliding drag is linear in the velocity and the block [J_drag] of the
    Jacobian reproduces it: [J_drag . u = drag], in exact arithmetic. *)
Theorem sliding_drag_is_linear (self : IceStream.t xr) (u : list xr) (sc b2 : R) :
  IceStream.B2 self = Fin b2 → finite_vec u →
  np_dot (IceStream.J_drag self u (Fin sc)) u = IceStream.drag self u (Fin sc).
Proof.
  intros HB2 Hu. destruct (finite_vec_reals u Hu) as [ur ->].
  unfold IceStream.J_drag, IceStream.drag, np_dot, sm, np_eye.
  rewrite HB2, length_fmap.
  change (mul (Fin sc) (Fin b2)) with (Fin (sc * b2)).
  apply list_eq. intros i. rewrite !list_lookup_fmap, lookup_sv, list_lookup_fmap.
  destruct (ur !! i) as [a|] eqn:Ha; option_step.
  - rewrite lookup_seq_lt by (by eapply lookup_lt_Some). option_step. f_equal.
    change (0 + i)%nat with i. rewrite sv_mul_eye_row.
    unfold inner. rewrite lit_0. xr_ops. rewrite foldl_indicator by done.
    rewrite decide_True by lia. rewrite Nat.sub_0_r, Ha. simpl. f_equal. lra.
  - rewrite lookup_seq_ge by (by apply lookup_ge_None). done.
Qed.

(** ** [J_lateral] is the derivative of the lateral drag *)

Section lateral_derivative.
Local Open Scope R_scope.

Lemma Rpower_2 w : 0 < w → Rpower w 2 = w * w.
Proof.
  intros Hw. replace 2 with (INR 2) by (simpl; lra).
  rewrite Rpower_pow by done. simpl. ring.
Qed.

(** At a node with a finite non-zero velocity the lateral drag is
    [lateral_drag_at] of that velocity. *)
Lemma lateral_drag_entry (self : LateralIceStream.t xr) (u : list xr)
    (sc h w a_ nn a : R) (i : nat) :
  LateralIceStream.W self = Fin w → 0 < w →
  LateralIceStream.A self = Fin a_ → 0 < a_ →
  LateralIceStream.n self = Fin nn → nn ≠ 0 →
  Profile.h (LateralIceStream.profile self) !! i = Some (Fin h) →
  u !! i = Some (Fin a) → a ≠ 0 →
  LateralIceStream.lateral_drag self u (Fin sc) !! i
  = Some (Fin (lateral_drag_at sc h w a_ nn a)).
Proof.
  intros HW Hw HA Ha Hn Hnn Hh Hu Hne.
  assert (0 < a_ * w) as HAw by by apply Rmult_lt_0_compat.
  assert (0 < 5 * Rabs a / (a_ * w)) as Hbase.
  { apply Rdiv_lt_0_compat; [|done]. apply Rabs_pos_lt in Hne. lra. }
  unfold LateralIceStream.lateral_drag, lateral_drag_at. entry.
  rewrite Hu, Hh, HW, HA, Hn. option_step. xr_ops. rewrite lit_2, lit_5.
  rewrite Xr_abs_Fin, !Xr_mul_Fin.
  rewrite (Xr_div_Fin 1 nn), (Xr_div_Fin _ (a_ * w)) by lra.
  rewrite Xr_pow_pos by done.
  unfold Xr.copysign. simpl. rewrite Rabs_R1.
  destruct (Rlt_dec a 0); simpl; (destruct (Req_dec_T w 0); [lra|]);
    simpl; do 2 f_equal; by field.
Qed.

(** The entry of [J_lateral] there. *)
Lemma J_lateral_entry_nonzero (self : LateralIceStream.t xr) (u : list xr)
    (sc h w a_ nn a : R) (i : nat) :
  LateralIceStream.W self = Fin w → 0 < w →
  LateralIceStream.A self = Fin a_ → 0 < a_ →
  LateralIceStream.n self = Fin nn → nn ≠ 0 →
  Profile.h (LateralIceStream.profile self) !! i = Some (Fin h) →
  u !! i = Some (Fin a) → a ≠ 0 →
  LateralIceStream.J_lateral self u (Fin sc) !! i
  = Some (Fin (sc * 10 * h / (nn * a_ * (w * w))
               * Rpower (5 * Rabs a / (a_ * w)) ((1 - nn) / nn))).
Proof.
  intros HW Hw HA Ha Hn Hnn Hh Hu Hne.
  assert (0 < a_ * w) as HAw by by apply Rmult_lt_0_compat.
  assert (0 < 5 * Rabs a / (a_ * w)) as Hbase.
  { apply Rdiv_lt_0_compat; [|done]. apply Rabs_pos_lt in Hne. lra. }
  assert (nn * a_ * (w * w) ≠ 0) as Hden.
  { repeat apply Rmult_integral_contrapositive_currified; lra. }
  destruct (Xr_copysign_one a) as (s & Hs & Hss).
  unfold LateralIceStream.J_lateral. entry.
  rewrite Hu, Hh, HW, HA, Hn. option_step. xr_ops. rewrite lit_2, lit_5, lit_10.
  rewrite Hs, Xr_abs_Fin, Xr_sub_Fin, !Xr_mul_Fin.
  rewrite (Xr_pow_pos w) by done. rewrite Rpower_2 by done. rewrite !Xr_mul_Fin.
  rewrite !Xr_div_Fin by lra.
  rewrite Xr_pow_pos by done. rewrite Xr_mul_Fin.
  do 2 f_equal.
  replace (sc * s * 10 * h * s) with (sc * 10 * h * (s * s)) by ring.
  rewrite Hss. f_equal. f_equal. ring.
Qed.

(** The power rule for the lateral drag. *)
Lemma lateral_drag_at_derivative sc h w a_ nn a :
  0 < w → 0 < a_ → nn ≠ 0 → a ≠ 0 →
  derivable_pt_lim (lateral_drag_at sc h w a_ nn) a
    (sc * 10 * h / (nn * a_ * (w * w))
     * Rpower (5 * Rabs a / (a_ * w)) ((1 - nn) / nn)).
Proof.
  intros Hw Ha Hnn Hne.
  assert (0 < a_ * w) as HAw by by apply Rmult_lt_0_compat.
  assert (0 < 5 / (a_ * w)) as Hk by (apply Rdiv_lt_0_compat; lra).
  assert (0 < Rabs a) as Habs by by apply Rabs_pos_lt.
  apply (derivable_pt_lim_ext (basal_drag_at sc (2 * h / w) 1 nn (5 / (a_ * w)))).
  { intros x. unfold basal_drag_at, lateral_drag_at.
    replace (5 * Rabs x / (a_ * w)) with (5 / (a_ * w) * Rabs x) by (field; lra).
    destruct (Rlt_dec x 0); field; lra. }
  replace (sc * 10 * h / (nn * a_ * (w * w))
           * Rpower (5 * Rabs a / (a_ * w)) ((1 - nn) / nn))
    with (sc * (2 * h / w) * 1 * Rpower (5 / (a_ * w)) (1 / nn) * (1 / nn)
          * Rpower (Rabs a) ((1 - nn) / nn)).
  { by apply basal_drag_at_derivative. }
  replace (5 * Rabs a / (a_ * w)) with (5 / (a_ * w) * Rabs a) by (field; lra).
  rewrite <- (Rpower_mult_distr (5 / (a_ * w))) by done.
  rewrite <- (Rpower_one_plus (5 / (a_ * w)) nn) by done.
  field; lra.
Qed.
End lateral_derivative.

(** X16. For the confined model with positive [W] and [A] and [n] not
    zero, at a node with a finite non-zero velocity: the entry of
    [J_lateral] that [compute_jacobian] computes is the derivative, with
    respect to the velocity at that node, of the entry of the lateral drag
    that [compute_pde_values] computes there, in exact arithmetic. *)
Theorem J_lateral_is_the_derivative (self : LateralIceStream.t xr) (u : list xr)
    (sc h w a_ nn a : R) (i : nat) :
  LateralIceStream.W self = Fin w → (0 < w)%R →
  LateralIceStream.A self = Fin a_ → (0 < a_)%R →
  LateralIceStream.n self = Fin nn → nn ≠ 0%R →
  Profile.h (LateralIceStream.profile self) !! i = Some (Fin h) →
  u !! i = Some (Fin a) → a ≠ 0%R →
  ∃ r,
    LateralIceStream.J_lateral self u (Fin sc) !! i = Some (Fin r) ∧
    (∀ x, x ≠ 0%R →
       LateralIceStream.lateral_drag self (<[i := Fin x]> u) (Fin sc) !! i
       = Some (Fin (lateral_drag_at sc h w a_ nn x))) ∧
    derivable_pt_lim (lateral_drag_at sc h w a_ nn) a r.
Proof.
  intros HW Hw HA Ha Hn Hnn Hh Hu Hne.
  eexists. split_and!.
  - by apply J_lateral_entry_nonzero.
  - intros x Hx. apply lateral_drag_entry; try done.
    apply list_lookup_insert_eq. by eapply lookup_lt_Some.
  - by apply lateral_drag_at_derivative.
Qed.

(** ** The Jacobian of the confined model at a node at rest *)

Section lateral_singular.
Local Open Scope R_scope.

(** At a node with zero velocity and [n > 1], the entry of [J_lateral] is
    an infinity or [nan]. *)
Lemma J_lateral_entry_not_finite
    (self : LateralIceStream.t xr) (u : list xr) (scale hi : xr) (nn : R) (i : nat) :
  LateralIceStream.n self = Fin nn → 1 < nn →
  u !! i = Some (Fin 0) →
  Profile.h (LateralIceStream.profile self) !! i = Some hi →
  ∃ x, LateralIceStream.J_lateral self u scale !! i = Some x ∧
       Xr.is_finite x = false.
Proof.
  intros Hn Hnn Hu Hh. unfold LateralIceStream.J_lateral. entry.
  rewrite Hu, Hh, Hn. option_step. xr_ops.
  eexists. split; [done|]. apply Xr_mul_not_finite.
  rewrite Xr_sub_Fin, Xr_div_Fin by lra.
  apply Xr_pow_zero_neg_not_finite.
  - assert (0 < / nn) by (apply Rinv_0_lt_compat; lra). unfold Rdiv. nra.
  - apply Xr_div_zero_or_nan, Xr_mul_zero_neg. left. by rewrite Xr_abs_Fin, Rabs_R0.
Qed.
End lateral_singular.

(** X17. For the confined model with [m > 1] or [n > 1] (both are [3] by
    default), on a grid with a square [D]: for every [u] of length [N]
    with [u[i] = 0], [compute_jacobian] returns, and the matrix it leaves
    in [self.J] has an entry [(i, i)] that is not finite (an infinity or
    [nan]), whatever the other parameters are. *)
Theorem jacobian_is_not_finite_at_zero_velocity
    (self : LateralIceStream.t xr) (u : list xr) (scale : xr) (σ : heap xr)
    (i : nat) :
  LateralIceStream.wf self σ → square_grid (LateralIceStream.profile self) →
  length u = Profile.N (LateralIceStream.profile self) →
  u !! i = Some (Fin 0) →
  ((∃ mm, LateralIceStream.m self = Fin mm ∧ (1 < mm)%R) ∨
   (∃ nn, LateralIceStream.n self = Fin nn ∧ (1 < nn)%R)) →
  ∃ σ' Jm row z,
    LateralIceStream.compute_jacobian self u scale σ
      = Some (LateralIceStream.J self, σ') ∧
    read2 (LateralIceStream.J self) σ' = Some Jm ∧
    Jm !! i = Some row ∧ row !! i = Some z ∧ Xr.is_finite z = false.
Proof.
  intros Hwf Hsq Hu Hi Hexp.
  destruct (Lateral_jacobian_Some self u scale σ Hwf Hu)
    as (Kv & Hfv & D0 & DN & HK & HHf & H0 & HN & Hc).
  pose proof Hwf as (Hp & (Hfv' & HHf' & HlHf) & (Kv' & HK' & HlK) & _
                     & (Jv & HJ & _) & _).
  assert (Hfv' = Hfv) as -> by congruence. assert (Kv' = Kv) as -> by congruence.
  pose proof Hp as (Hpos & HD & Hh & _).
  pose proof (lookup_lt_Some _ _ _ Hi) as Hlt. rewrite Hu in Hlt.
  set (Jm0 := membrane_jacobian (Profile.D (LateralIceStream.profile self))
                (Profile.h (LateralIceStream.profile self)) (LateralIceStream.n self)
                (LateralIceStream.nu_eps self) Kv u scale).
  destruct (lookup_lt_is_Some_2 Jm0 i) as [row Hrow].
  { unfold Jm0, membrane_jacobian. len. }
  pose proof (rows_membrane_jacobian (LateralIceStream.profile self)
                (LateralIceStream.n self) (LateralIceStream.nu_eps self) Kv u scale
                Hp Hsq) as Hrows.
  pose proof (Forall_lookup_1 _ _ _ _ Hrows Hrow) as Hlrow. simpl in Hlrow.
  destruct (lookup_lt_is_Some_2 row i) as [y Hy]; [lia|].
  destruct (lookup_lt_is_Some_2 Hfv i) as [hf Hhf]; [lia|].
  destruct (lookup_lt_is_Some_2 (Profile.h (LateralIceStream.profile self)) i)
    as [hi Hhi]; [lia|].
  destruct (lookup_lt_is_Some_2 (LateralIceStream.J_basal self Hfv u scale) i)
    as [b Hb].
  { unfold LateralIceStream.J_basal. len. }
  destruct (lookup_lt_is_Some_2 (LateralIceStream.J_lateral self u scale) i)
    as [l Hl].
  { unfold LateralIceStream.J_lateral. len. }
  assert (Xr.is_finite (Xr.sub (Xr.sub y b) l) = false) as Hz.
  { destruct Hexp as [(mm & Hm & Hmm)|(nn & Hn & Hnn)].
    - destruct (J_basal_entry_not_finite self Hfv u scale hf mm i)
        as (b' & Hb' & Hfin); try done.
      assert (b' = b) as -> by congruence.
      by apply Xr_sub_not_finite_l, Xr_sub_not_finite.
    - destruct (J_lateral_entry_not_finite self u scale hi nn i)
        as (l' & Hl' & Hfin); try done.
      assert (l' = l) as -> by congruence.
      by apply Xr_sub_not_finite. }
  eexists _, _, _, _. split_and!; [exact Hc| | | |exact Hz].
  - apply read2_Some, lookup_store_eq. by eapply read2_lt.
  - unfold LateralIceStream.jacobian. rewrite lookup_app_l.
    2:{ rewrite Lateral_length_Jpde. lia. }
    unfold LateralIceStream.Jpde.
    erewrite lookup_diag_sub; [|erewrite lookup_diag_sub; [done|exact Hrow]].
    rewrite Hb, Hl. done.
  - rewrite !list_lookup_alter_eq, Hy. done.
Qed.

(** ** Linear sliding, and the viscosity as a function of the strain rate *)

Section powers.
Local Open Scope R_scope.

(** [x ** 1 = x] for [x >= 0]. *)
Lemma Xr_pow_exp_1 x : 0 <= x → Xr.pow (Fin x) (Fin 1) = Fin x.
Proof.
  intros [Hx|<-].
  - rewrite Xr_pow_pos by done. by rewrite Rpower_1.
  - apply Xr_pow_zero_pos. lra.
Qed.

(** [copysign(1, a) * |a| = a] *)
Lemma Xr_copysign_abs a :
  ∃ s, Xr.copysign (Fin 1) (Fin a) = Fin s ∧ s * s = 1 ∧ s * Rabs a = a.
Proof.
  unfold Xr.copysign. simpl. rewrite Rabs_R1.
  destruct (Rlt_dec a 0); eexists; (split; [done|split; [lra|]]).
  - rewrite Rabs_left by done. lra.
  - rewrite Rabs_right by lra. lra.
Qed.

(** A power with a non-negative exponent is monotone on the non-negative
    numbers. *)
Lemma Xr_pow_mono x y p :
  0 <= x → x <= y → 0 <= p →
  ∃ px py, Xr.pow (Fin x) (Fin p) = Fin px ∧ Xr.pow (Fin y) (Fin p) = Fin py ∧
           0 <= px ∧ px <= py.
Proof.
  intros Hx Hxy Hp. destruct (Req_dec_T p 0) as [->|Hp0].
  - exists 1, 1. rewrite !Xr_pow_exp_0. split_and!; (done || lra).
  - destruct (Rle_lt_or_eq_dec 0 x Hx) as [Hpos|<-].
    + exists (Rpower x p), (Rpower y p).
      rewrite !Xr_pow_pos by lra. split_and!; [done..| |].
      * left. apply exp_pos.
      * apply Rle_Rpower_l; lra.
    + destruct (Xr_pow_nonneg y p) as (py & Hy & Hpy); [lra..|].
      exists 0, py. rewrite Xr_pow_zero_pos by lra. split_and!; (done || lra).
Qed.
End powers.

(** X18. For the confined model with [m = 1] (linear sliding), finite
    [scale], [mu], [As], [u[i]] and [Hf[i] >= 0]: the basal drag at node
    [i] is [scale * mu * As * Hf[i] * u[i]], and the entry of [J_basal] is
    [scale * mu * As * Hf[i]], the same for every velocity, zero
    included, in exact arithmetic. *)
Theorem linear_sliding_has_a_constant_jacobian
    (self : LateralIceStream.t xr) (Hfv u : list xr)
    (sc mu_ as_ hf a : R) (i : nat) :
  LateralIceStream.m self = Fin 1 →
  LateralIceStream.mu self = Fin mu_ → LateralIceStream.As self = Fin as_ →
  Hfv !! i = Some (Fin hf) → (0 <= hf)%R → u !! i = Some (Fin a) →
  LateralIceStream.basal_drag self Hfv u (Fin sc) !! i
  = Some (Fin (sc * mu_ * as_ * hf * a))
  ∧ LateralIceStream.J_basal self Hfv u (Fin sc) !! i
    = Some (Fin (sc * mu_ * as_ * hf)).
Proof.
  intros Hm Hmu HAs HHf Hhf Hu.
  destruct (Xr_copysign_abs a) as (s & Hs & Hss & Hsa).
  unfold LateralIceStream.basal_drag, LateralIceStream.J_basal. entry.
  rewrite Hu, HHf, Hmu, HAs, Hm. option_step. xr_ops.
  rewrite Hs, Xr_abs_Fin, Xr_sub_Fin, !Xr_mul_Fin, !Xr_div_Fin by lra.
  replace (1 / 1)%R with 1%R by lra. replace ((1 - 1) / 1)%R with 0%R by lra.
  rewrite Xr_pow_exp_0.
  rewrite Xr_pow_exp_1 by (apply Rmult_le_pos; [done|apply Rabs_pos]).
  rewrite !Xr_mul_Fin. split; do 2 f_equal.
  - replace (sc * s * mu_ * as_ * (hf * Rabs a))%R
      with (sc * mu_ * as_ * hf * (s * Rabs a))%R by ring.
    by rewrite Hsa.
  - replace (sc * mu_ * s * as_ * (hf * s) / 1 * 1)%R
      with (sc * mu_ * as_ * hf * (s * s))%R by (field; lra).
    rewrite Hss. ring.
Qed.

(** X19. With [n = 1] the viscosity both models compute does not depend
    on the strain rate: at every node it is [A**(-1) / (1 + nu_eps)],
    whatever [Du] is there (infinite or [nan] included), the normalized
    viscosity of the Jacobian is [1 / (1 + nu_eps)], and, for a finite
    strain rate and [nu_eps > 0], the factor [nu_hat] is zero. *)
Theorem newtonian_viscosity_is_constant
    (A eps d : xr) (Du : list xr) (i : nat) :
  Du !! i = Some d →
  viscosity A (Fin 1) eps Du !! i
  = Some (Xr.div (Xr.pow A (Fin (-1))) (Xr.add (Fin 1) eps))
  ∧ normalized_nu (Fin 1) eps Du !! i = Some (Xr.div (Fin 1) (Xr.add (Fin 1) eps))
  ∧ (∀ x e, d = Fin x → eps = Fin e → (0 < e)%R →
       nu_hat (Fin 1) eps Du !! i = Some (Fin 0)).
Proof.
  intros Hd. unfold viscosity, normalized_nu, nu_hat. entry.
  rewrite Hd. option_step. xr_ops.
  rewrite Xr_sub_Fin, !Xr_div_Fin by lra.
  replace (-1 / 1)%R with (-1)%R by lra. replace ((1 - 1) / 1)%R with 0%R by lra.
  rewrite Xr_pow_exp_0. split_and!; [done..|].
  intros x e -> -> He.
  destruct (Xr_pow_nonneg (Rabs x) ((1 + 1) / 1)) as (p & Hp & Hp0);
    [apply Rabs_pos|lra|].
  rewrite Xr_abs_Fin, Xr_add_Fin. rewrite (Xr_div_Fin (1 + 1)) by lra.
  rewrite Hp, Xr_mul_Fin, Xr_add_Fin, Xr_div_Fin by lra.
  do 2 f_equal. unfold Rdiv. ring.
Qed.

(** X20. For [A > 0], [n >= 1] and [nu_eps > 0], the viscosity both models
    compute does not increase with the magnitude of the strain rate: at
    two nodes with finite strain rates [|Du[i]| <= |Du[j]|] it is a
    positive number at both, not larger at [j] than at [i], and at most
    [A**(-1/n) / nu_eps]. *)
Theorem viscosity_is_shear_thinning
    (a nn e d1 d2 : R) (Du : list xr) (i j : nat) :
  (0 < a)%R → (1 <= nn)%R → (0 < e)%R →
  Du !! i = Some (Fin d1) → Du !! j = Some (Fin d2) → (Rabs d1 <= Rabs d2)%R →
  ∃ r1 r2,
    viscosity (Fin a) (Fin nn) (Fin e) Du !! i = Some (Fin r1) ∧
    viscosity (Fin a) (Fin nn) (Fin e) Du !! j = Some (Fin r2) ∧
    (0 < r2)%R ∧ (r2 <= r1)%R ∧ (r1 <= Rpower a (-1 / nn) / e)%R.
Proof.
  intros Ha Hn He Hd1 Hd2 Hle. unfold viscosity. entry.
  rewrite Hd1, Hd2. option_step. xr_ops.
  rewrite Xr_sub_Fin, !Xr_abs_Fin. rewrite !Xr_div_Fin by lra.
  rewrite Xr_pow_pos by done.
  destruct (Xr_pow_mono (Rabs d1) (Rabs d2) ((nn - 1) / nn))
    as (p1 & p2 & -> & -> & Hp1 & Hp12); [apply Rabs_pos|done| |].
  { unfold Rdiv. apply Rmult_le_pos; [lra|]. left. apply Rinv_0_lt_compat. lra. }
  rewrite !Xr_add_Fin. rewrite !Xr_div_Fin by lra.
  eexists _, _. split_and!; [done..| | |].
  - apply Rdiv_lt_0_compat; [apply exp_pos|lra].
  - unfold Rdiv. apply Rmult_le_compat_l; [left; apply exp_pos|].
    apply Rinv_le_contravar; lra.
  - unfold Rdiv. apply Rmult_le_compat_l; [left; apply exp_pos|].
    apply Rinv_le_contravar; lra.
Qed.

(** ** The membrane stress under a change of sign *)

Section odd.
Implicit Types (x y : xr) (v w : list xr).

Lemma Xr_add_neg x y : Xr.add (Xr.neg x) (Xr.neg y) = Xr.neg (Xr.add x y).
Proof. destruct x, y; simpl; try reflexivity. f_equal. lra. Qed.

Lemma Xr_sub_neg x y : Xr.sub (Xr.neg x) (Xr.neg y) = Xr.neg (Xr.sub x y).
Proof. unfold Xr.sub. apply Xr_add_neg. Qed.

Lemma foldl_add_neg (l : list xr) acc :
  foldl Xr.add (Xr.neg acc) (Xr.neg <$> l) = Xr.neg (foldl Xr.add acc l).
Proof.
  revert acc. induction l as [|x l IH]; intros acc; [done|].
  cbn [fmap list_fmap foldl]. by rewrite Xr_add_neg, IH.
Qed.

Lemma inner_neg (r v : list xr) : inner r (Xr.neg <$> v) = Xr.neg (inner r v).
Proof.
  unfold inner. rewrite lit_0. xr_ops.
  replace (zip_with Xr.mul r (Xr.neg <$> v)) with (Xr.neg <$> zip_with Xr.mul r v).
  - rewrite <- foldl_add_neg. f_equal. simpl. f_equal. lra.
  - revert v. induction r as [|a r IH]; intros [|b v]; try done.
    cbn [fmap list_fmap zip_with]. by rewrite IH, Xr_mul_neg_r.
Qed.

Lemma np_dot_neg (M : list (list xr)) v :
  np_dot M (Xr.neg <$> v) = Xr.neg <$> np_dot M v.
Proof.
  unfold np_dot. rewrite <- list_fmap_compose. apply list_fmap_ext.
  intros _ r _. apply inner_neg.
Qed.

Lemma np_abs_neg v : np_abs (Xr.neg <$> v) = np_abs v.
Proof.
  unfold np_abs. rewrite <- list_fmap_compose. apply list_fmap_ext.
  intros _ x _. apply Xr_abs_neg.
Qed.

Lemma vv_mul_neg_r v w : vv mul v (Xr.neg <$> w) = Xr.neg <$> vv mul v w.
Proof.
  unfold vv. revert w. induction v as [|a v IH]; intros [|b w]; try done.
  cbn [fmap list_fmap zip_with]. xr_ops. by rewrite IH, Xr_mul_neg_r.
Qed.

Lemma sv_mul_neg c v : sv mul c (Xr.neg <$> v) = Xr.neg <$> sv mul c v.
Proof.
  unfold sv. rewrite <- !list_fmap_compose. apply list_fmap_ext.
  intros _ x _. apply Xr_mul_neg_r.
Qed.

Lemma vv_sub_neg v w :
  vv sub (Xr.neg <$> v) (Xr.neg <$> w) = Xr.neg <$> vv sub v w.
Proof.
  unfold vv. revert w. induction v as [|a v IH]; intros [|b w]; try done.
  cbn [fmap list_fmap zip_with]. xr_ops. by rewrite IH, Xr_sub_neg.
Qed.

Lemma viscosity_even A n eps v :
  viscosity A n eps (Xr.neg <$> v) = viscosity A n eps v.
Proof. unfold viscosity. by rewrite np_abs_neg. Qed.

Lemma membrane_stress_neg (Dm : list (list xr)) h A n eps u scale :
  membrane_stress Dm h (viscosity A n eps (np_dot Dm (Xr.neg <$> u)))
    (np_dot Dm (Xr.neg <$> u)) scale
  = Xr.neg <$> membrane_stress Dm h (viscosity A n eps (np_dot Dm u)) (np_dot Dm u) scale.
Proof.
  unfold membrane_stress.
  by rewrite np_dot_neg, viscosity_even, vv_mul_neg_r, np_dot_neg, sv_mul_neg.
Qed.
End odd.

(** X21. In exact arithmetic, for all operands (special values
    included), the membrane stress is odd in the velocity, the viscosity
    being even.  For the unconfined model the interior of the residual at
    [-u] is the driving stress plus the opposite of [membrane - drag] at
    [u]; for the confined model the membrane stress at [-u] is the
    opposite of the membrane stress at [u]. *)
Theorem membrane_stress_is_odd :
  (∀ (self : IceStream.t xr) (u : list xr) (scale : xr),
     let p := IceStream.profile self in
     let Du := np_dot (Profile.D p) u in
     let nu := viscosity (IceStream.A self) (IceStream.n self) (IceStream.nu_eps self) Du in
     IceStream.interior self (Xr.neg <$> u) scale
     = vv add
         (Xr.neg <$> vv sub (membrane_stress (Profile.D p) (Profile.h p) nu Du scale)
                            (IceStream.drag self u scale))
         (driving_stress (IceStream.rho_ice self) (IceStream.g self) (Profile.h p)
            (Profile.alpha p) scale))
  ∧
  (∀ (self : LateralIceStream.t xr) (u : list xr) (scale : xr),
     LateralIceStream.membrane self (Xr.neg <$> u) scale
     = Xr.neg <$> LateralIceStream.membrane self u scale).
Proof.
  split.
  - intros self u scale p Du nu. unfold IceStream.interior, IceStream.drag.
    fold p. by rewrite membrane_stress_neg, sv_mul_neg, vv_sub_neg.
  - intros self u scale. unfold LateralIceStream.membrane.
    apply membrane_stress_neg.
Qed.

(** ** The confined model at rest, and the sign of the drag *)

Section rest.
Local Open Scope R_scope.

(** The membrane stress at zero velocity. *)
Lemma membrane_stress_at_rest (Dm : list (list xr)) (h : list xr) (a nn e sc : R) (k : nat) :
  length Dm = k → length h = k → Forall finite_vec Dm → finite_vec h →
  0 < a → 1 <= nn → 0 < e →
  membrane_stress Dm h
    (viscosity (Fin a) (Fin nn) (Fin e) (np_dot Dm (replicate k (Fin 0))))
    (np_dot Dm (replicate k (Fin 0))) (Fin sc)
  = replicate k (Fin 0).
Proof.
  intros HD Hh HDfin Hhfin Ha Hn He. unfold membrane_stress.
  rewrite np_dot_zeros, HD by done.
  destruct (viscosity_zeros a nn e k) as [c ->]; try done.
  set (hnu := vv mul h _).
  assert (finite_vec hnu) as Hfin
    by (apply finite_vv_mul; [done|apply finite_replicate]).
  assert (length hnu = k) as Hlen.
  { unfold hnu. rewrite length_vv, length_replicate. lia. }
  rewrite <- Hlen at 1. rewrite vv_mul_zeros, Hlen by done.
  rewrite <- HD at 1. rewrite np_dot_zeros, HD by done.
  xr_ops. rewrite lit_2, Xr_mul_Fin. apply sv_mul_zeros.
Qed.

(** The basal and the lateral drag at zero velocity. *)
Lemma basal_drag_at_rest (self : LateralIceStream.t xr) (Hfv : list xr)
    (sc mu_ as_ mm : R) :
  finite_vec Hfv →
  LateralIceStream.mu self = Fin mu_ → LateralIceStream.As self = Fin as_ →
  LateralIceStream.m self = Fin mm → 0 < mm →
  LateralIceStream.basal_drag self Hfv (replicate (length Hfv) (Fin 0)) (Fin sc)
  = replicate (length Hfv) (Fin 0).
Proof.
  intros HHf Hmu HAs Hm Hmm. apply list_eq. intros i.
  unfold LateralIceStream.basal_drag. entry. rewrite Hmu, HAs, Hm.
  destruct (decide (i < length Hfv)%nat) as [Hi|Hi].
  - rewrite lookup_replicate_2 by done.
    destruct (lookup_lt_is_Some_2 Hfv i Hi) as [x Hx].
    pose proof (Forall_lookup_1 _ _ _ _ HHf Hx) as Hfin. simpl in Hfin.
    destruct (finite_inv x Hfin) as [hf ->].
    destruct (Xr_copysign_one 0) as (s & Hs & _).
    rewrite Hx. option_step. xr_ops.
    rewrite Hs, Xr_abs_Fin, Rabs_R0, !Xr_mul_Fin, Xr_div_Fin by lra.
    rewrite Rmult_0_r, Xr_pow_zero_pos by (apply Rdiv_lt_0_compat; lra).
    by rewrite Xr_mul_Fin, Rmult_0_r.
  - rewrite (lookup_ge_None_2 (replicate _ _)) by (rewrite length_replicate; lia).
    by destruct (Hfv !! i).
Qed.

Lemma lateral_drag_at_rest (self : LateralIceStream.t xr) (sc w a_ nn : R) :
  finite_vec (Profile.h (LateralIceStream.profile self)) →
  LateralIceStream.W self = Fin w → 0 < w →
  LateralIceStream.A self = Fin a_ → 0 < a_ →
  LateralIceStream.n self = Fin nn → 0 < nn →
  LateralIceStream.lateral_drag self
    (replicate (length (Profile.h (LateralIceStream.profile self))) (Fin 0)) (Fin sc)
  = replicate (length (Profile.h (LateralIceStream.profile self))) (Fin 0).
Proof.
  intros Hhfin HW Hw HA Ha Hn Hnn. apply list_eq. intros i.
  assert (0 < a_ * w) as HAw by by apply Rmult_lt_0_compat.
  unfold LateralIceStream.lateral_drag. entry. rewrite HW, HA, Hn.
  set (h := Profile.h (LateralIceStream.profile self)) in *.
  destruct (decide (i < length h)%nat) as [Hi|Hi].
  - rewrite lookup_replicate_2 by done.
    destruct (lookup_lt_is_Some_2 h i Hi) as [x Hx].
    pose proof (Forall_lookup_1 _ _ _ _ Hhfin Hx) as Hfin. simpl in Hfin.
    destruct (finite_inv x Hfin) as [hi ->].
    destruct (Xr_copysign_one 0) as (s & Hs & _).
    rewrite Hx. option_step. xr_ops. rewrite lit_2, lit_5.
    rewrite Hs, Xr_abs_Fin, Rabs_R0, !Xr_mul_Fin, !Xr_div_Fin by lra.
    replace (5 * 0 / (a_ * w)) with 0 by (field; lra).
    rewrite Xr_pow_zero_pos by (apply Rdiv_lt_0_compat; lra).
    by rewrite Xr_mul_Fin, Rmult_0_r.
  - rewrite (lookup_ge_None_2 (replicate _ _)) by (rewrite length_replicate; lia).
    rewrite (lookup_ge_None_2 h) by lia. done.
Qed.

Lemma vv_add_replicate_zeros (k : nat) :
  vv add (replicate k (Fin 0)) (replicate k (Fin 0)) = replicate k (Fin 0).
Proof.
  unfold vv. induction k as [|k IH]; [done|].
  cbn [replicate zip_with]. rewrite IH. xr_ops. by rewrite Xr_add_Fin, Rplus_0_r.
Qed.

Lemma Lateral_interior_at_rest (self : LateralIceStream.t xr) (Hfv : list xr)
    (sc a_ nn e w mu_ as_ mm : R) :
  Profile.wf (LateralIceStream.profile self) →
  Forall finite_vec (Profile.D (LateralIceStream.profile self)) →
  finite_vec (Profile.h (LateralIceStream.profile self)) →
  length Hfv = Profile.N (LateralIceStream.profile self) → finite_vec Hfv →
  LateralIceStream.A self = Fin a_ → 0 < a_ →
  LateralIceStream.n self = Fin nn → 1 <= nn →
  LateralIceStream.nu_eps self = Fin e → 0 < e →
  LateralIceStream.W self = Fin w → 0 < w →
  LateralIceStream.mu self = Fin mu_ → LateralIceStream.As self = Fin as_ →
  LateralIceStream.m self = Fin mm → 0 < mm →
  LateralIceStream.interior self Hfv
    (replicate (Profile.N (LateralIceStream.profile self)) (Fin 0)) (Fin sc)
  = LateralIceStream.Td self (Fin sc).
Proof.
  intros (HN & HD & Hh & Halpha & Hdepth) HDfin Hhfin HlHf HHffin
    HA Ha Hn Hnn He Hee HW Hw Hmu HAs Hm Hmm.
  unfold LateralIceStream.interior, LateralIceStream.membrane.
  rewrite HA, Hn, He.
  rewrite membrane_stress_at_rest by done.
  rewrite <- HlHf at 2.
  rewrite (basal_drag_at_rest self Hfv sc mu_ as_ mm), HlHf by done.
  rewrite <- Hh at 3.
  rewrite (lateral_drag_at_rest self sc w a_ nn), Hh by (done || lra).
  rewrite vv_add_replicate_zeros.
  set (t := LateralIceStream.Td self (Fin sc)).
  assert (length t = Profile.N (LateralIceStream.profile self)) as <-.
  { unfold t, LateralIceStream.Td, driving_stress. len. }
  apply vv_add_zeros.
Qed.
End rest.

(** X22. For the confined model on finite fields, with [A], [W], [m]
    positive, [n >= 1] and [nu_eps > 0]: at zero velocity
    [compute_pde_values] returns the driving stress [Td] in the first [N]
    entries, the membrane stress and both drags being zero, and
    [boundary_value_scale * 0] and [boundary_value_scale * (0 - fs)] in
    the last two, in exact arithmetic. *)
Theorem Lateral_residual_at_rest (self : LateralIceStream.t xr) (σ : heap xr)
    (Hfv : list xr) (sc a_ nn e w mu_ as_ mm b f : R) :
  LateralIceStream.wf self σ →
  Forall finite_vec (Profile.D (LateralIceStream.profile self)) →
  finite_vec (Profile.h (LateralIceStream.profile self)) →
  read1 (LateralIceStream.Hf self) σ = Some Hfv → finite_vec Hfv →
  LateralIceStream.A self = Fin a_ → (0 < a_)%R →
  LateralIceStream.n self = Fin nn → (1 <= nn)%R →
  LateralIceStream.nu_eps self = Fin e → (0 < e)%R →
  LateralIceStream.W self = Fin w → (0 < w)%R →
  LateralIceStream.mu self = Fin mu_ → LateralIceStream.As self = Fin as_ →
  LateralIceStream.m self = Fin mm → (0 < mm)%R →
  LateralIceStream.boundary_value_scale self = Fin b →
  LateralIceStream.fs self = Fin f →
  ∃ r σ',
    LateralIceStream.compute_pde_values self
      (replicate (Profile.N (LateralIceStream.profile self)) (Fin 0)) (Fin sc) false σ
    = Some (LateralIceStream.Residual r, σ') ∧
    read1 r σ'
    = Some (LateralIceStream.Td self (Fin sc) ++ [Fin (b * 0); Fin (b * (0 - f))]).
Proof.
  intros Hwf HDfin Hhfin HHf HHffin HA Ha Hn Hnn He Hee HW Hw Hmu HAs Hm Hmm Hb Hf.
  pose proof Hwf as (Hp & (Hfv' & HHf' & HlHf) & _). pose proof Hp as (HN & HD & _).
  assert (Hfv' = Hfv) as -> by congruence.
  destruct (Lateral_pde_values_Some self
              (replicate (Profile.N (LateralIceStream.profile self)) (Fin 0))
              (Fin sc) σ Hwf)
    as (Hfv1 & d0 & dN & res & HHf1 & H0 & HdN & -> & Hc);
    [by rewrite length_replicate|].
  assert (Hfv1 = Hfv) as -> by congruence.
  rewrite np_dot_zeros, HD in H0, HdN by done.
  apply lookup_replicate in H0 as [-> _]. apply lookup_replicate in HdN as [-> _].
  erewrite Lateral_interior_at_rest in Hc by done.
  rewrite Hb, Hf in Hc. eexists _, _. split; [exact Hc|].
  apply read1_Some. rewrite lookup_app_r by (rewrite length_store; lia).
  by rewrite length_store, Nat.sub_diag.
Qed.

(** X23. For the confined model with positive [scale], [mu], [As], [W],
    [A], [Hf[i]] and [h[i]], and [m], [n] not zero: at a node with a
    finite non-zero velocity the basal and the lateral drag are numbers
    with the sign of the velocity, in exact arithmetic; the residual
    subtracts them from the membrane stress. *)
Theorem drag_opposes_motion (self : LateralIceStream.t xr) (Hfv u : list xr)
    (sc mu_ as_ mm hf h w a_ nn a : R) (i : nat) :
  (0 < sc)%R →
  LateralIceStream.mu self = Fin mu_ → (0 < mu_)%R →
  LateralIceStream.As self = Fin as_ → (0 < as_)%R →
  LateralIceStream.m self = Fin mm → mm ≠ 0%R →
  LateralIceStream.W self = Fin w → (0 < w)%R →
  LateralIceStream.A self = Fin a_ → (0 < a_)%R →
  LateralIceStream.n self = Fin nn → nn ≠ 0%R →
  Hfv !! i = Some (Fin hf) → (0 < hf)%R →
  Profile.h (LateralIceStream.profile self) !! i = Some (Fin h) → (0 < h)%R →
  u !! i = Some (Fin a) → a ≠ 0%R →
  ∃ rb rl,
    LateralIceStream.basal_drag self Hfv u (Fin sc) !! i = Some (Fin rb) ∧
    LateralIceStream.lateral_drag self u (Fin sc) !! i = Some (Fin rl) ∧
    (0 < rb * a)%R ∧ (0 < rl * a)%R.
Proof.
  intros Hsc Hmu Hmu0 HAs HAs0 Hm Hmm HW Hw HA Ha Hn Hnn HHf Hhf Hh Hh0 Hu Hne.
  eexists _, _. split_and!.
  - by apply (basal_drag_entry self Hfv u sc mu_ as_ mm hf a i).
  - by apply (lateral_drag_entry self u sc h w a_ nn a i).
  - unfold basal_drag_at.
    pose proof (exp_pos (1 / mm * ln (hf * Rabs a))) as Hpow.
    fold (Rpower (hf * Rabs a) (1 / mm)) in Hpow.
    destruct (Rlt_dec a 0).
    + assert (0 < sc * mu_ * as_ * Rpower (hf * Rabs a) (1 / mm))%R
        by (repeat apply Rmult_lt_0_compat; done). nra.
    + assert (0 < sc * mu_ * as_ * Rpower (hf * Rabs a) (1 / mm))%R
        by (repeat apply Rmult_lt_0_compat; done). nra.
  - unfold lateral_drag_at.
    pose proof (exp_pos (1 / nn * ln (5 * Rabs a / (a_ * w)))) as Hpow.
    fold (Rpower (5 * Rabs a / (a_ * w)) (1 / nn)) in Hpow.
    assert (0 < sc * 2 * h / w * Rpower (5 * Rabs a / (a_ * w)) (1 / nn))%R as Hc.
    { apply Rmult_lt_0_compat; [|done]. apply Rdiv_lt_0_compat; [|done].
      repeat apply Rmult_lt_0_compat; (done || lra). }
    destruct (Rlt_dec a 0).
    + replace (sc * 2 * -1 * h / w * Rpower (5 * Rabs a / (a_ * w)) (1 / nn) * a)%R
        with (sc * 2 * h / w * Rpower (5 * Rabs a / (a_ * w)) (1 / nn) * (- a))%R
        by (field; lra). nra.
    + replace (sc * 2 * 1 * h / w * Rpower (5 * Rabs a / (a_ * w)) (1 / nn) * a)%R
        with (sc * 2 * h / w * Rpower (5 * Rabs a / (a_ * w)) (1 / nn) * a)%R
        by (field; lra). nra.
Qed.

(** ** The flotation thickness above the floor *)

Lemma Xr_leb_not_ltb x y : Xr.leb y x = true → Xr.ltb x y = false.
Proof.
  destruct x as [a| | |], y as [b| | |]; simpl; try done.
  destruct (Rle_dec b a), (Rlt_dec a b); try done. lra.
Qed.

(** The array [__init__] stores in [self.Hf]. *)
Lemma Lateral_init_Hf (p : Profile.t xr) cf A W As mu n m (σ0 : heap xr) :
  read1 (LateralIceStream.Hf (LateralIceStream.__init__ p cf A W As mu n m σ0).1)
        (LateralIceStream.__init__ p cf A W As mu n m σ0).2
  = Some (LateralIceStream.floor_flotation (LateralIceStream.raw_flotation p)).
Proof.
  apply read1_Some. unfold LateralIceStream.__init__, alloc. simpl.
  rewrite !lookup_app_l by len.
  rewrite lookup_app_r by lia. by rewrite Nat.sub_diag.
Qed.

(** X24. For the confined model, the floor at construction leaves every
    entry that is at least [0.01] as it is, [+inf] included, and it leaves
    [nan] as it is: [nan < 0.01] is false.  [self.Hf[i]] is then the
    unfloored value [h[i] - rho_water / rho_ice * depth[i]]. *)
Theorem flotation_above_the_floor_is_kept
    (p : Profile.t xr) (cf A W As mu n m : xr) (σ0 : heap xr) (i : nat) (raw : xr) :
  LateralIceStream.raw_flotation p !! i = Some raw →
  Xr.leb (lit 0.01) raw = true ∨ Xr.is_nan raw = true →
  ∃ Hfv,
    read1 (LateralIceStream.Hf (LateralIceStream.__init__ p cf A W As mu n m σ0).1)
          (LateralIceStream.__init__ p cf A W As mu n m σ0).2 = Some Hfv ∧
    Hfv !! i = Some raw.
Proof.
  intros Hraw Hcase. eexists. split; [apply Lateral_init_Hf|].
  unfold LateralIceStream.floor_flotation. rewrite list_lookup_fmap, Hraw.
  option_step. xr_ops. f_equal.
  destruct Hcase as [Hge|Hnan].
  - by rewrite Xr_leb_not_ltb.
  - by destruct raw.
Qed.

(** ** The numerical Jacobian *)

Section numerical.
Context {T : Type} `{Arith T}.

(** Filling the residual buffer depends on its length only. *)
Lemma fill_F_any_buffer (Fb1 Fb2 interior Du : list T) (bvs fs : T) :
  length Fb1 = length Fb2 →
  fill_F Fb1 interior Du bvs fs = fill_F Fb2 interior Du bvs fs.
Proof.
  intros Hlen. unfold fill_F. rewrite Hlen.
  case_guard; simpl; [|done]. case_guard; simpl; [|done].
  destruct (Du !! 0%nat) as [d0|]; simpl; [|done].
  destruct (last Du) as [dN|]; simpl; [|done].
  f_equal. rewrite !(set_buffer _ interior _ _ (length interior)) by lia. done.
Qed.

(** One evaluation of [compute_pde_values] from two states of the same
    instance: both raise, or both return the same array. *)
Lemma IceStream_pde_values_any_state (self : IceStream.t T) x scale (σ1 σ2 : heap T) :
  IceStream.wf self σ1 → IceStream.wf self σ2 →
  match IceStream.compute_pde_values self x scale σ1,
        IceStream.compute_pde_values self x scale σ2 with
  | Some (r1, σ1'), Some (r2, σ2') =>
      read1 r1 σ1' = read1 r2 σ2' ∧ IceStream.wf self σ1' ∧ IceStream.wf self σ2'
  | None, None => True
  | _, _ => False
  end.
Proof.
  intros Hwf1 Hwf2.
  pose proof (IceStream_exec_frame self σ1 (IceStream.Call_pde_values x scale) Hwf1)
    as (Hwf1' & _).
  pose proof (IceStream_exec_frame self σ2 (IceStream.Call_pde_values x scale) Hwf2)
    as (Hwf2' & _).
  simpl in Hwf1', Hwf2'.
  destruct Hwf1 as (_ & _ & (Fv1 & HF1 & Hl1) & _).
  destruct Hwf2 as (_ & _ & (Fv2 & HF2 & Hl2) & _).
  unfold IceStream.compute_pde_values in *. rewrite HF1 in *. rewrite HF2 in *.
  simpl in *.
  rewrite (fill_F_any_buffer Fv1 Fv2) in * by lia.
  destruct (fill_F Fv2 _ _ _ _) as [F'|]; simpl in *; [|done].
  unfold alloc in *. rewrite !length_store, !read1_returned. done.
Qed.

Lemma Lateral_pde_values_any_state (self : LateralIceStream.t T) x scale
    (σ1 σ2 : heap T) :
  LateralIceStream.wf self σ1 → LateralIceStream.wf self σ2 →
  read1 (LateralIceStream.Hf self) σ1 = read1 (LateralIceStream.Hf self) σ2 →
  match LateralIceStream.compute_pde_values self x scale false σ1,
        LateralIceStream.compute_pde_values self x scale false σ2 with
  | Some (LateralIceStream.Residual r1, σ1'),
    Some (LateralIceStream.Residual r2, σ2') =>
      read1 r1 σ1' = read1 r2 σ2' ∧
      LateralIceStream.wf self σ1' ∧ LateralIceStream.wf self σ2' ∧
      read1 (LateralIceStream.Hf self) σ1' = read1 (LateralIceStream.Hf self) σ2'
  | None, None => True
  | _, _ => False
  end.
Proof.
  intros Hwf1 Hwf2 HHf.
  pose proof (Lateral_exec_frame self σ1
                (LateralIceStream.Call_pde_values x scale false) Hwf1)
    as (Hwf1' & _ & Hfr1).
  pose proof (Lateral_exec_frame self σ2
                (LateralIceStream.Call_pde_values x scale false) Hwf2)
    as (Hwf2' & _ & Hfr2).
  simpl in Hwf1', Hwf2', Hfr1, Hfr2.
  pose proof Hwf1 as (_ & (Hfv1 & HHf1 & _) & _ & (Fv1 & HF1 & Hl1) & (Jv1 & HJ1 & _)
                      & HHfF & _).
  pose proof Hwf2 as (_ & (Hfv2 & HHf2 & _) & _ & (Fv2 & HF2 & Hl2) & (Jv2 & HJ2 & _) & _).
  assert (Hfv2 = Hfv1) as -> by congruence.
  pose proof (read1_read2_ne _ _ _ _ _ HHf1 HJ1) as HHfJ.
  assert (∀ σ σ', (∀ l, (l < length σ)%nat → l ≠ LateralIceStream.F self →
                         l ≠ LateralIceStream.J self → σ' !! l = σ !! l) →
            read1 (LateralIceStream.Hf self) σ = Some Hfv1 →
            read1 (LateralIceStream.Hf self) σ' = Some Hfv1) as Hkeep.
  { intros σ σ' Hfr Hr. apply read1_Some. rewrite Hfr; [by apply read1_Some| |done..].
    by eapply read1_lt. }
  unfold LateralIceStream.compute_pde_values in *.
  rewrite HHf1, HF1 in *. rewrite HHf2, HF2 in *. simpl in *.
  rewrite (fill_F_any_buffer Fv1 Fv2) in * by lia.
  destruct (fill_F Fv2 _ _ _ _) as [F'|]; simpl in *; [|done].
  unfold alloc in *. rewrite !length_store, !read1_returned.
  split_and!; [done..|].
  rewrite (Hkeep _ _ Hfr1 HHf1), (Hkeep _ _ Hfr2 HHf2). done.
Qed.

(** A residual call writes [self.F] and the new object only. *)
Lemma IceStream_pde_values_frame (self : IceStream.t T) x scale (σ σ' : heap T) r :
  IceStream.compute_pde_values self x scale σ = Some (r, σ') →
  (length σ ≤ length σ')%nat ∧
  ∀ l, (l < length σ)%nat → l ≠ IceStream.F self → σ' !! l = σ !! l.
Proof.
  intros Hc. apply IceStream_pde_values_inv in Hc as (Fv & res & _ & _ & -> & ->).
  split; [rewrite length_app, length_store; lia|].
  intros l Hl HlF. rewrite lookup_app_l by (rewrite length_store; lia).
  by rewrite lookup_store_ne.
Qed.

Lemma Lateral_pde_values_frame (self : LateralIceStream.t T) x scale rc
    (σ σ' : heap T) out :
  LateralIceStream.compute_pde_values self x scale rc σ = Some (out, σ') →
  (length σ ≤ length σ')%nat ∧
  ∀ l, (l < length σ)%nat → l ≠ LateralIceStream.F self → σ' !! l = σ !! l.
Proof.
  intros Hc. apply Lateral_pde_values_inv in Hc
    as [(c & -> & ->)|(Fv & res & _ & _ & -> & ->)]; [done|].
  split; [rewrite length_app, length_store; lia|].
  intros l Hl HlF. rewrite lookup_app_l by (rewrite length_store; lia).
  by rewrite lookup_store_ne.
Qed.

(** The evaluations of a run of the library write [self.F] and new objects
    only, and keep the instance well formed. *)
Lemma IceStream_evaluate_frame (self : IceStream.t T) (s : nd_run T) (σ : heap T) :
  IceStream.wf self σ →
  IceStream.wf self (IceStream.evaluate self s σ).2 ∧
  (length σ ≤ length (IceStream.evaluate self s σ).2)%nat ∧
  ∀ l, (l < length σ)%nat → l ≠ IceStream.F self →
       (IceStream.evaluate self s σ).2 !! l = σ !! l.
Proof.
  revert σ. induction s as [result|x k IH]; intros σ Hwf; simpl; [by auto|].
  pose proof (IceStream_exec_frame self σ (IceStream.Call_pde_values x (lit 0.01)) Hwf)
    as (Hwf' & _).
  simpl in Hwf'.
  destruct (IceStream.compute_pde_values self x (lit 0.01) σ) as [[r σ']|] eqn:Hc;
    [|by apply IH].
  destruct (IceStream_pde_values_frame self x _ σ σ' r Hc) as (Hlen & Hfr).
  destruct (IH (read1 r σ') σ' Hwf') as (Hwf'' & Hlen' & Hfr').
  split_and!; [done|lia|].
  intros l Hl HlF. rewrite Hfr' by (done || lia). by apply Hfr.
Qed.

Lemma Lateral_evaluate_frame (self : LateralIceStream.t T) (s : nd_run T)
    (σ : heap T) :
  LateralIceStream.wf self σ →
  LateralIceStream.wf self (LateralIceStream.evaluate self s σ).2 ∧
  (length σ ≤ length (LateralIceStream.evaluate self s σ).2)%nat ∧
  ∀ l, (l < length σ)%nat → l ≠ LateralIceStream.F self →
       (LateralIceStream.evaluate self s σ).2 !! l = σ !! l.
Proof.
  revert σ. induction s as [result|x k IH]; intros σ Hwf; simpl; [by auto|].
  pose proof (Lateral_exec_frame self σ
                (LateralIceStream.Call_pde_values x (lit 0.01) false) Hwf)
    as (Hwf' & _).
  simpl in Hwf'.
  destruct (LateralIceStream.compute_pde_values self x (lit 0.01) false σ)
    as [[[r|c] σ']|] eqn:Hc; [|by apply IH..].
  destruct (Lateral_pde_values_frame self x _ _ σ σ' _ Hc) as (Hlen & Hfr).
  destruct (IH (read1 r σ') σ' Hwf') as (Hwf'' & Hlen' & Hfr').
  split_and!; [done|lia|].
  intros l Hl HlF. rewrite Hfr' by (done || lia). by apply Hfr.
Qed.

(** The result of a run of the library is the same from two states of the
    same instance. *)
Lemma IceStream_evaluate_any_state (self : IceStream.t T) (s : nd_run T)
    (σ1 σ2 : heap T) :
  IceStream.wf self σ1 → IceStream.wf self σ2 →
  (IceStream.evaluate self s σ1).1 = (IceStream.evaluate self s σ2).1.
Proof.
  revert σ1 σ2. induction s as [result|x k IH]; intros σ1 σ2 Hwf1 Hwf2; simpl; [done|].
  pose proof (IceStream_pde_values_any_state self x (lit 0.01) σ1 σ2 Hwf1 Hwf2) as Hany.
  destruct (IceStream.compute_pde_values self x (lit 0.01) σ1) as [[r1 σ1']|],
           (IceStream.compute_pde_values self x (lit 0.01) σ2) as [[r2 σ2']|];
    try done.
  - destruct Hany as (-> & Hwf1' & Hwf2'). by apply IH.
  - by apply IH.
Qed.

Lemma Lateral_evaluate_any_state (self : LateralIceStream.t T) (s : nd_run T)
    (σ1 σ2 : heap T) :
  LateralIceStream.wf self σ1 → LateralIceStream.wf self σ2 →
  read1 (LateralIceStream.Hf self) σ1 = read1 (LateralIceStream.Hf self) σ2 →
  (LateralIceStream.evaluate self s σ1).1 = (LateralIceStream.evaluate self s σ2).1.
Proof.
  revert σ1 σ2. induction s as [result|x k IH]; intros σ1 σ2 Hwf1 Hwf2 HHf; simpl;
    [done|].
  pose proof (Lateral_pde_values_any_state self x (lit 0.01) σ1 σ2 Hwf1 Hwf2 HHf)
    as Hany.
  destruct (LateralIceStream.compute_pde_values self x (lit 0.01) false σ1)
    as [[[r1|c1] σ1']|],
           (LateralIceStream.compute_pde_values self x (lit 0.01) false σ2)
    as [[[r2|c2] σ2']|];
    try done.
  - destruct Hany as (-> & Hwf1' & Hwf2' & HHf'). by apply IH.
  - by apply IH.
Qed.
End numerical.

(** X25. For both models and every behaviour of the library,
    [compute_numerical_jacobian] writes no object of the instance but
    [self.F]: [self.J] (and with it a Jacobian returned before by
    reference), [self.K] and [self.Hf] hold what they held, objects are
    only added, and the instance stays well formed.  This holds in every
    arithmetic. *)
Theorem numerical_jacobian_writes_only_F {T : Type} `{Arith T} :
  (∀ (nd_Jacobian : T → list T → nd_run T) (self : IceStream.t T) (u : list T)
     (step : T) (σ : heap T),
     IceStream.wf self σ →
     IceStream.wf self (IceStream.compute_numerical_jacobian nd_Jacobian self u step σ).2
     ∧ (length σ
        ≤ length (IceStream.compute_numerical_jacobian nd_Jacobian self u step σ).2)%nat
     ∧ (∀ l, (l < length σ)%nat → l ≠ IceStream.F self →
          (IceStream.compute_numerical_jacobian nd_Jacobian self u step σ).2 !! l
          = σ !! l)
     ∧ read2 (IceStream.J self)
         (IceStream.compute_numerical_jacobian nd_Jacobian self u step σ).2
       = read2 (IceStream.J self) σ)
  ∧
  (∀ (nd_Jacobian : T → list T → nd_run T) (self : LateralIceStream.t T)
     (u : list T) (step : T) (σ : heap T),
     LateralIceStream.wf self σ →
     LateralIceStream.wf self
       (LateralIceStream.compute_numerical_jacobian nd_Jacobian self u step σ).2
     ∧ (length σ
        ≤ length
            (LateralIceStream.compute_numerical_jacobian nd_Jacobian self u step σ).2)%nat
     ∧ (∀ l, (l < length σ)%nat → l ≠ LateralIceStream.F self →
          (LateralIceStream.compute_numerical_jacobian nd_Jacobian self u step σ).2 !! l
          = σ !! l)
     ∧ read2 (LateralIceStream.J self)
         (LateralIceStream.compute_numerical_jacobian nd_Jacobian self u step σ).2
       = read2 (LateralIceStream.J self) σ).
Proof.
  split.
  - intros nd_Jacobian self u step σ Hwf.
    unfold IceStream.compute_numerical_jacobian.
    destruct (IceStream_evaluate_frame self (nd_Jacobian step u) σ Hwf)
      as (Hwf' & Hlen & Hfr).
    split_and!; [done..|].
    pose proof Hwf as (_ & _ & (Fv & HF & _) & (Jv & HJ & _) & _).
    unfold read2. rewrite Hfr; [done| |].
    + by eapply read2_lt.
    + intros E. symmetry in E. revert E. by eapply read1_read2_ne.
  - intros nd_Jacobian self u step σ Hwf.
    unfold LateralIceStream.compute_numerical_jacobian.
    destruct (Lateral_evaluate_frame self (nd_Jacobian step u) σ Hwf)
      as (Hwf' & Hlen & Hfr).
    split_and!; [done..|].
    pose proof Hwf as (_ & _ & _ & (Fv & HF & _) & (Jv & HJ & _) & _).
    unfold read2. rewrite Hfr; [done| |].
    + by eapply read2_lt.
    + intros E. symmetry in E. revert E. by eapply read1_read2_ne.
Qed.

(** X26. For both models and every behaviour of the library, what
    [compute_numerical_jacobian] returns for [u] and [step] (a matrix, or
    the exception) does not depend on the calls of [compute_pde_values]
    and [compute_jacobian] made before on the instance: every evaluation
    the library makes returns what it returns in any other state of the
    instance.  This holds in every arithmetic. *)
Theorem numerical_jacobian_ignores_history {T : Type} `{Arith T} :
  (∀ (nd_Jacobian : T → list T → nd_run T) (self : IceStream.t T) (u : list T)
     (step : T) (cs : list (IceStream.call T)) (σ : heap T),
     IceStream.wf self σ →
     (IceStream.compute_numerical_jacobian nd_Jacobian self u step
        (IceStream.run self cs σ)).1
     = (IceStream.compute_numerical_jacobian nd_Jacobian self u step σ).1)
  ∧
  (∀ (nd_Jacobian : T → list T → nd_run T) (self : LateralIceStream.t T)
     (u : list T) (step : T) (cs : list (LateralIceStream.call T)) (σ : heap T),
     LateralIceStream.wf self σ →
     (LateralIceStream.compute_numerical_jacobian nd_Jacobian self u step
        (LateralIceStream.run self cs σ)).1
     = (LateralIceStream.compute_numerical_jacobian nd_Jacobian self u step σ).1).
Proof.
  split.
  - intros nd_Jacobian self u step cs σ Hwf.
    destruct (IceStream_run_frame self cs σ Hwf) as (Hwf' & _).
    by apply IceStream_evaluate_any_state.
  - intros nd_Jacobian self u step cs σ Hwf.
    destruct (Lateral_run_frame self cs σ Hwf) as (Hwf' & _).
    apply Lateral_evaluate_any_state; [done..|].
    pose proof Hwf as (_ & (Hfv & HHf & _) & _).
    rewrite HHf. by apply Lateral_run_Hf.
Qed.


(** ** The theorems on the grid of two nodes *)

Lemma Grid2_profile_wf : Profile.wf Grid2.profile.
Proof. repeat split; simpl; lia. Qed.

Lemma Grid2_ice_wf : IceStream.wf Grid2.ice Grid2.ice_heap.
Proof. apply IceStream_init_wf, Grid2_profile_wf. Qed.

Lemma Grid2_lateral_wf : LateralIceStream.wf Grid2.lateral Grid2.lateral_heap.
Proof. apply Lateral_init_wf, Grid2_profile_wf. Qed.

Lemma residual_boundary_entries_on_grid :
  (IceStream.wf Grid2.ice Grid2.ice_heap ∧ length Grid2.u = 2%nat ∧
   ∃ r σ' res,
     IceStream.compute_pde_values Grid2.ice Grid2.u Grid2.scale Grid2.ice_heap
       = Some (r, σ') ∧
     read1 r σ' = Some res ∧ is_Some (res !! 2%nat) ∧ is_Some (res !! 3%nat))
  ∧
  (LateralIceStream.wf Grid2.lateral Grid2.lateral_heap ∧ length Grid2.u = 2%nat ∧
   ∃ r σ' res,
     LateralIceStream.compute_pde_values Grid2.lateral Grid2.u Grid2.scale false
       Grid2.lateral_heap = Some (LateralIceStream.Residual r, σ') ∧
     read1 r σ' = Some res ∧ is_Some (res !! 2%nat) ∧ is_Some (res !! 3%nat)).
Proof.
  split.
  - split; [apply Grid2_ice_wf|]. split; [reflexivity|].
    destruct (proj1 residual_boundary_entries Grid2.ice Grid2.u Grid2.scale
                Grid2.ice_heap Grid2_ice_wf eq_refl)
      as (r & σ' & res & d0 & dN & Hc & Hr & _ & _ & _ & HN & HN1).
    exists r, σ', res. split_and!; [exact Hc|exact Hr|by eexists..].
  - split; [apply Grid2_lateral_wf|]. split; [reflexivity|].
    destruct (proj2 residual_boundary_entries Grid2.lateral Grid2.u Grid2.scale
                Grid2.lateral_heap Grid2_lateral_wf eq_refl)
      as (r & σ' & res & d0 & dN & Hc & Hr & _ & _ & _ & HN & HN1).
    exists r, σ', res. split_and!; [exact Hc|exact Hr|by eexists..].
Defined.

Lemma Grid1_profile_wf : Profile.wf Grid1.profile.
Proof. repeat split; simpl; lia. Qed.

Lemma Grid1_lateral_wf : LateralIceStream.wf Grid1.lateral Grid1.lateral_heap.
Proof. apply Lateral_init_wf, Grid1_profile_wf. Qed.

Lemma components_recombine_on_grid :
  LateralIceStream.wf Grid1.lateral Grid1.lateral_heap ∧
  length Grid1.u = Profile.N (LateralIceStream.profile Grid1.lateral) ∧
  ∃ c mem bas lat drv r σ' res,
    LateralIceStream.compute_pde_values Grid1.lateral Grid1.u Grid1.scale true
      Grid1.lateral_heap = Some (LateralIceStream.Components c, Grid1.lateral_heap) ∧
    c !! "membrane" = Some mem ∧ c !! "basal" = Some bas ∧
    c !! "lateral" = Some lat ∧ c !! "driving" = Some drv ∧
    LateralIceStream.compute_pde_values Grid1.lateral Grid1.u Grid1.scale false
      Grid1.lateral_heap = Some (LateralIceStream.Residual r, σ') ∧
    read1 r σ' = Some res ∧
    vv add (vv sub mem (vv add bas lat)) drv
    = take (Profile.N (LateralIceStream.profile Grid1.lateral)) res.
Proof.
  split; [apply Grid1_lateral_wf|]. split; [reflexivity|].
  apply components_recombine_as_written; [apply Grid1_lateral_wf|reflexivity].
Defined.


Lemma viscosity_on_grid :
  (0 < 1)%R ∧ (3 ≠ 0)%R ∧ (0 < 0.00000001)%R ∧
  [Fin 0; Fin 1] !! 0%nat = Some (Fin 0) ∧ (3 < 0 ∨ 1 <= 3)%R ∧
  ∃ r, viscosity (Fin 1) (Fin 3) (Fin 0.00000001) [Fin 0; Fin 1] !! 0%nat
       = Some (Fin r) ∧ (0 < r)%R.
Proof.
  split; [lra|]. split; [lra|]. split; [lra|]. split; [reflexivity|].
  split; [right; lra|].
  apply (viscosity_is_finite_and_positive 1 3 0.00000001 0 [Fin 0; Fin 1] 0);
    [lra|lra|lra|reflexivity|intros _; right; lra].
Defined.

Lemma basal_jacobian_singular_on_grid :
  LateralIceStream.m Grid2.lateral = Fin 3 ∧ (1 < 3)%R ∧
  Grid2.u' !! 0%nat = Some (Fin 0) ∧
  ∃ x, LateralIceStream.J_basal Grid2.lateral [Fin 1; Fin 1] Grid2.u' Grid2.scale
         !! 0%nat = Some x ∧
       Xr.is_finite x = false ∧ ∀ y, Xr.is_finite (Xr.sub y x) = false.
Proof.
  split; [reflexivity|]. split; [lra|]. split; [reflexivity|].
  apply (basal_jacobian_is_singular_at_zero_velocity Grid2.lateral [Fin 1; Fin 1]
           Grid2.u' Grid2.scale (Fin 1) 3 0); [reflexivity|lra|reflexivity..].
Defined.

Lemma drag_is_odd_on_grid :
  (Grid2.u !! 0%nat = Some (Fin 1) ∧ (1 ≠ 0)%R ∧
   LateralIceStream.basal_drag Grid2.lateral [Fin 1; Fin 1] (Xr.neg <$> Grid2.u)
     Grid2.scale !! 0%nat
   = Xr.neg <$> LateralIceStream.basal_drag Grid2.lateral [Fin 1; Fin 1] Grid2.u
                  Grid2.scale !! 0%nat
   ∧ LateralIceStream.lateral_drag Grid2.lateral (Xr.neg <$> Grid2.u) Grid2.scale
       !! 0%nat
     = Xr.neg <$> LateralIceStream.lateral_drag Grid2.lateral Grid2.u Grid2.scale
                    !! 0%nat)
  ∧
  (Grid2.u' !! 0%nat = Some (Fin 0) ∧
   LateralIceStream.m Grid2.lateral = Fin 3 ∧ (0 < 3)%R ∧
   LateralIceStream.n Grid2.lateral = Fin 3 ∧
   LateralIceStream.basal_drag Grid2.lateral [Fin 1; Fin 1] (Xr.neg <$> Grid2.u')
     Grid2.scale !! 0%nat
   = Xr.neg <$> LateralIceStream.basal_drag Grid2.lateral [Fin 1; Fin 1] Grid2.u'
                  Grid2.scale !! 0%nat
   ∧ LateralIceStream.lateral_drag Grid2.lateral (Xr.neg <$> Grid2.u') Grid2.scale
       !! 0%nat
     = Xr.neg <$> LateralIceStream.lateral_drag Grid2.lateral Grid2.u' Grid2.scale
                    !! 0%nat).
Proof.
  split.
  - split; [reflexivity|]. split; [lra|].
    apply (drag_is_odd Grid2.lateral [Fin 1; Fin 1] Grid2.u Grid2.scale 1 0);
      [reflexivity|left; lra].
  - split; [reflexivity|]. split; [reflexivity|]. split; [lra|].
    split; [reflexivity|].
    apply (drag_is_odd Grid2.lateral [Fin 1; Fin 1] Grid2.u' Grid2.scale 0 0);
      [reflexivity|].
    right. exists 3%R, 3%R. split_and!; [reflexivity|lra|reflexivity|lra].
Defined.


Lemma residual_copy_on_grid :
  (IceStream.wf Grid2.ice Grid2.ice_heap ∧ length Grid2.u = 2%nat ∧
   ∃ r σ1 res,
     IceStream.compute_pde_values Grid2.ice Grid2.u Grid2.scale Grid2.ice_heap
       = Some (r, σ1) ∧
     r ≠ IceStream.F Grid2.ice ∧ read1 r σ1 = Some res ∧
     read1 r (IceStream.run Grid2.ice
                [IceStream.Call_pde_values Grid2.u' Grid2.scale;
                 IceStream.Call_jacobian Grid2.u Grid2.scale] σ1) = Some res)
  ∧
  (LateralIceStream.wf Grid2.lateral Grid2.lateral_heap ∧ length Grid2.u = 2%nat ∧
   ∃ r σ1 res,
     LateralIceStream.compute_pde_values Grid2.lateral Grid2.u Grid2.scale false
       Grid2.lateral_heap = Some (LateralIceStream.Residual r, σ1) ∧
     r ≠ LateralIceStream.F Grid2.lateral ∧ read1 r σ1 = Some res ∧
     read1 r (LateralIceStream.run Grid2.lateral
                [LateralIceStream.Call_pde_values Grid2.u' Grid2.scale false;
                 LateralIceStream.Call_jacobian Grid2.u Grid2.scale] σ1) = Some res).
Proof.
  split.
  - split; [apply Grid2_ice_wf|]. split; [reflexivity|].
    destruct (proj1 residual_is_independent_copy Grid2.ice Grid2.u Grid2.scale
                Grid2.ice_heap Grid2_ice_wf eq_refl)
      as (r & σ1 & res & Hc & _ & HF & _ & Hr & _ & Hrun).
    exists r, σ1, res. split_and!; [exact Hc|exact HF|exact Hr|apply Hrun].
  - split; [apply Grid2_lateral_wf|]. split; [reflexivity|].
    destruct (proj1 (proj2 residual_is_independent_copy) Grid2.lateral Grid2.u
                Grid2.scale Grid2.lateral_heap Grid2_lateral_wf eq_refl)
      as (r & σ1 & res & Hc & _ & HF & _ & Hr & _ & Hrun).
    exists r, σ1, res. split_and!; [exact Hc|exact HF|exact Hr|apply Hrun].
Defined.

Lemma jacobian_reference_on_grid :
  (IceStream.wf Grid2.ice Grid2.ice_heap ∧ length Grid2.u = 2%nat ∧
   length Grid2.u' = 2%nat ∧
   ∃ σ1 σ2,
     IceStream.compute_jacobian Grid2.ice Grid2.u Grid2.scale Grid2.ice_heap
       = Some (IceStream.J Grid2.ice, σ1) ∧
     IceStream.compute_jacobian Grid2.ice Grid2.u' Grid2.scale σ1
       = Some (IceStream.J Grid2.ice, σ2) ∧
     length σ2 = length Grid2.ice_heap)
  ∧
  (LateralIceStream.wf Grid2.lateral Grid2.lateral_heap ∧ length Grid2.u = 2%nat ∧
   length Grid2.u' = 2%nat ∧
   ∃ σ1 σ2,
     LateralIceStream.compute_jacobian Grid2.lateral Grid2.u Grid2.scale
       Grid2.lateral_heap = Some (LateralIceStream.J Grid2.lateral, σ1) ∧
     LateralIceStream.compute_jacobian Grid2.lateral Grid2.u' Grid2.scale σ1
       = Some (LateralIceStream.J Grid2.lateral, σ2) ∧
     length σ2 = length Grid2.lateral_heap).
Proof.
  split.
  - split; [apply Grid2_ice_wf|]. split; [reflexivity|]. split; [reflexivity|].
    destruct (proj1 jacobian_is_returned_by_reference Grid2.ice Grid2.u Grid2.u'
                Grid2.scale Grid2.scale Grid2.ice_heap Grid2_ice_wf eq_refl eq_refl)
      as (Kv & D0 & DN & σ1 & σ2 & _ & _ & _ & Hc1 & _ & _ & Hc2 & Hlen & _).
    exists σ1, σ2. split_and!; [exact Hc1|exact Hc2|exact Hlen].
  - split; [apply Grid2_lateral_wf|]. split; [reflexivity|]. split; [reflexivity|].
    destruct (proj2 jacobian_is_returned_by_reference Grid2.lateral Grid2.u Grid2.u'
                Grid2.scale Grid2.scale Grid2.lateral_heap Grid2_lateral_wf
                eq_refl eq_refl)
      as (Kv & Hfv & D0 & DN & σ1 & σ2 & _ & _ & _ & _ & Hc1 & _ & _ & Hc2 & Hlen & _).
    exists σ1, σ2. split_and!; [exact Hc1|exact Hc2|exact Hlen].
Defined.

(** The flotation thickness on the grid: the first node is above
    flotation, the second below and floored. *)
Example Grid2_flotation :
  read1 (LateralIceStream.Hf Grid2.lateral) Grid2.lateral_heap
  = Some [Fin (1000 - 1000 / 917 * 700); lit 0.01].
Proof.
  apply read1_Some. unfold Grid2.lateral, Grid2.lateral_heap.
  unfold LateralIceStream.__init__, alloc.
  cbn [fst snd LateralIceStream.Hf length lookup list_lookup app].
  do 2 f_equal.
  unfold LateralIceStream.floor_flotation, LateralIceStream.raw_flotation, vv, sv.
  cbn [Grid2.profile Profile.h Profile.depth Profile.rho_water Profile.rho_ice
       fmap list_fmap zip_with].
  xr_ops. rewrite Xr_div_Fin by lra. rewrite !Xr_mul_Fin, !Xr_sub_Fin.
  pose proof Q2R_floor_pos.
  assert (Q2R 0.01 < 1)%R by (cbv [Q2R Qnum Qden]; lra).
  f_equal; [|f_equal].
  - simpl. destruct (Rlt_dec _ _); [lra|done].
  - simpl. destruct (Rlt_dec _ _); [done|lra].
Qed.

(** ** The further properties on the grid of two nodes *)

Lemma Grid2_square : square_grid Grid2.profile.
Proof. repeat constructor. Qed.

Lemma Grid2_finite_D : Forall finite_vec (Profile.D Grid2.profile).
Proof. repeat constructor. Qed.

Lemma J_basal_derivative_on_grid :
  LateralIceStream.mu Grid2.lateral = Fin 1 ∧
  LateralIceStream.As Grid2.lateral = Fin 100 ∧
  LateralIceStream.m Grid2.lateral = Fin 3 ∧ (3 ≠ 0)%R ∧ (0 < 1)%R ∧ (1 ≠ 0)%R ∧
  ∃ r, LateralIceStream.J_basal Grid2.lateral [Fin 1; Fin 1] Grid2.u (Fin 0.01)
         !! 0%nat = Some (Fin r) ∧
       derivable_pt_lim (basal_drag_at 0.01 1 100 3 1) 1 r.
Proof.
  split; [reflexivity|]. split; [reflexivity|]. split; [reflexivity|].
  split; [lra|]. split; [lra|]. split; [lra|].
  destruct (J_basal_is_the_derivative Grid2.lateral [Fin 1; Fin 1] Grid2.u
              0.01 1 100 3 1 1 0) as (r & HJ & _ & Hd);
    [reflexivity|reflexivity|reflexivity|lra|reflexivity|lra|reflexivity|lra|].
  exists r. split; [exact HJ|exact Hd].
Defined.

Lemma jacobian_shape_on_grid :
  (IceStream.wf Grid2.ice Grid2.ice_heap ∧ square_grid Grid2.profile ∧
   length Grid2.u = 2%nat ∧
   ∃ σ' Jm,
     IceStream.compute_jacobian Grid2.ice Grid2.u Grid2.scale Grid2.ice_heap
       = Some (IceStream.J Grid2.ice, σ') ∧
     read2 (IceStream.J Grid2.ice) σ' = Some Jm ∧ length Jm = 4%nat ∧
     Forall (λ r, length r = 2%nat) Jm)
  ∧
  (LateralIceStream.wf Grid2.lateral Grid2.lateral_heap ∧ square_grid Grid2.profile ∧
   length Grid2.u = 2%nat ∧
   ∃ σ' Jm,
     LateralIceStream.compute_jacobian Grid2.lateral Grid2.u Grid2.scale
       Grid2.lateral_heap = Some (LateralIceStream.J Grid2.lateral, σ') ∧
     read2 (LateralIceStream.J Grid2.lateral) σ' = Some Jm ∧ length Jm = 4%nat ∧
     Forall (λ r, length r = 2%nat) Jm).
Proof.
  split.
  - split; [apply Grid2_ice_wf|]. split; [apply Grid2_square|]. split; [reflexivity|].
    destruct (proj1 jacobian_shape_and_boundary_rows Grid2.ice Grid2.u Grid2.scale
                Grid2.ice_heap Grid2_ice_wf Grid2_square eq_refl)
      as (σ' & Jm & D0 & DN & Hc & HJ & Hlen & Hrows & _).
    exists σ', Jm. split_and!; [exact Hc|exact HJ|exact Hlen|exact Hrows].
  - split; [apply Grid2_lateral_wf|]. split; [apply Grid2_square|].
    split; [reflexivity|].
    destruct (proj2 jacobian_shape_and_boundary_rows Grid2.lateral Grid2.u Grid2.scale
                Grid2.lateral_heap Grid2_lateral_wf Grid2_square eq_refl)
      as (σ' & Jm & D0 & DN & Hc & HJ & Hlen & Hrows & _).
    exists σ', Jm. split_and!; [exact Hc|exact HJ|exact Hlen|exact Hrows].
Defined.

Lemma IceStream_history_on_grid :
  IceStream.wf Grid2.ice Grid2.ice_heap ∧ length Grid2.u = 2%nat ∧
  ∃ r r' σ1 σ1' res,
    IceStream.compute_pde_values Grid2.ice Grid2.u Grid2.scale Grid2.ice_heap
      = Some (r, σ1) ∧
    read1 r σ1 = Some res ∧
    IceStream.compute_pde_values Grid2.ice Grid2.u Grid2.scale
      (IceStream.run Grid2.ice
         [IceStream.Call_jacobian Grid2.u' Grid2.scale;
          IceStream.Call_pde_values Grid2.u' Grid2.scale] Grid2.ice_heap)
      = Some (r', σ1') ∧
    read1 r' σ1' = Some res.
Proof.
  split; [apply Grid2_ice_wf|]. split; [reflexivity|].
  apply (IceStream_results_ignore_history Grid2.ice Grid2.u Grid2.scale
           [IceStream.Call_jacobian Grid2.u' Grid2.scale;
            IceStream.Call_pde_values Grid2.u' Grid2.scale] Grid2.ice_heap
           Grid2_ice_wf eq_refl).
Defined.

Lemma Lateral_history_on_grid :
  LateralIceStream.wf Grid2.lateral Grid2.lateral_heap ∧ length Grid2.u = 2%nat ∧
  ∃ σ2 σ2' Jm,
    LateralIceStream.compute_jacobian Grid2.lateral Grid2.u Grid2.scale
      Grid2.lateral_heap = Some (LateralIceStream.J Grid2.lateral, σ2) ∧
    read2 (LateralIceStream.J Grid2.lateral) σ2 = Some Jm ∧
    LateralIceStream.compute_jacobian Grid2.lateral Grid2.u Grid2.scale
      (LateralIceStream.run Grid2.lateral
         [LateralIceStream.Call_jacobian Grid2.u' Grid2.scale;
          LateralIceStream.Call_pde_values Grid2.u' Grid2.scale false]
         Grid2.lateral_heap)
      = Some (LateralIceStream.J Grid2.lateral, σ2') ∧
    read2 (LateralIceStream.J Grid2.lateral) σ2' = Some Jm.
Proof.
  split; [apply Grid2_lateral_wf|]. split; [reflexivity|].
  apply (Lateral_results_ignore_history Grid2.lateral Grid2.u Grid2.scale
           [LateralIceStream.Call_jacobian Grid2.u' Grid2.scale;
            LateralIceStream.Call_pde_values Grid2.u' Grid2.scale false]
           Grid2.lateral_heap Grid2_lateral_wf eq_refl).
Defined.

Lemma buffers_on_grid :
  (IceStream.wf Grid2.ice Grid2.ice_heap ∧
   read2 (IceStream.J Grid2.ice)
     (IceStream.run Grid2.ice
        [IceStream.Call_pde_values Grid2.u Grid2.scale;
         IceStream.Call_pde_values Grid2.u' Grid2.scale] Grid2.ice_heap)
   = read2 (IceStream.J Grid2.ice) Grid2.ice_heap)
  ∧
  (LateralIceStream.wf Grid2.lateral Grid2.lateral_heap ∧
   read1 (LateralIceStream.F Grid2.lateral)
     (LateralIceStream.run Grid2.lateral
        [LateralIceStream.Call_jacobian Grid2.u Grid2.scale;
         LateralIceStream.Call_jacobian Grid2.u' Grid2.scale] Grid2.lateral_heap)
   = read1 (LateralIceStream.F Grid2.lateral) Grid2.lateral_heap).
Proof.
  split.
  - split; [apply Grid2_ice_wf|].
    apply (proj1 (proj1 buffers_do_not_interfere Grid2.ice
                    [(Grid2.u, Grid2.scale); (Grid2.u', Grid2.scale)]
                    Grid2.ice_heap Grid2_ice_wf)).
  - split; [apply Grid2_lateral_wf|].
    apply (proj2 (proj2 buffers_do_not_interfere Grid2.lateral
                    [(Grid2.u, Grid2.scale, false); (Grid2.u', Grid2.scale, false)]
                    Grid2.lateral_heap Grid2_lateral_wf)).
Defined.

Lemma components_on_grid :
  LateralIceStream.wf Grid2.lateral Grid2.lateral_heap ∧ length Grid2.u = 2%nat ∧
  ∃ c,
    LateralIceStream.compute_pde_values Grid2.lateral Grid2.u Grid2.scale true
      Grid2.lateral_heap = Some (LateralIceStream.Components c, Grid2.lateral_heap) ∧
    dom c = ({["membrane"; "basal"; "lateral"; "driving"]} : gset string) ∧
    ∀ k v, c !! k = Some v → length v = 2%nat.
Proof.
  split; [apply Grid2_lateral_wf|]. split; [reflexivity|].
  apply (components_keys_and_shapes Grid2.lateral Grid2.u Grid2.scale
           Grid2.lateral_heap Grid2_lateral_wf eq_refl).
Defined.

Lemma drag_terms_on_grid :
  ∃ row b l row',
    membrane_jacobian (Profile.D Grid2.profile) (Profile.h Grid2.profile)
      (LateralIceStream.n Grid2.lateral) (LateralIceStream.nu_eps Grid2.lateral)
      [[Fin 1; Fin 0]; [Fin 0; Fin 1]] Grid2.u Grid2.scale !! 0%nat = Some row ∧
    LateralIceStream.J_basal Grid2.lateral [Fin 1; Fin 1] Grid2.u Grid2.scale
      !! 0%nat = Some b ∧
    LateralIceStream.J_lateral Grid2.lateral Grid2.u Grid2.scale !! 0%nat = Some l ∧
    LateralIceStream.Jpde Grid2.lateral [[Fin 1; Fin 0]; [Fin 0; Fin 1]]
      [Fin 1; Fin 1] Grid2.u Grid2.scale !! 0%nat = Some row' ∧
    length row' = length row ∧
    (∀ j, j ≠ 0%nat → row' !! j = row !! j) ∧
    row' !! 0%nat = (λ y, sub (sub y b) l) <$> row !! 0%nat.
Proof.
  apply (drag_terms_enter_on_the_diagonal Grid2.lateral
           [[Fin 1; Fin 0]; [Fin 0; Fin 1]] [Fin 1; Fin 1] Grid2.u Grid2.scale 0);
    simpl; lia.
Defined.

Lemma IceStream_attributes_on_grid :
  IceStream.compute_pde_values Retuned.ice_m Grid2.u Grid2.scale Grid2.ice_heap
  = IceStream.compute_pde_values Grid2.ice Grid2.u Grid2.scale Grid2.ice_heap
  ∧ IceStream.compute_jacobian Retuned.ice_A Grid2.u Grid2.scale Grid2.ice_heap
    = IceStream.compute_jacobian Grid2.ice Grid2.u Grid2.scale Grid2.ice_heap.
Proof.
  split.
  - apply (proj1 (IceStream_attributes_read Retuned.ice_m Grid2.ice Grid2.u
                    Grid2.scale Grid2.ice_heap eq_refl eq_refl eq_refl eq_refl eq_refl));
      reflexivity.
  - apply (proj2 (IceStream_attributes_read Retuned.ice_A Grid2.ice Grid2.u
                    Grid2.scale Grid2.ice_heap eq_refl eq_refl eq_refl eq_refl eq_refl));
      reflexivity.
Defined.

Lemma Lateral_attributes_on_grid :
  LateralIceStream.compute_pde_values Retuned.lateral_rho Grid2.u Grid2.scale false
    Grid2.lateral_heap
  = LateralIceStream.compute_pde_values Grid2.lateral Grid2.u Grid2.scale false
      Grid2.lateral_heap
  ∧ LateralIceStream.compute_jacobian Retuned.lateral_g Grid2.u Grid2.scale
      Grid2.lateral_heap
    = LateralIceStream.compute_jacobian Grid2.lateral Grid2.u Grid2.scale
        Grid2.lateral_heap.
Proof.
  split.
  - apply (proj1 (Lateral_attributes_read Retuned.lateral_rho Grid2.lateral Grid2.u
                    Grid2.scale false Grid2.lateral_heap eq_refl eq_refl eq_refl
                    eq_refl eq_refl eq_refl eq_refl eq_refl eq_refl eq_refl));
      reflexivity.
  - apply (proj2 (Lateral_attributes_read Retuned.lateral_g Grid2.lateral Grid2.u
                    Grid2.scale false Grid2.lateral_heap eq_refl eq_refl eq_refl
                    eq_refl eq_refl eq_refl eq_refl eq_refl eq_refl eq_refl));
      reflexivity.
Defined.

Lemma stress_constant_on_grid :
  Profile.wf Grid2.profile ∧
  read2 (LateralIceStream.K Grid2.lateral)
    (LateralIceStream.run Grid2.lateral
       [LateralIceStream.Call_jacobian Grid2.u Grid2.scale;
        LateralIceStream.Call_pde_values Grid2.u' Grid2.scale false]
       Grid2.lateral_heap)
  = Some (stress_constant (Profile.D Grid2.profile) (Fin 1) (Fin 3)).
Proof.
  split; [apply Grid2_profile_wf|].
  apply (proj2 stress_constant_is_kept Grid2.profile (Fin 0) (Fin 1) (Fin 3000)
           (Fin 100) (Fin 1) (Fin 3) (Fin 3) []
           [LateralIceStream.Call_jacobian Grid2.u Grid2.scale;
            LateralIceStream.Call_pde_values Grid2.u' Grid2.scale false]
           Grid2_profile_wf).
Defined.

Lemma gradient_product_on_grid :
  finite_vec [Fin 2; Fin 3] ∧ Forall finite_vec (Profile.D Grid2.profile) ∧
  length (Profile.D Grid2.profile) = 2%nat ∧
  gradient_product [Fin 2; Fin 3] (Profile.D Grid2.profile)
  = gradient_product_doc [Fin 2; Fin 3] (Profile.D Grid2.profile).
Proof.
  split; [repeat constructor|]. split; [apply Grid2_finite_D|].
  split; [reflexivity|].
  apply (gradient_product_is_diagonal_product [Fin 2; Fin 3]
           (Profile.D Grid2.profile) 2);
    [repeat constructor|apply Grid2_finite_D|reflexivity|apply Grid2_square].
Defined.

Lemma boundary_rows_on_grid :
  (IceStream.wf Grid2.ice Grid2.ice_heap ∧ length Grid2.u = 2%nat ∧
   finite_vec Grid2.u ∧
   ∃ r σ1 res σ2 Jm rowN rowN1,
     IceStream.compute_pde_values Grid2.ice Grid2.u Grid2.scale Grid2.ice_heap
       = Some (r, σ1) ∧
     read1 r σ1 = Some res ∧
     IceStream.compute_jacobian Grid2.ice Grid2.u Grid2.scale σ1
       = Some (IceStream.J Grid2.ice, σ2) ∧
     read2 (IceStream.J Grid2.ice) σ2 = Some Jm ∧
     Jm !! 2%nat = Some rowN ∧ Jm !! 3%nat = Some rowN1 ∧
     res !! 2%nat = Some (inner rowN Grid2.u) ∧
     res !! 3%nat = Some (Xr.sub (inner rowN1 Grid2.u) (Fin (Q2R 500 * 0))))
  ∧
  (LateralIceStream.wf Grid2.lateral Grid2.lateral_heap ∧ length Grid2.u = 2%nat ∧
   finite_vec Grid2.u ∧
   ∃ r σ1 res σ2 Jm rowN rowN1,
     LateralIceStream.compute_pde_values Grid2.lateral Grid2.u Grid2.scale false
       Grid2.lateral_heap = Some (LateralIceStream.Residual r, σ1) ∧
     read1 r σ1 = Some res ∧
     LateralIceStream.compute_jacobian Grid2.lateral Grid2.u Grid2.scale σ1
       = Some (LateralIceStream.J Grid2.lateral, σ2) ∧
     read2 (LateralIceStream.J Grid2.lateral) σ2 = Some Jm ∧
     Jm !! 2%nat = Some rowN ∧ Jm !! 3%nat = Some rowN1 ∧
     res !! 2%nat = Some (inner rowN Grid2.u) ∧
     res !! 3%nat = Some (Xr.sub (inner rowN1 Grid2.u) (Fin (Q2R 500 * 0)))).
Proof.
  split.
  - split; [apply Grid2_ice_wf|]. split; [reflexivity|]. split; [repeat constructor|].
    apply (proj1 boundary_rows_reproduce_boundary_residual Grid2.ice Grid2.u
             Grid2.scale Grid2.ice_heap (Q2R 500) 0%R Grid2_ice_wf eq_refl
             Grid2_finite_D);
      [repeat constructor|reflexivity|reflexivity].
  - split; [apply Grid2_lateral_wf|]. split; [reflexivity|].
    split; [repeat constructor|].
    apply (proj2 boundary_rows_reproduce_boundary_residual Grid2.lateral Grid2.u
             Grid2.scale Grid2.lateral_heap (Q2R 500) 0%R Grid2_lateral_wf eq_refl
             Grid2_finite_D);
      [repeat constructor|reflexivity|reflexivity].
Defined.

Lemma J_lateral_derivative_on_grid :
  LateralIceStream.W Grid2.lateral = Fin 3000 ∧ (0 < 3000)%R ∧
  LateralIceStream.A Grid2.lateral = Fin 1 ∧ (0 < 1)%R ∧
  LateralIceStream.n Grid2.lateral = Fin 3 ∧ (3 ≠ 0)%R ∧ (1 ≠ 0)%R ∧
  ∃ r, LateralIceStream.J_lateral Grid2.lateral Grid2.u (Fin 0.01) !! 0%nat
         = Some (Fin r) ∧
       derivable_pt_lim (lateral_drag_at 0.01 1000 3000 1 3) 1 r.
Proof.
  split; [reflexivity|]. split; [lra|]. split; [reflexivity|]. split; [lra|].
  split; [reflexivity|]. split; [lra|]. split; [lra|].
  destruct (J_lateral_is_the_derivative Grid2.lateral Grid2.u
              0.01 1000 3000 1 3 1 0) as (r & HJ & _ & Hd);
    [reflexivity|lra|reflexivity|lra|reflexivity|lra|reflexivity|reflexivity|lra|].
  exists r. split; [exact HJ|exact Hd].
Defined.

Lemma jacobian_not_finite_on_grid :
  LateralIceStream.wf Grid2.lateral Grid2.lateral_heap ∧ square_grid Grid2.profile ∧
  length Grid2.u' = 2%nat ∧ Grid2.u' !! 0%nat = Some (Fin 0) ∧
  LateralIceStream.m Grid2.lateral = Fin 3 ∧ (1 < 3)%R ∧
  ∃ σ' Jm row z,
    LateralIceStream.compute_jacobian Grid2.lateral Grid2.u' Grid2.scale
      Grid2.lateral_heap = Some (LateralIceStream.J Grid2.lateral, σ') ∧
    read2 (LateralIceStream.J Grid2.lateral) σ' = Some Jm ∧
    Jm !! 0%nat = Some row ∧ row !! 0%nat = Some z ∧ Xr.is_finite z = false.
Proof.
  split; [apply Grid2_lateral_wf|]. split; [apply Grid2_square|].
  split; [reflexivity|]. split; [reflexivity|]. split; [reflexivity|]. split; [lra|].
  apply (jacobian_is_not_finite_at_zero_velocity Grid2.lateral Grid2.u' Grid2.scale
           Grid2.lateral_heap 0 Grid2_lateral_wf Grid2_square eq_refl eq_refl).
  left. exists 3%R. split; [reflexivity|lra].
Defined.

Lemma linear_sliding_on_grid :
  LateralIceStream.m Retuned.lateral_linear = Fin 1 ∧
  LateralIceStream.mu Retuned.lateral_linear = Fin 1 ∧
  LateralIceStream.As Retuned.lateral_linear = Fin 100 ∧ (0 <= 1)%R ∧
  LateralIceStream.basal_drag Retuned.lateral_linear [Fin 1; Fin 1] Grid2.u'
    (Fin 0.01) !! 0%nat = Some (Fin (0.01 * 1 * 100 * 1 * 0))
  ∧ LateralIceStream.J_basal Retuned.lateral_linear [Fin 1; Fin 1] Grid2.u'
      (Fin 0.01) !! 0%nat = Some (Fin (0.01 * 1 * 100 * 1)).
Proof.
  split; [reflexivity|]. split; [reflexivity|]. split; [reflexivity|]. split; [lra|].
  apply (linear_sliding_has_a_constant_jacobian Retuned.lateral_linear
           [Fin 1; Fin 1] Grid2.u' 0.01 1 100 1 0 0);
    [reflexivity|reflexivity|reflexivity|reflexivity|lra|reflexivity].
Defined.

Lemma newtonian_viscosity_on_grid :
  [PInf; Fin 2] !! 0%nat = Some PInf ∧
  viscosity (Fin 2) (Fin 1) (Fin 0.00000001) [PInf; Fin 2] !! 0%nat
  = Some (Xr.div (Xr.pow (Fin 2) (Fin (-1))) (Xr.add (Fin 1) (Fin 0.00000001))).
Proof.
  split; [reflexivity|].
  apply (newtonian_viscosity_is_constant (Fin 2) (Fin 0.00000001) PInf
           [PInf; Fin 2] 0 eq_refl).
Defined.

Lemma shear_thinning_on_grid :
  (0 < 1)%R ∧ (1 <= 3)%R ∧ (0 < 0.00000001)%R ∧ (Rabs 0 <= Rabs 2)%R ∧
  ∃ r1 r2,
    viscosity (Fin 1) (Fin 3) (Fin 0.00000001) [Fin 0; Fin 2] !! 0%nat
      = Some (Fin r1) ∧
    viscosity (Fin 1) (Fin 3) (Fin 0.00000001) [Fin 0; Fin 2] !! 1%nat
      = Some (Fin r2) ∧
    (0 < r2)%R ∧ (r2 <= r1)%R ∧ (r1 <= Rpower 1 (-1 / 3) / 0.00000001)%R.
Proof.
  assert (Rabs 0 <= Rabs 2)%R as Hle by (rewrite Rabs_R0; apply Rabs_pos).
  split; [lra|]. split; [lra|]. split; [lra|]. split; [exact Hle|].
  apply (viscosity_is_shear_thinning 1 3 0.00000001 0 2 [Fin 0; Fin 2] 0 1);
    [lra|lra|lra|reflexivity|reflexivity|exact Hle].
Defined.

Lemma Lateral_at_rest_on_grid :
  LateralIceStream.wf Grid2.lateral Grid2.lateral_heap ∧
  finite_vec (Profile.h Grid2.profile) ∧
  LateralIceStream.A Grid2.lateral = Fin 1 ∧ LateralIceStream.n Grid2.lateral = Fin 3 ∧
  LateralIceStream.W Grid2.lateral = Fin 3000 ∧
  LateralIceStream.m Grid2.lateral = Fin 3 ∧
  ∃ r σ',
    LateralIceStream.compute_pde_values Grid2.lateral Retuned.at_rest (Fin 0.01) false
      Grid2.lateral_heap = Some (LateralIceStream.Residual r, σ') ∧
    read1 r σ'
    = Some (LateralIceStream.Td Grid2.lateral (Fin 0.01)
            ++ [Fin (Q2R 500 * 0); Fin (Q2R 500 * (0 - 0))]).
Proof.
  split; [apply Grid2_lateral_wf|]. split; [repeat constructor|].
  split; [reflexivity|]. split; [reflexivity|]. split; [reflexivity|].
  split; [reflexivity|].
  apply (Lateral_residual_at_rest Grid2.lateral Grid2.lateral_heap
           [Fin (1000 - 1000 / 917 * 700); lit 0.01]
           0.01 1 3 (Q2R 0.00000001) 3000 1 100 3 (Q2R 500) 0);
    try reflexivity; try lra.
  - apply Grid2_lateral_wf.
  - apply Grid2_finite_D.
  - repeat constructor.
  - apply Grid2_flotation.
  - repeat constructor.
Defined.

Lemma drag_sign_on_grid :
  (0 < 0.01)%R ∧ LateralIceStream.mu Grid2.lateral = Fin 1 ∧
  LateralIceStream.As Grid2.lateral = Fin 100 ∧
  LateralIceStream.m Grid2.lateral = Fin 3 ∧
  LateralIceStream.W Grid2.lateral = Fin 3000 ∧
  LateralIceStream.A Grid2.lateral = Fin 1 ∧
  LateralIceStream.n Grid2.lateral = Fin 3 ∧
  Grid2.u !! 1%nat = Some (Fin 2) ∧
  ∃ rb rl,
    LateralIceStream.basal_drag Grid2.lateral [Fin 1; Fin 1] Grid2.u (Fin 0.01)
      !! 1%nat = Some (Fin rb) ∧
    LateralIceStream.lateral_drag Grid2.lateral Grid2.u (Fin 0.01) !! 1%nat
      = Some (Fin rl) ∧
    (0 < rb * 2)%R ∧ (0 < rl * 2)%R.
Proof.
  split; [lra|]. split; [reflexivity|]. split; [reflexivity|]. split; [reflexivity|].
  split; [reflexivity|]. split; [reflexivity|]. split; [reflexivity|].
  split; [reflexivity|].
  apply (drag_opposes_motion Grid2.lateral [Fin 1; Fin 1] Grid2.u
           0.01 1 100 3 1 1000 3000 1 3 2 1);
    try reflexivity; lra.
Defined.

Lemma flotation_kept_on_grid :
  LateralIceStream.raw_flotation Grid2.profile !! 0%nat
    = Some (Fin (1000 - 1000 / 917 * 700)) ∧
  Xr.leb (lit 0.01) (Fin (1000 - 1000 / 917 * 700)) = true ∧
  ∃ Hfv,
    read1 (LateralIceStream.Hf Grid2.lateral) Grid2.lateral_heap = Some Hfv ∧
    Hfv !! 0%nat = Some (Fin (1000 - 1000 / 917 * 700)).
Proof.
  assert (LateralIceStream.raw_flotation Grid2.profile !! 0%nat
          = Some (Fin (1000 - 1000 / 917 * 700))) as Hraw.
  { apply (raw_flotation_finite Grid2.profile 0 1000 700 1000 917);
      [reflexivity..|lra]. }
  assert (Xr.leb (lit 0.01) (Fin (1000 - 1000 / 917 * 700)) = true) as Hge.
  { simpl. destruct (Rle_dec _ _) as [|Hn]; [reflexivity|].
    exfalso. apply Hn. cbv [Q2R Qnum Qden]. lra. }
  split; [exact Hraw|]. split; [exact Hge|].
  apply (flotation_above_the_floor_is_kept Grid2.profile (Fin 0) (Fin 1) (Fin 3000)
           (Fin 100) (Fin 1) (Fin 3) (Fin 3) [] 0 _ Hraw).
  left. exact Hge.
Defined.

Lemma numerical_jacobian_frame_on_grid :
  IceStream.wf Grid2.ice Grid2.ice_heap ∧
  read2 (IceStream.J Grid2.ice)
    (IceStream.compute_numerical_jacobian Retuned.forward_difference Grid2.ice
       Grid2.u (Fin 0.0000001) Grid2.ice_heap).2
  = read2 (IceStream.J Grid2.ice) Grid2.ice_heap.
Proof.
  split; [apply Grid2_ice_wf|].
  apply (proj1 numerical_jacobian_writes_only_F Retuned.forward_difference Grid2.ice
           Grid2.u (Fin 0.0000001) Grid2.ice_heap Grid2_ice_wf).
Defined.

Lemma numerical_jacobian_history_on_grid :
  LateralIceStream.wf Grid2.lateral Grid2.lateral_heap ∧
  (LateralIceStream.compute_numerical_jacobian Retuned.forward_difference
     Grid2.lateral Grid2.u (Fin 0.0000001)
     (LateralIceStream.run Grid2.lateral
        [LateralIceStream.Call_pde_values Grid2.u' Grid2.scale false;
         LateralIceStream.Call_jacobian Grid2.u Grid2.scale] Grid2.lateral_heap)).1
  = (LateralIceStream.compute_numerical_jacobian Retuned.forward_difference
       Grid2.lateral Grid2.u (Fin 0.0000001) Grid2.lateral_heap).1.
Proof.
  split; [apply Grid2_lateral_wf|].
  apply (proj2 numerical_jacobian_ignores_history Retuned.forward_difference
           Grid2.lateral Grid2.u (Fin 0.0000001)
           [LateralIceStream.Call_pde_values Grid2.u' Grid2.scale false;
            LateralIceStream.Call_jacobian Grid2.u Grid2.scale]
           Grid2.lateral_heap Grid2_lateral_wf).
Defined.

Lemma sliding_drag_on_grid :
  IceStream.B2 Grid2.ice = Fin 600 ∧ finite_vec Grid2.u ∧
  np_dot (IceStream.J_drag Grid2.ice Grid2.u (Fin 0.01)) Grid2.u
  = IceStream.drag Grid2.ice Grid2.u (Fin 0.01).
Proof.
  split; [reflexivity|]. split; [repeat constructor|].
  apply (sliding_drag_is_linear Grid2.ice Grid2.u 0.01 600);
    [reflexivity|repeat constructor].
Defined.

Lemma construction_on_grid :
  Profile.wf Grid2.profile ∧
  IceStream.wf Grid2.ice Grid2.ice_heap ∧
  read1 (IceStream.F Grid2.ice) Grid2.ice_heap = Some (replicate 4 (lit 0)) ∧
  read2 (IceStream.J Grid2.ice) Grid2.ice_heap
  = Some (replicate 4 (replicate 2 (lit 0))) ∧
  NoDup [IceStream.K Grid2.ice; IceStream.F Grid2.ice; IceStream.J Grid2.ice].
Proof.
  split; [apply Grid2_profile_wf|].
  destruct (proj1 construction_allocates_the_buffers Grid2.profile (Fin 0) (Fin 1)
              (Fin 600) (Fin 3) (Fin 1) [] Grid2_profile_wf)
    as (Hwf & HF & HJ & Hnd & _).
  split_and!; [exact Hwf|exact HF|exact HJ|exact Hnd].
Defined.
